(** * Claire web tool: the tool-orchestration and agentic-loop engine

    A shallow embedding of [src/api/lmStudioApi.ts] (class [LMStudioAPI]):
    the tool registry, the detection of tool requests in text, the tool
    invoker, the conversation driver, the prompt composer and the agentic
    loop, followed by the properties the specification states about them. *)

From Stdlib Require Import List NArith ZArith Bool Arith Lia.
From Stdlib Require Strings.String Numbers.DecimalString.
From Stdlib Require Import Strings.Ascii.
From Stdlib Require Import Floats.SpecFloat.
Import ListNotations.
Import String.StringSyntax.
Delimit Scope string_scope with string.

Set Implicit Arguments.
Set Warnings "-register-all".

(** ** JavaScript strings

    A JavaScript string is a sequence of UTF-16 code units.  [lit] reads an
    ASCII literal of the source file. *)

Module JsString.

Definition str := list N.

Definition lit (s : String.string) : str :=
  map N_of_ascii (String.list_ascii_of_string s).

Arguments lit s%_string.

(** The quotation mark, for literals that contain one. *)
Definition quote : str := [34%N].

Fixpoint eqb (a b : str) : bool :=
  match a, b with
  | [], [] => true
  | x :: a', y :: b' => (N.eqb x y && eqb a' b')%bool
  | _, _ => false
  end.

(** [WhiteSpace] and [LineTerminator] of ECMA-262: what [\s] matches and
    what [trim] removes. *)
Definition isLineTerminator (c : N) : bool :=
  (N.eqb c 10 || N.eqb c 13 || N.eqb c 8232 || N.eqb c 8233)%bool.

Definition isWhiteSpace (c : N) : bool :=
  ((N.leb 9 c && N.leb c 13) || N.eqb c 32 || N.eqb c 160 || N.eqb c 5760
   || (N.leb 8192 c && N.leb c 8202) || N.eqb c 8232 || N.eqb c 8233
   || N.eqb c 8239 || N.eqb c 8287 || N.eqb c 12288 || N.eqb c 65279)%bool.

Fixpoint trimStart (s : str) : str :=
  match s with
  | c :: s' => if isWhiteSpace c then trimStart s' else s
  | [] => []
  end.

Definition trimEnd (s : str) : str := rev (trimStart (rev s)).

Definition trim (s : str) : str := trimEnd (trimStart s).

(** [Array.prototype.join] on an array of strings. *)
Fixpoint join (sep : str) (l : list str) : str :=
  match l with
  | [] => []
  | [x] => x
  | x :: rest => x ++ sep ++ join sep rest
  end.

(** [String.prototype.toLowerCase].  The mapping is exact on every code
    unit whose lower case contains an ASCII character: the letters A to Z,
    U+0130 (lowered to i followed by U+0307) and U+212A (the Kelvin sign,
    lowered to k).  Any other code unit is left as it is; its lower case in
    JavaScript has no ASCII character either, so a search for an ASCII
    phrase in the result gives the same answer. *)
Definition lowerUnit (c : N) : str :=
  if (N.leb 65 c && N.leb c 90)%bool then [(c + 32)%N]
  else if N.eqb c 304 then [105%N; 775%N]
  else if N.eqb c 8490 then [107%N]
  else [c].

Definition toLowerCase (s : str) : str := flat_map lowerUnit s.

Fixpoint startsWith (p s : str) : bool :=
  match p, s with
  | [], _ => true
  | a :: p', b :: s' => (N.eqb a b && startsWith p' s')%bool
  | _ :: _, [] => false
  end.

(** [String.prototype.includes]: the phrase occurs at some position. *)
Fixpoint includes (s p : str) : bool :=
  (startsWith p s ||
   match s with
   | [] => false
   | _ :: s' => includes s' p
   end)%bool.

(** [s.slice(from, to)] for [from <= to]. *)
Definition slice (s : str) (from to : nat) : str :=
  firstn (to - from) (skipn from s).

End JsString.

Import JsString.

(** ** Regular expressions

    A backtracking matcher for the fragment of the ECMAScript pattern
    language the source uses, with one capture group.  The matcher follows
    the continuation semantics of ECMA-262 (22.2.2): alternatives are tried
    left to right, a greedy quantifier tries one more iteration before the
    rest of the pattern, a lazy one the rest of the pattern first. *)

Module RegExp.

Inductive regex : Type :=
| Empty
| Chr (c : N)                                (* a literal character *)
| Any                                        (* .  *)
| Space                                      (* \s *)
| Eos                                        (* $, without the m flag *)
| Seq (a b : regex)
| Alt (a b : regex)                          (* a|b *)
| Rep (a : regex) (min : nat) (greedy : bool) (* a*  a+  a*?  a+? *)
| Group (a : regex)                          (* ( a ), group 1 *)
| Look (a : regex).                          (* (?= a ) *)

Record flags : Type := { ignoreCase : bool; dotAll : bool }.

(** The literal text [s] as a pattern. *)
Fixpoint lits (s : str) : regex :=
  match s with
  | [] => Empty
  | c :: s' => Seq (Chr c) (lits s')
  end.

(** [a?]: one [a] first, then none. *)
Definition Opt (a : regex) : regex := Alt a Empty.

(** [Canonicalize] without the u flag.  Exact on ASCII; a code unit above
    127 never canonicalizes to an ASCII one, so comparing with an ASCII
    pattern character is exact whatever the input character. *)
Definition canonicalize (c : N) : N :=
  if (N.leb 97 c && N.leb c 122)%bool then (c - 32)%N else c.

Definition charEq (fl : flags) (p c : N) : bool :=
  if ignoreCase fl then N.eqb (canonicalize p) (canonicalize c) else N.eqb p c.

(** The span of group 1, when it took part in the match. *)
Definition capture := option (nat * nat).

Definition result := option (nat * capture).

Section Matcher.

Variable fl : flags.
Variable input : str.

Definition step (ok : N -> bool) (i : nat) (c : capture)
    (k : nat -> capture -> result) : result :=
  match nth_error input i with
  | Some d => if ok d then k (S i) c else None
  | None => None
  end.

(** A quantified atom: [body] is the matcher of the atom.  An iteration
    past the minimum that matches the empty text is abandoned (step 2.b of
    RepeatMatcher).  Every other iteration consumes input, so the fuel
    given by [m] is never spent ([iterate_fuel] below).  No pattern of the
    source has a group under a quantifier, where ECMAScript clears the
    group at each iteration. *)
Fixpoint iterate (body : nat -> capture -> (nat -> capture -> result) -> result)
    (greedy : bool) (k : nat -> capture -> result)
    (fuel min i : nat) (c : capture) {struct fuel} : result :=
  match fuel with
  | O => None
  | S fuel' =>
      let more :=
        body i c (fun j c' =>
          match min with
          | O => if Nat.leb j i then None else iterate body greedy k fuel' O j c'
          | S min' => iterate body greedy k fuel' min' j c'
          end) in
      match min with
      | S _ => more
      | O =>
          if greedy
          then match more with Some x => Some x | None => k i c end
          else match k i c with Some x => Some x | None => more end
      end
  end.

Fixpoint m (r : regex) (i : nat) (c : capture)
    (k : nat -> capture -> result) {struct r} : result :=
  match r with
  | Empty => k i c
  | Chr p => step (charEq fl p) i c k
  | Any => step (fun d => (dotAll fl || negb (isLineTerminator d))%bool) i c k
  | Space => step isWhiteSpace i c k
  | Eos => if Nat.leb (length input) i then k i c else None
  | Seq a b => m a i c (fun j c' => m b j c' k)
  | Alt a b =>
      match m a i c k with
      | Some x => Some x
      | None => m b i c k
      end
  | Rep a min greedy =>
      iterate (m a) greedy k (S (length input - i) + min) min i c
  | Group a => m a i c (fun j _ => k j (Some (i, j)))
  | Look a =>
      match m a i c (fun j c' => Some (j, c')) with
      | Some (_, c') => k i c'
      | None => None
      end
  end.

(** One match attempt at [start]: the end of the match and group 1. *)
Definition matchAt (r : regex) (start : nat) : result :=
  m r start None (fun j c => Some (j, c)).

Fixpoint scan (r : regex) (fuel start : nat) : option (nat * nat * capture) :=
  match fuel with
  | O => None
  | S fuel' =>
      match matchAt r start with
      | Some (e, c) => Some (start, e, c)
      | None => scan r fuel' (S start)
      end
  end.

(** [RegExp.prototype.exec] on a pattern with the g flag: the leftmost
    match that starts at [lastIndex] or later, as (start, end, group 1);
    the pattern's [lastIndex] becomes the end of the match. *)
Definition exec (r : regex) (lastIndex : nat) : option (nat * nat * capture) :=
  scan r (S (length input) - lastIndex) lastIndex.

(** The text of group 1 ([match[1]]); a group that did not take part
    reads as the empty text here. *)
Definition group1 (c : capture) : str :=
  match c with
  | Some (a, b) => slice input a b
  | None => []
  end.

(** [String.prototype.replace] with a g-flag pattern and a fixed
    replacement: every match, left to right, is replaced; after an empty
    match the search moves one code unit on. *)
Fixpoint replaceFrom (r : regex) (by_ : str) (fuel lastIndex next : nat) : str :=
  match fuel with
  | O => skipn next input
  | S fuel' =>
      match exec r lastIndex with
      | None => skipn next input
      | Some (s, e, _) =>
          slice input next s ++ by_ ++
          replaceFrom r by_ fuel' (if Nat.eqb e s then S e else e) e
      end
  end.

Definition replaceAll (r : regex) (by_ : str) : str :=
  replaceFrom r by_ (S (S (length input))) 0 0.

End Matcher.

End RegExp.

Import RegExp.

(** ** JavaScript values and completions *)

(** The values [JSON.parse] produces; a number is an IEEE 754 double, and
    an object lists each of its keys once. *)
Inductive JsValue : Type :=
| JNull
| JBool (b : bool)
| JNumber (x : spec_float)
| JString (s : str)
| JArray (items : list JsValue)
| JObject (fields : list (str * JsValue)).

(** An [Error] object, by its [name] and [message]. *)
Record JsError : Type := mkError { errorName : str; errorMessage : str }.

Definition TypeError (msg : String.string) : JsError :=
  mkError (lit "TypeError") (lit msg).

Arguments TypeError msg%_string.

(** How an evaluation ends: with a value, or with a thrown error (for an
    async function: a resolved or a rejected promise). *)
Inductive Completion (A : Type) : Type :=
| Returns (a : A)
| Throws (e : JsError).

Arguments Returns {A} a.
Arguments Throws {A} e.

(** [Error.prototype.toString], which a template literal applies to a
    caught error. *)
Definition errorText (e : JsError) : str :=
  match errorName e, errorMessage e with
  | [], msg => msg
  | name, [] => name
  | name, msg => name ++ lit ": " ++ msg
  end.

(** Reading the own property [key] of a value ([v.key]); [None] is
    [undefined].  The two keys the source reads, [name] and [parameters],
    are no members of [Object.prototype]. *)
Fixpoint lookupField (fields : list (str * JsValue)) (key : str) : option JsValue :=
  match fields with
  | [] => None
  | (k, v) :: rest => if JsString.eqb k key then Some v else lookupField rest key
  end.

Definition getProperty (v : JsValue) (key : str) : option JsValue :=
  match v with
  | JObject fields => lookupField fields key
  | _ => None
  end.

(** [ToBoolean]. *)
Definition truthy (v : option JsValue) : bool :=
  match v with
  | None => false
  | Some JNull => false
  | Some (JBool b) => b
  | Some (JNumber (S754_zero _)) => false
  | Some (JNumber S754_nan) => false
  | Some (JNumber _) => true
  | Some (JString s) => negb (JsString.eqb s [])
  | Some (JArray _) => true
  | Some (JObject _) => true
  end.

(** Four lower-case hexadecimal digits, for [\uXXXX]. *)
Definition hexDigit (d : N) : N :=
  if N.ltb d 10 then (48 + d)%N else (87 + d)%N.

Definition hex4 (c : N) : str :=
  [hexDigit (N.modulo (N.div c 4096) 16); hexDigit (N.modulo (N.div c 256) 16);
   hexDigit (N.modulo (N.div c 16) 16); hexDigit (N.modulo c 16)].

Definition isHighSurrogate (c : N) : bool := (N.leb 55296 c && N.leb c 56319)%bool.
Definition isLowSurrogate (c : N) : bool := (N.leb 56320 c && N.leb c 57343)%bool.

Definition escapeUnit (c : N) : str :=
  if N.eqb c 8 then lit "\b"
  else if N.eqb c 9 then lit "\t"
  else if N.eqb c 10 then lit "\n"
  else if N.eqb c 12 then lit "\f"
  else if N.eqb c 13 then lit "\r"
  else if N.eqb c 34 then lit "\" ++ quote
  else if N.eqb c 92 then lit "\\"
  else if N.ltb c 32 then lit "\u" ++ hex4 c
  else [c].

(** The body of [QuoteJSONString]: a surrogate pair is copied, a lone
    surrogate is written as an escape. *)
Fixpoint quoteBody (s : str) : str :=
  match s with
  | [] => []
  | c :: rest =>
      if isHighSurrogate c then
        match rest with
        | d :: rest' =>
            if isLowSurrogate d then c :: d :: quoteBody rest'
            else lit "\u" ++ hex4 c ++ quoteBody rest
        | [] => lit "\u" ++ hex4 c
        end
      else if isLowSurrogate c then lit "\u" ++ hex4 c ++ quoteBody rest
      else escapeUnit c ++ quoteBody rest
  end.

Definition quoteJSONString (s : str) : str := quote ++ quoteBody s ++ quote.

(** ** The engine *)

Section Engine.

(** What lies outside the class: the state the tool handlers and the
    language-model backend read and write, and the built-in functions
    whose results depend on floating-point formatting or on a full JSON
    grammar. *)
Variable World : Type.

(** [JSON.parse]; [None] when it throws a [SyntaxError]. *)
Variable JSON_parse : str -> option JsValue.

(** [Number::toString] on a finite double. *)
Variable numberToString : spec_float -> str.

(** [JSON.stringify] without indentation. *)
Fixpoint JSON_stringify (v : JsValue) : str :=
  match v with
  | JNull => lit "null"
  | JBool true => lit "true"
  | JBool false => lit "false"
  | JNumber (S754_infinity _) => lit "null"
  | JNumber S754_nan => lit "null"
  | JNumber x => numberToString x
  | JString s => quoteJSONString s
  | JArray items => lit "[" ++ join (lit ",") (map JSON_stringify items) ++ lit "]"
  | JObject fields =>
      lit "{" ++
      join (lit ",")
        (map (fun kv => quoteJSONString (fst kv) ++ lit ":" ++ JSON_stringify (snd kv))
           fields) ++
      lit "}"
  end.

(** [ToString], which a template literal applies to a value.  An object
    made by [JSON.parse] prints as [[object Object]] unless it has an own
    property [toString], which hides the inherited method: the conversion
    then throws.  An array joins its elements with commas, [null] as the
    empty text. *)
Fixpoint ToString (v : JsValue) : Completion str :=
  match v with
  | JNull => Returns (lit "null")
  | JBool true => Returns (lit "true")
  | JBool false => Returns (lit "false")
  | JNumber (S754_infinity false) => Returns (lit "Infinity")
  | JNumber (S754_infinity true) => Returns (lit "-Infinity")
  | JNumber S754_nan => Returns (lit "NaN")
  | JNumber x => Returns (numberToString x)
  | JString s => Returns s
  | JArray items =>
      match
        (fix elements (l : list JsValue) : Completion (list str) :=
           match l with
           | [] => Returns []
           | x :: rest =>
               match (match x with JNull => Returns [] | _ => ToString x end) with
               | Throws e => Throws e
               | Returns t =>
                   match elements rest with
                   | Throws e => Throws e
                   | Returns ts => Returns (t :: ts)
                   end
               end
           end) items
      with
      | Returns ts => Returns (join (lit ",") ts)
      | Throws e => Throws e
      end
  | JObject fields =>
      match lookupField fields (lit "toString") with
      | Some _ => Throws (TypeError "Cannot convert object to primitive value")
      | None => Returns (lit "[object Object]")
      end
  end.

(** *** Data model *)

Record ToolParameter : Type := {
  paramName : str;
  paramType : str;
  paramDescription : str;
  paramRequired : bool
}.

(** [interface ToolCall].  A call read from a structured tag is the parsed
    object itself, so its [name] is whatever JSON value the text held. *)
Record ToolCall : Type := {
  callName : JsValue;
  callParameters : JsValue
}.

(** [interface Tool]; the handler is an async function, here a function of
    the world that resolves with a value (JSON data, as the handlers of the
    class return) or rejects with an [Error]. *)
Record Tool : Type := {
  toolName : str;
  toolDescription : str;
  toolParameters : list ToolParameter;
  handler : JsValue -> World -> Completion JsValue * World;
  category : option str
}.

Record AgenticState : Type := {
  currentTask : option str;
  taskSteps : list str;
  completedSteps : list str;
  context : list (str * JsValue);
  maxTurns : Z;
  currentTurn : Z
}.

Inductive Role : Type := system | user | assistant.

Record ChatMessage : Type := { role : Role; content : str }.

Record ChatCompletionRequest : Type := {
  url : str;
  messages : list ChatMessage;
  model : str;
  temperature : spec_float;
  max_tokens : Z;
  stream : bool
}.

Record Choice : Type := {
  messageRole : str;
  messageContent : str;
  finish_reason : str
}.

Record ChatCompletionResponse : Type := { choices : list Choice }.

(** [axios.post]: the backend answers or the request fails. *)
Variable axios_post :
  ChatCompletionRequest -> World -> Completion ChatCompletionResponse * World.

(** *** The registry: a [Map] from tool name to tool

    A JavaScript [Map] enumerates its entries in insertion order; setting
    a key it already holds keeps the key's place. *)

Definition ToolMap : Type := list (str * Tool).

Fixpoint Map_get (m : ToolMap) (key : str) : option Tool :=
  match m with
  | [] => None
  | (k, t) :: rest => if JsString.eqb k key then Some t else Map_get rest key
  end.

Fixpoint Map_set (m : ToolMap) (key : str) (t : Tool) : ToolMap :=
  match m with
  | [] => [(key, t)]
  | (k, t0) :: rest =>
      if JsString.eqb k key then (k, t) :: rest else (k, t0) :: Map_set rest key t
  end.

Fixpoint Map_delete (m : ToolMap) (key : str) : bool * ToolMap :=
  match m with
  | [] => (false, [])
  | (k, t) :: rest =>
      if JsString.eqb k key then (true, rest)
      else let (found, rest') := Map_delete rest key in (found, (k, t) :: rest')
  end.

Definition Map_keys (m : ToolMap) : list str := map fst m.
Definition Map_values (m : ToolMap) : list Tool := map snd m.

(** [this.tools.get(toolCall.name)]: only a string can be a key present. *)
Definition toolsGet (m : ToolMap) (key : JsValue) : option Tool :=
  match key with
  | JString s => Map_get m s
  | _ => None
  end.

(** The fields of a [LMStudioAPI] object. *)
Record LMStudioAPI : Type := {
  baseUrl : str;
  defaultModel : str;
  tools : ToolMap;
  agenticState : option AgenticState
}.

Definition registerTool (api : LMStudioAPI) (tool : Tool) : LMStudioAPI :=
  {| baseUrl := baseUrl api; defaultModel := defaultModel api;
     tools := Map_set (tools api) (toolName tool) tool;
     agenticState := agenticState api |}.

Definition unregisterTool (api : LMStudioAPI) (name : str) : bool * LMStudioAPI :=
  let (found, m) := Map_delete (tools api) name in
  (found, {| baseUrl := baseUrl api; defaultModel := defaultModel api;
             tools := m; agenticState := agenticState api |}).

Definition sameCategory (a b : option str) : bool :=
  match a, b with
  | Some x, Some y => JsString.eqb x y
  | None, None => true
  | _, _ => false
  end.

Definition getAvailableTools (api : LMStudioAPI) (cat : option str) : list Tool :=
  let all := Map_values (tools api) in
  match cat with
  | Some (_ :: _) => filter (fun tool => sameCategory (category tool) cat) all
  | _ => all
  end.

(** [initializeDefaultTools].  The four handlers call code outside the
    class (a Wikipedia client, text statistics in floating point); they
    are taken as they come. *)
Definition parameter (name type description : String.string) (required : bool)
    : ToolParameter :=
  {| paramName := lit name; paramType := lit type;
     paramDescription := lit description; paramRequired := required |}.

Arguments parameter (name type description)%_string required.

Definition initializeDefaultTools
    (searchHandler analyzeHandler summarizeHandler planHandler :
       JsValue -> World -> Completion JsValue * World)
    (api : LMStudioAPI) : LMStudioAPI :=
  let api := registerTool api
    {| toolName := lit "search_wikipedia";
       toolDescription := lit "Search Wikipedia for information about a topic";
       toolParameters :=
         [parameter "query" "string" "The topic to search for on Wikipedia" true];
       handler := searchHandler;
       category := Some (lit "research") |} in
  let api := registerTool api
    {| toolName := lit "analyze_text";
       toolDescription :=
         lit "Analyze text for sentiment, keywords, readability, or structure";
       toolParameters :=
         [parameter "text" "string" "Text to analyze" true;
          parameter "type" "string"
            "Analysis type: sentiment, keywords, readability, structure" true];
       handler := analyzeHandler;
       category := Some (lit "analysis") |} in
  let api := registerTool api
    {| toolName := lit "summarize_content";
       toolDescription :=
         lit "Create summaries of long content with different focus areas";
       toolParameters :=
         [parameter "content" "string" "Content to summarize" true;
          parameter "focus" "string"
            "Summary focus: key_points, technical, executive, detailed" false;
          parameter "length" "string" "Summary length: brief, medium, detailed" false];
       handler := summarizeHandler;
       category := Some (lit "content") |} in
  registerTool api
    {| toolName := lit "plan_task";
       toolDescription := lit "Break down complex tasks into manageable steps";
       toolParameters :=
         [parameter "task" "string" "The complex task to plan" true;
          parameter "context" "string" "Additional context or constraints" false];
       handler := planHandler;
       category := Some (lit "planning") |}.

(** The object the constructor leaves: [new LMStudioAPI()]. *)
Definition newLMStudioAPI
    (searchHandler analyzeHandler summarizeHandler planHandler :
       JsValue -> World -> Completion JsValue * World) : LMStudioAPI :=
  initializeDefaultTools searchHandler analyzeHandler summarizeHandler planHandler
    {| baseUrl := lit "http://localhost:6223"; defaultModel := lit "google/gemma-3-4b";
       tools := []; agenticState := None |}.

(** *** RequestDetector *)

(** [/\[TOOL\]({.*?})\[\/TOOL\]/gs] *)
Definition toolRegex : regex :=
  Seq (lits (lit "[TOOL]"))
    (Seq (Group (Seq (Chr 123) (Seq (Rep Any 0 false) (Chr 125))))
       (lits (lit "[/TOOL]"))).

Definition toolRegexFlags : flags := {| ignoreCase := false; dotAll := true |}.

(** The tail the two per-tool patterns share: [\s+(.+?)(?=\.|$)]. *)
Definition queryTail : regex :=
  Seq (Rep Space 1 true) (Seq (Group (Rep Any 1 false)) (Look (Alt (Chr 46) Eos))).

(** [new RegExp(`use ${toolName} tool with\\s+(.+?)(?=\\.|$)`, 'gi')].
    The tool name is spliced into the pattern source as it is; the pattern
    below is what the source text denotes when the name holds no pattern
    syntax ([plainName]), as every name the class registers does.  For a
    name that holds pattern syntax the pattern the code builds is another
    one, or [new RegExp] throws: the statements below that depend on what
    the per-tool patterns match are made for registries of plain names
    ([plainRegistry]). *)
Definition usePattern (toolName : str) : regex :=
  Seq (lits (lit "use ")) (Seq (lits toolName) (Seq (lits (lit " tool with")) queryTail)).

(** [new RegExp(`\\/${toolName}\\s+(.+?)(?=\\.|$)`, 'gi')] *)
Definition slashPattern (toolName : str) : regex :=
  Seq (Chr 47) (Seq (lits toolName) queryTail).

Definition perToolFlags : flags := {| ignoreCase := true; dotAll := false |}.

(** Letters, digits and the underscore: characters that stand for
    themselves in a pattern. *)
Definition plainChar (c : N) : bool :=
  ((N.leb 48 c && N.leb c 57) || (N.leb 65 c && N.leb c 90)
   || (N.leb 97 c && N.leb c 122) || N.eqb c 95)%bool.

Definition plainName (name : str) : bool := forallb plainChar name.

(** The body of the [try] in the first loop: the parsed object is kept
    when its [name] and its [parameters] are both truthy; a parse error
    is caught and logged. *)
Definition parseToolCall (text : str) : option ToolCall :=
  match JSON_parse text with
  | None => None
  | Some toolCall =>
      match getProperty toolCall (lit "name"), getProperty toolCall (lit "parameters") with
      | Some n, Some ps =>
          if (truthy (Some n) && truthy (Some ps))%bool
          then Some {| callName := n; callParameters := ps |}
          else None
      | _, _ => None
      end
  end.

Definition push {A : Type} (l : list A) (x : A) : list A := l ++ [x].

Definition pushIfSome {A : Type} (l : list A) (x : option A) : list A :=
  match x with
  | Some a => push l a
  | None => l
  end.

(** [while ((match = toolRegex.exec(content)) !== null)], with the
    pattern's [lastIndex] made explicit.  [None]: the loop is still
    running when the fuel is spent. *)
Fixpoint tagLoop (content : str) (fuel lastIndex : nat) (toolCalls : list ToolCall)
    : option (list ToolCall) :=
  match fuel with
  | O => None
  | S fuel' =>
      match exec toolRegexFlags content toolRegex lastIndex with
      | None => Some toolCalls
      | Some (_, e, c) =>
          tagLoop content fuel' e
            (pushIfSome toolCalls (parseToolCall (group1 content c)))
      end
  end.

Definition queryCall (toolName : str) (content : str) (c : capture) : ToolCall :=
  {| callName := JString toolName;
     callParameters := JObject [(lit "query", JString (trim (group1 content c)))] |}.

(** One [exec] of a fresh pattern: the first match, if any. *)
Definition firstMatch (r : regex) (toolName content : str) : option ToolCall :=
  match exec perToolFlags content r 0 with
  | Some (_, _, c) => Some (queryCall toolName content c)
  | None => None
  end.

(** The body of [for (const toolName of availableTools)]. *)
Definition perTool (content : str) (toolCalls : list ToolCall) (toolName : str)
    : list ToolCall :=
  let toolCalls := pushIfSome toolCalls (firstMatch (usePattern toolName) toolName content) in
  pushIfSome toolCalls (firstMatch (slashPattern toolName) toolName content).

Definition detectToolRequestsFuel (fuel : nat) (availableTools : list str) (content : str)
    : option (list ToolCall) :=
  match tagLoop content fuel 0 [] with
  | Some toolCalls => Some (fold_left (perTool content) availableTools toolCalls)
  | None => None
  end.

(** [detectToolRequests]; the fuel given always suffices
    ([detectToolRequests_total] below). *)
Definition detectToolRequests (api : LMStudioAPI) (content : str) : list ToolCall :=
  match detectToolRequestsFuel (S (length content)) (Map_keys (tools api)) content with
  | Some toolCalls => toolCalls
  | None => []
  end.

(** *** The state and its monad *)

(** The object [this], the arrays of messages alive (an array is known by
    its index here), the world outside, and the requests posted to the
    backend so far.  What the source writes to the console is left out. *)
Record State : Type := {
  this : LMStudioAPI;
  arrays : list (list ChatMessage);
  world : World;
  posted : list ChatCompletionRequest
}.

Definition M (A : Type) : Type := State -> Completion A * State.

Definition ret {A : Type} (a : A) : M A := fun s => (Returns a, s).

Definition throw {A : Type} (e : JsError) : M A := fun s => (Throws e, s).

Definition bind {A B : Type} (x : M A) (f : A -> M B) : M B :=
  fun s =>
    match x s with
    | (Returns a, s') => f a s'
    | (Throws e, s') => (Throws e, s')
    end.

Notation "x <- e ;; k" := (bind e (fun x => k))
  (at level 61, e at next level, right associativity).
Notation "e ;;; k" := (bind e (fun _ => k))
  (at level 61, right associativity).

Definition gets {A : Type} (f : State -> A) : M A := fun s => (Returns (f s), s).

Definition setThis (api : LMStudioAPI) : M unit :=
  fun s => (Returns tt, {| this := api; arrays := arrays s; world := world s;
                           posted := posted s |}).

(** An array literal or a spread: a new array, and its reference. *)
Definition newArray (a : list ChatMessage) : M nat :=
  fun s => (Returns (length (arrays s)),
            {| this := this s; arrays := arrays s ++ [a]; world := world s;
               posted := posted s |}).

(** The elements of the array behind a reference.  A reference a program
    holds is to an array alive; any other index reads as no elements. *)
Definition readArray (r : nat) : M (list ChatMessage) :=
  gets (fun s => nth r (arrays s) []).

(** Running something of the world: a handler or the backend. *)
Definition inWorld {A : Type} (f : World -> Completion A * World) : M A :=
  fun s =>
    let (r, w) := f (world s) in
    (r, {| this := this s; arrays := arrays s; world := w; posted := posted s |}).

Definition post (req : ChatCompletionRequest) : M ChatCompletionResponse :=
  fun s =>
    inWorld (axios_post req)
      {| this := this s; arrays := arrays s; world := world s;
         posted := posted s ++ [req] |}.

(** [try { x } catch (error) { h error }] *)
Definition tryCatch {A : Type} (x : M A) (h : JsError -> M A) : M A :=
  fun s =>
    match x s with
    | (Returns a, s') => (Returns a, s')
    | (Throws e, s') => h e s'
    end.

Definition liftC {A : Type} (c : Completion A) : M A := fun s => (c, s).

(** *** ToolInvoker *)

Definition processToolCall (toolCall : ToolCall) : M str :=
  registry <- gets (fun s => tools (this s)) ;;
  match toolsGet registry (callName toolCall) with
  | None =>
      name <- liftC (ToString (callName toolCall)) ;;
      ret (lit "[TOOL_ERROR]Unknown tool: " ++ name ++ lit ". Available tools: "
           ++ join (lit ", ") (Map_keys registry) ++ lit "[/TOOL_ERROR]")
  | Some tool =>
      tryCatch
        (result <- inWorld (handler tool (callParameters toolCall)) ;;
         name <- liftC (ToString (callName toolCall)) ;;
         ret (lit "[TOOL_RESULT:" ++ name ++ lit "]" ++ JSON_stringify result
              ++ lit "[/TOOL_RESULT]"))
        (fun error =>
           name <- liftC (ToString (callName toolCall)) ;;
           ret (lit "[TOOL_ERROR:" ++ name ++ lit "]" ++ errorText error
                ++ lit "[/TOOL_ERROR]"))
  end.

Fixpoint processToolChainFrom (toolCalls : list ToolCall) (results : list str)
    : M (list str) :=
  match toolCalls with
  | [] => ret results
  | toolCall :: rest =>
      result <- processToolCall toolCall ;;
      processToolChainFrom rest (push results result)
  end.

Definition processToolChain (toolCalls : list ToolCall) : M (list str) :=
  processToolChainFrom toolCalls [].

(** *** ConversationDriver *)

(** [/<think>.*?<\/think>/gs] and [/<\/?think>/g] *)
Definition thinkSpan : regex :=
  Seq (lits (lit "<think>")) (Seq (Rep Any 0 false) (lits (lit "</think>"))).

Definition thinkTag : regex :=
  Seq (Chr 60) (Seq (Opt (Chr 47)) (lits (lit "think>"))).

Definition plainFlags : flags := {| ignoreCase := false; dotAll := false |}.

Definition cleanUp (content : str) : str :=
  let content := replaceAll toolRegexFlags content thinkSpan [] in
  let content := replaceAll plainFlags content thinkTag [] in
  trim content.

Definition toolResultsMessage (results : list str) : ChatMessage :=
  {| role := system; content := lit "Tool results: " ++ join [10%N] results |}.

(** [chatCompletion]; [messages] is the reference the caller passes.  The
    [catch] of the source logs the error and throws it again, so an error
    leaves the function as it arose. *)
Definition chatCompletion (messages : nat) (model : str) (temperature : spec_float)
    (maxTokens : Z) : M str :=
  elements <- readArray messages ;;
  lastMessage <-
    match rev elements with
    | last :: _ => ret last
    | [] => throw (TypeError "Cannot read properties of undefined (reading 'content')")
    end ;;
  api <- gets this ;;
  let toolCalls := detectToolRequests api (content lastMessage) in
  messages <-
    (if Nat.ltb 0 (length toolCalls)
     then results <- processToolChain toolCalls ;;
          newArray (elements ++ [toolResultsMessage results])
     else ret messages) ;;
  body <- readArray messages ;;
  base <- gets (fun s => baseUrl (this s)) ;;
  response <- post {| url := base ++ lit "/v1/chat/completions"; messages := body;
                      model := model; temperature := temperature;
                      max_tokens := maxTokens; stream := false |} ;;
  match choices response with
  | first :: _ => ret (cleanUp (messageContent first))
  | [] => throw (TypeError "Cannot read properties of undefined (reading 'message')")
  end.

(** *** PromptComposer *)

Record ToolManifest : Type := {
  manifestName : str;
  manifestDescription : str;
  manifestParameters : list ToolParameter
}.

(** [interface Protocols] *)
Record Protocols : Type := {
  directive : str;
  protocolContext : str;
  rationale : str;
  examples : list str;
  constraints : list str;
  protocolTools : option (list ToolManifest)
}.

(** What [object[key]] gives on an object literal: an own property, a
    member inherited from [Object.prototype] (a function, or the prototype
    itself for [__proto__]), or [undefined]. *)
Inductive Member (A : Type) : Type :=
| Own (a : A)
| Inherited (key : str)
| Missing.

Arguments Own {A} a.
Arguments Inherited {A} key.
Arguments Missing {A}.

Definition objectPrototypeKeys : list str :=
  [lit "constructor"; lit "__defineGetter__"; lit "__defineSetter__";
   lit "hasOwnProperty"; lit "__lookupGetter__"; lit "__lookupSetter__";
   lit "isPrototypeOf"; lit "propertyIsEnumerable"; lit "toString";
   lit "valueOf"; lit "__proto__"; lit "toLocaleString"].

Fixpoint ownProperty {A : Type} (entries : list (str * A)) (key : str) : option A :=
  match entries with
  | [] => None
  | (k, a) :: rest => if JsString.eqb k key then Some a else ownProperty rest key
  end.

Definition member {A : Type} (entries : list (str * A)) (key : str) : Member A :=
  match ownProperty entries key with
  | Some a => Own a
  | None =>
      if existsb (JsString.eqb key) objectPrototypeKeys then Inherited key else Missing
  end.

Definition nl : str := [10%N].

Definition manifestOf (tool : Tool) : ToolManifest :=
  {| manifestName := toolName tool; manifestDescription := toolDescription tool;
     manifestParameters := toolParameters tool |}.

Definition protocolTable (api : LMStudioAPI) : list (str * Protocols) :=
  [ (lit "general",
     {| directive := lit "You are Claire, an AI assistant that helps with a variety of tasks.";
        protocolContext := lit "You are helpful, friendly, witty, and engaging.";
        rationale := lit "Your responses should be short, to the point, and concise.";
        examples := [lit "What is the weather like today?";
                     lit "Can you help me with my homework?";
                     lit "Tell me a joke."];
        constraints := [lit "Be polite and respectful.";
                        lit "Avoid sensitive topics.";
                        lit "Do not provide medical or legal advice."];
        protocolTools := None |});
    (lit "writing",
     {| directive := lit "You are Claire, a writing assistant.";
        protocolContext := lit "You help users improve their writing by offering suggestions, edits, and feedback.";
        rationale := lit "Focus on clarity, conciseness, and impact.";
        examples := [lit "Write a short story about a dog named Charlie.";
                     lit "Rewrite this paragraph to make it more engaging: " ++ quote
                       ++ lit "The quick brown fox jumps over the lazy dog." ++ quote;
                     lit "Rewrite this sentence to make it more engaging: " ++ quote
                       ++ lit "The quick brown fox jumps over the lazy dog." ++ quote];
        constraints := [lit "Be concise and clear.";
                        lit "Avoid jargon and unnecessary language. Complex and creative language is welcome.";
                        lit "Focus on the main idea."];
        protocolTools := None |});
    (lit "research",
     {| directive := lit "You are Claire, a research assistant.";
        protocolContext := lit "You help users analyze information, find connections, and summarize complex topics.";
        rationale := lit "Provide well-structured, factual responses.";
        examples := [lit "Summarize the main points of this article.";
                     lit "What are the key findings of this research paper?";
                     lit "Can you help me find sources for my thesis?"];
        constraints := [lit "Be factual and objective.";
                        lit "Avoid personal opinions or biases.";
                        lit "Cite sources when possible."];
        protocolTools := None |});
    (lit "coding",
     {| directive := lit "You are Claire, a coding assistant.";
        protocolContext := lit "You help users write, debug, and understand code.";
        rationale := lit "Provide clear explanations and practical examples.";
        examples := [lit "Write a Python function to calculate the factorial of a number.";
                     lit "Explain how a for loop works in Python.";
                     lit "Can you help me debug this code?"];
        constraints := [lit "Be clear and concise.";
                        lit "Avoid complex jargon unless necessary.";
                        lit "Provide examples when possible."];
        protocolTools := None |});
    (lit "pdf",
     {| directive := lit "You are Claire, a PDF analysis assistant.";
        protocolContext := lit "You help users understand and extract information from PDF documents.";
        rationale := lit "Provide clear summaries and highlight key points.";
        examples := [lit "Summarize this PDF document.";
                     lit "What are the key findings in this research paper?";
                     lit "Can you help me extract data from this PDF?"];
        constraints := [lit "Be clear and concise.";
                        lit "Avoid complex jargon unless necessary.";
                        lit "Provide examples when possible."];
        protocolTools := None |});
    (lit "web",
     {| directive := lit "You are Claire, a web page analysis assistant.";
        protocolContext := lit "You help users understand and extract information from web pages.";
        rationale := lit "Provide clear summaries and highlight key points.";
        examples := [lit "Summarize this web page.";
                     lit "What are the key findings in this research paper?";
                     lit "Can you help me extract data from this web page?"];
        constraints := [lit "Be clear and concise.";
                        lit "Avoid complex jargon unless necessary.";
                        lit "Provide examples when possible."];
        protocolTools := Some (map manifestOf (getAvailableTools api None)) |}) ].

(** [getProtocols]: [protocols[mode]], with no default. *)
Definition getProtocols (api : LMStudioAPI) (mode : str) : Member Protocols :=
  member (protocolTable api) mode.

(** A parameter object as [JSON.stringify] writes it when the object was
    written with its keys in the order of the interface, as those of the
    tools the class registers are; an object written otherwise prints its
    keys in its own order. *)
Definition parameterJson (p : ToolParameter) : JsValue :=
  JObject [(lit "name", JString (paramName p)); (lit "type", JString (paramType p));
           (lit "description", JString (paramDescription p));
           (lit "required", JBool (paramRequired p))].

Definition manifestJson (t : ToolManifest) : JsValue :=
  JObject [(lit "name", JString (manifestName t));
           (lit "description", JString (manifestDescription t));
           (lit "parameters", JArray (map parameterJson (manifestParameters t)))].

(** A [Protocols] object as [JSON.stringify] walks it: the keys in the
    order the literal writes them, [tools] only where it is defined. *)
Definition protocolsJson (p : Protocols) : JsValue :=
  JObject
    ([(lit "directive", JString (directive p));
      (lit "context", JString (protocolContext p));
      (lit "rationale", JString (rationale p));
      (lit "examples", JArray (map JString (examples p)));
      (lit "constraints", JArray (map JString (constraints p)))]
     ++ match protocolTools p with
        | Some ts => [(lit "tools", JArray (map manifestJson ts))]
        | None => []
        end).

(** [${JSON.stringify(this.getProtocols(mode))}]: [undefined] and a
    function both come out as the text [undefined], [Object.prototype]
    as an empty object. *)
Definition protocolEcho (api : LMStudioAPI) (mode : str) : str :=
  match getProtocols api mode with
  | Own p => JSON_stringify (protocolsJson p)
  | Inherited key =>
      if JsString.eqb key (lit "__proto__") then lit "{}" else lit "undefined"
  | Missing => lit "undefined"
  end.

(** [`${p.name} (${p.type}${p.required ? ", required" : ""})`] *)
Definition signature (p : ToolParameter) : str :=
  paramName p ++ lit " (" ++ paramType p
  ++ (if paramRequired p then lit ", required" else []) ++ lit ")".

Definition usageEntry (indent : str) (tool : Tool) : str :=
  nl ++ indent ++ lit "- " ++ toolName tool ++ lit ": " ++ toolDescription tool ++ nl
  ++ indent ++ lit "  Parameters: "
  ++ join (lit ", ") (map signature (toolParameters tool)) ++ nl
  ++ indent ++ lit "  Usage formats:" ++ nl
  ++ indent ++ lit "    * [TOOL]{" ++ quote ++ lit "name" ++ quote ++ lit ": " ++ quote
  ++ toolName tool ++ quote ++ lit ", " ++ quote ++ lit "parameters" ++ quote
  ++ lit ": {...}}[/TOOL]" ++ nl
  ++ indent ++ lit "    * Use " ++ toolName tool ++ lit " tool with [query/parameters]" ++ nl
  ++ indent ++ lit "    * /" ++ toolName tool ++ lit " [query]" ++ nl
  ++ indent.

Definition toolInstructions (api : LMStudioAPI) : str :=
  let availableTools := getAvailableTools api None in
  if Nat.ltb 0 (length availableTools)
  then nl ++ lit "    Available tools:" ++ nl
       ++ lit "    " ++ join nl (map (usageEntry (lit "    ")) availableTools) ++ nl
       ++ lit "    " ++ nl
       ++ lit "    You can use these tools naturally in conversation. Just mention what you want to do and I'll use the appropriate tool." ++ nl
       ++ lit "    "
  else [].

Definition promptTable (api : LMStudioAPI) (mode : str) : list (str * str) :=
  let tail := lit " " ++ toolInstructions api ++ lit " Here are your protocols: "
              ++ protocolEcho api mode in
  [ (lit "general", lit "You are Claire, an AI assistant that helps with a variety of tasks. You are helpful, friendly, witty, and engaging. Your responses should be short, to the point, and concise." ++ tail);
    (lit "writing", lit "You are Claire, a writing assistant. You help users improve their writing by offering suggestions, edits, and feedback. Focus on clarity, conciseness, and impact." ++ tail);
    (lit "research", lit "You are Claire, a research assistant. You help users analyze information, find connections, and summarize complex topics. Provide well-structured, factual responses." ++ tail);
    (lit "coding", lit "You are Claire, a coding assistant. You help users write, debug, and understand code. Provide clear explanations and practical examples." ++ tail);
    (lit "pdf", lit "You are Claire, a PDF analysis assistant. You help users understand and extract information from PDF documents. Provide clear summaries and highlight key points." ++ tail);
    (lit "web", lit "You are Claire, a web page analysis assistant. You help users understand and extract information from web pages. Provide clear summaries and highlight key points." ++ tail) ].

(** [getSystemPrompt]: [systemPrompts[mode] || systemPrompts.general].
    Every entry of the table is built with [getProtocols(mode)], the
    [general] one too.  [Inherited key]: the value returned is the member
    of [Object.prototype] of that name, no text. *)
Definition getSystemPrompt (api : LMStudioAPI) (mode : str) : Member str :=
  let systemPrompts := promptTable api mode in
  match member systemPrompts mode with
  | Own (c :: text) => Own (c :: text)
  | Inherited key => Inherited key
  | _ => member systemPrompts (lit "general")
  end.

(** *** AgenticLoop *)

Definition getAgenticSystemPrompt (api : LMStudioAPI) : str :=
  lit "You are Claire, an agentic AI assistant. You can break down complex tasks and use available tools to complete them step by step." ++ nl
  ++ nl
  ++ lit "Available tools:" ++ nl
  ++ join nl (map (usageEntry []) (Map_values (tools api))) ++ nl
  ++ nl
  ++ lit "Instructions:" ++ nl
  ++ lit "1. Analyze the task and break it down if complex" ++ nl
  ++ lit "2. Use available tools when needed" ++ nl
  ++ lit "3. Build upon previous results" ++ nl
  ++ lit "4. When you have completed the task, say " ++ quote ++ lit "TASK COMPLETE:"
  ++ quote ++ lit " followed by your final answer" ++ nl
  ++ lit "5. Be proactive - suggest additional tools or information that might be helpful".

Definition completionIndicators : list str :=
  [lit "task complete:"; lit "analysis complete"; lit "here is your final answer";
   lit "task finished"; lit "completed successfully"].

Definition isTaskComplete (response : str) : bool :=
  existsb (fun indicator => includes (toLowerCase response) indicator)
    completionIndicators.

Definition setAgenticState (a : option AgenticState) : M unit :=
  api <- gets this ;;
  setThis {| baseUrl := baseUrl api; defaultModel := defaultModel api;
             tools := tools api; agenticState := a |}.

(** [this.agenticState.<field>]: a [TypeError] when the state is [null]. *)
Definition getAgenticState : M AgenticState :=
  a <- gets (fun s => agenticState (this s)) ;;
  match a with
  | Some a => ret a
  | None => throw (TypeError "Cannot read properties of null")
  end.

(** The double nearest to [0.7], the default [temperature]. *)
Definition defaultTemperature : spec_float :=
  S754_finite false 6305039478318694 (-53).

Definition defaultMaxTokens : Z := 100000.

(** [await this.chatCompletion([{system ...}, {user ...}])] *)
Definition turn (context : str) : M str :=
  api <- gets this ;;
  messages <- newArray [ {| role := system; content := getAgenticSystemPrompt api |};
                         {| role := user; content := context |} ] ;;
  chatCompletion messages (defaultModel api) defaultTemperature defaultMaxTokens.

(** How the loop was left: by [break], or because its condition
    [currentTurn < maxTurns] was false. *)
Inductive Phase : Type := Completed | BudgetExhausted.

Definition previousResponse (context response : str) : str :=
  context ++ nl ++ nl ++ lit "Previous response: " ++ response.

Definition incrementTurn (a : AgenticState) : AgenticState :=
  {| currentTask := currentTask a; taskSteps := taskSteps a;
     completedSteps := completedSteps a; context := context a;
     maxTurns := maxTurns a; currentTurn := (currentTurn a + 1)%Z |}.

(** The [while] loop; it returns how it was left and [finalResponse].
    [None]: the loop is still running when the fuel is spent. *)
Fixpoint agenticLoop (fuel : nat) (context finalResponse : str)
    : M (option (Phase * str)) :=
  a <- getAgenticState ;;
  if Z.ltb (currentTurn a) (maxTurns a) then
    match fuel with
    | O => ret None
    | S fuel' =>
        response <- turn context ;;
        if isTaskComplete response then ret (Some (Completed, response))
        else
          let context := previousResponse context response in
          a <- getAgenticState ;;
          setAgenticState (Some (incrementTurn a)) ;;;
          a <- getAgenticState ;;
          let finalResponse :=
            if Z.leb (maxTurns a) (currentTurn a) then response else finalResponse in
          agenticLoop fuel' context finalResponse
    end
  else ret (Some (BudgetExhausted, finalResponse)).

Definition initialState (userInput : str) (maxTurns : Z) : AgenticState :=
  {| currentTask := Some userInput; taskSteps := []; completedSteps := [];
     context := []; maxTurns := maxTurns; currentTurn := 0 |}.

(** [executeAgenticTask] ([maxTurns] is 5 when the caller gives none).
    The loop is given [maxTurns] units of fuel, which is always enough
    ([executeAgenticTask_total] below). *)
Definition executeAgenticTask (userInput : str) (maxTurns : Z) : M (option str) :=
  setAgenticState (Some (initialState userInput maxTurns)) ;;;
  r <- agenticLoop (Z.to_nat maxTurns) userInput [] ;;
  setAgenticState None ;;;
  ret (option_map snd r).

(** ** Properties *)

Unset Implicit Arguments.

(** *** The matcher stays inside the input and moves forward *)

Section MatcherFacts.

Variable fl : flags.
Variable input : str.

(** A pattern that cannot match the empty text. *)
Fixpoint consuming (r : regex) : bool :=
  match r with
  | Chr _ | Any | Space => true
  | Empty | Eos | Look _ => false
  | Seq a b => (consuming a || consuming b)%bool
  | Alt a b => (consuming a && consuming b)%bool
  | Rep a min _ => (Nat.ltb 0 min && consuming a)%bool
  | Group a => consuming a
  end.

(** A matcher that hands its continuation a position at least [d] past
    its own, inside the input. *)
Definition advances (d : nat)
    (f : nat -> capture -> (nat -> capture -> result) -> result) : Prop :=
  forall i c k x, i <= length input -> f i c k = Some x ->
    exists j c', i + d <= j /\ j <= length input /\ k j c' = Some x.

Lemma advances_weaken d f : advances d f -> advances 0 f.
Proof.
  intros H i c k x Hi Hm. destruct (H i c k x Hi Hm) as (j & c' & ? & ? & ?).
  exists j, c'. repeat split; auto; lia.
Qed.

Lemma step_advances ok : advances 1 (step input ok).
Proof.
  intros i c k x _ Hm. unfold step in Hm.
  destruct (nth_error input i) as [d|] eqn:E; [|discriminate].
  destruct (ok d); [|discriminate].
  assert (i < length input) by (apply nth_error_Some; congruence).
  exists (S i), c. repeat split; auto; lia.
Qed.

Lemma iterate_advances body greedy :
  advances 0 body ->
  forall fuel min, advances 0 (fun i c k => iterate body greedy k fuel min i c).
Proof.
  intros Hb fuel. induction fuel as [|fuel IH]; intros min i c k' x Hi Hm.
  - discriminate.
  - simpl in Hm.
    assert (Hmore : forall y,
      body i c (fun j c' =>
        match min with
        | O => if Nat.leb j i then None else iterate body greedy k' fuel 0 j c'
        | S min' => iterate body greedy k' fuel min' j c'
        end) = Some y ->
      exists j c', i + 0 <= j /\ j <= length input /\ k' j c' = Some y).
    { intros y Hy. destruct (Hb _ _ _ _ Hi Hy) as (j & c' & Hij & Hj & Hk).
      destruct min as [|min'].
      - destruct (Nat.leb j i); [discriminate|].
        destruct (IH 0 j c' k' y Hj Hk) as (j' & c'' & ? & ? & ?).
        exists j', c''. repeat split; auto; lia.
      - destruct (IH min' j c' k' y Hj Hk) as (j' & c'' & ? & ? & ?).
        exists j', c''. repeat split; auto; lia. }
    destruct min as [|min'].
    + destruct greedy.
      * destruct (body i c _) as [y|] eqn:E.
        -- apply Hmore. exact Hm.
        -- exists i, c. repeat split; auto; lia.
      * destruct (k' i c) as [y|] eqn:E.
        -- inversion Hm; subst. exists i, c. repeat split; auto; lia.
        -- apply Hmore. exact Hm.
    + apply Hmore. exact Hm.
Qed.

Lemma m_advances r : advances 0 (m fl input r).
Proof.
  induction r as [| p | | | | a IHa b IHb | a IHa b IHb | a IHa min greedy | a IHa | a IHa];
    intros i c k x Hi Hm; cbn [m] in Hm.
  - exists i, c. repeat split; auto; lia.
  - apply (advances_weaken _ _ (step_advances _)) in Hm; auto.
  - apply (advances_weaken _ _ (step_advances _)) in Hm; auto.
  - apply (advances_weaken _ _ (step_advances _)) in Hm; auto.
  - destruct (Nat.leb (length input) i); [|discriminate].
    exists i, c. repeat split; auto; lia.
  - destruct (IHa _ _ _ _ Hi Hm) as (j & c' & ? & Hj & Hb).
    destruct (IHb _ _ _ _ Hj Hb) as (j' & c'' & ? & ? & ?).
    exists j', c''. repeat split; auto; lia.
  - destruct (m fl input a i c k) as [y|] eqn:E.
    + inversion Hm; subst. apply (IHa _ _ _ _ Hi E).
    + apply (IHb _ _ _ _ Hi Hm).
  - exact (@iterate_advances (m fl input a) greedy IHa _ _ i c k x Hi Hm).
  - destruct (IHa _ _ _ _ Hi Hm) as (j & c' & ? & ? & ?).
    exists j, (Some (i, j)). repeat split; auto.
  - destruct (m fl input a i c _) as [[j c']|] eqn:E; [|discriminate].
    exists i, c'. repeat split; auto; lia.
Qed.

Lemma m_consuming r : consuming r = true -> advances 1 (m fl input r).
Proof.
  induction r as [| p | | | | a IHa b IHb | a IHa b IHb | a IHa min greedy | a IHa | a IHa];
    intros Hc i c k x Hi Hm; simpl in Hc; cbn [m] in Hm; try discriminate.
  - exact (@step_advances _ i c k x Hi Hm).
  - exact (@step_advances _ i c k x Hi Hm).
  - exact (@step_advances _ i c k x Hi Hm).
  - apply orb_true_iff in Hc. destruct Hc as [Hc|Hc].
    + destruct (IHa Hc _ _ _ _ Hi Hm) as (j & c' & ? & Hj & Hb).
      destruct (m_advances b _ _ _ _ Hj Hb) as (j' & c'' & ? & ? & ?).
      exists j', c''. repeat split; auto; lia.
    + destruct (m_advances a _ _ _ _ Hi Hm) as (j & c' & ? & Hj & Hb).
      destruct (IHb Hc _ _ _ _ Hj Hb) as (j' & c'' & ? & ? & ?).
      exists j', c''. repeat split; auto; lia.
  - apply andb_true_iff in Hc. destruct Hc as [Ha Hb].
    destruct (m fl input a i c k) as [y|] eqn:E.
    + inversion Hm; subst. apply (IHa Ha _ _ _ _ Hi E).
    + apply (IHb Hb _ _ _ _ Hi Hm).
  - apply andb_true_iff in Hc. destruct Hc as [Hmin Ha].
    destruct min as [|min']; [discriminate|].
    simpl in Hm.
    destruct (IHa Ha _ _ _ _ Hi Hm) as (j & c' & ? & Hj & Hit).
    destruct (@iterate_advances (m fl input a) greedy (m_advances a) _ _ j c' k x Hj Hit)
      as (j' & c'' & ? & ? & ?).
    exists j', c''. repeat split; auto; lia.
  - destruct (IHa Hc _ _ _ _ Hi Hm) as (j & c' & ? & ? & ?).
    exists j, (Some (i, j)). repeat split; auto.
Qed.

Lemma scan_bounds r fuel start s e c :
  consuming r = true -> start <= length input ->
  fuel <= S (length input) - start ->
  scan fl input r fuel start = Some (s, e, c) ->
  start <= s /\ s < e /\ e <= length input.
Proof.
  intros Hc. revert start. induction fuel as [|fuel IH]; intros start Hs Hf Hm.
  - discriminate.
  - simpl in Hm. unfold matchAt in Hm.
    destruct (m fl input r start None _) as [[e' c']|] eqn:E.
    + inversion Hm; subst.
      destruct (m_consuming r Hc _ _ _ _ Hs E) as (j & c'' & ? & ? & Hk).
      inversion Hk; subst. lia.
    + destruct fuel as [|fuel']; [discriminate|].
      assert (S start <= length input) by lia.
      destruct (IH (S start)) as (? & ? & ?); auto; lia.
Qed.

(** A match of a consuming pattern starts at [lastIndex] or later, is not
    empty and ends inside the input. *)
Lemma exec_bounds r lastIndex s e c :
  consuming r = true ->
  exec fl input r lastIndex = Some (s, e, c) ->
  lastIndex <= s /\ s < e /\ e <= length input.
Proof.
  intros Hc Hm. unfold exec in Hm.
  destruct (Nat.le_gt_cases lastIndex (length input)) as [Hle|Hgt].
  - apply (scan_bounds r _ lastIndex _ _ _ Hc Hle (Nat.le_refl _) Hm).
  - replace (S (length input) - lastIndex) with 0 in Hm by lia. discriminate.
Qed.

(** A matcher that consults its continuation only at positions between
    its own and the end of the input. *)
Definition looksAhead (f : nat -> capture -> (nat -> capture -> result) -> result) : Prop :=
  forall i c k1 k2, i <= length input ->
    (forall j c', i <= j -> j <= length input -> k1 j c' = k2 j c') ->
    f i c k1 = f i c k2.

Lemma step_looksAhead ok : looksAhead (step input ok).
Proof.
  intros i c k1 k2 _ Hk. unfold step.
  destruct (nth_error input i) as [d|] eqn:E; [|reflexivity].
  destruct (ok d); [|reflexivity].
  assert (i < length input) by (apply nth_error_Some; congruence).
  apply Hk; lia.
Qed.

Lemma iterate_looksAhead body greedy :
  looksAhead body ->
  forall fuel min, looksAhead (fun i c k => iterate body greedy k fuel min i c).
Proof.
  intros Hb fuel. induction fuel as [|fuel IH]; intros min i c k1 k2 Hi Hk; [reflexivity|].
  simpl.
  assert (Hmore :
    body i c (fun j c' =>
      match min with
      | O => if Nat.leb j i then None else iterate body greedy k1 fuel 0 j c'
      | S min' => iterate body greedy k1 fuel min' j c'
      end)
    = body i c (fun j c' =>
      match min with
      | O => if Nat.leb j i then None else iterate body greedy k2 fuel 0 j c'
      | S min' => iterate body greedy k2 fuel min' j c'
      end)).
  { apply Hb; [assumption|]. intros j c' Hij Hj.
    destruct min as [|min'].
    - destruct (Nat.leb j i); [reflexivity|].
      apply (IH 0 j c' k1 k2 Hj). intros j' c'' ? ?. apply Hk; lia.
    - apply (IH min' j c' k1 k2 Hj). intros j' c'' ? ?. apply Hk; lia. }
  rewrite Hmore, (Hk i c (Nat.le_refl i) Hi). reflexivity.
Qed.

Lemma m_looksAhead r : looksAhead (m fl input r).
Proof.
  induction r as [| p | | | | a IHa b IHb | a IHa b IHb | a IHa min greedy | a IHa | a IHa];
    intros i c k1 k2 Hi Hk; cbn [m].
  - apply Hk; auto.
  - apply step_looksAhead; auto.
  - apply step_looksAhead; auto.
  - apply step_looksAhead; auto.
  - destruct (Nat.leb (length input) i); [apply Hk; auto|reflexivity].
  - apply IHa; [assumption|]. intros j c' Hij Hj. apply IHb; [assumption|].
    intros j' c'' ? ?. apply Hk; lia.
  - rewrite (IHa i c k1 k2 Hi Hk), (IHb i c k1 k2 Hi Hk). reflexivity.
  - apply (iterate_looksAhead (m fl input a) greedy IHa); assumption.
  - apply IHa; [assumption|]. intros j c' Hij Hj. apply Hk; assumption.
  - destruct (m fl input a i c _) as [[j c']|]; [apply Hk; auto|reflexivity].
Qed.

(** The fuel of a quantifier is enough: with any amount above the
    distance to the end of the input plus the iterations still owed, the
    result is the same. *)
Lemma iterate_fuel body greedy k :
  looksAhead body ->
  forall fuel fuel' min i c, i <= length input ->
    length input - i + min < fuel -> length input - i + min < fuel' ->
    iterate body greedy k fuel min i c = iterate body greedy k fuel' min i c.
Proof.
  intros Hb fuel. induction fuel as [|fuel IH]; intros fuel' min i c Hi Hf Hf'; [lia|].
  destruct fuel' as [|fuel']; [lia|]. simpl.
  assert (Hmore :
    body i c (fun j c' =>
      match min with
      | O => if Nat.leb j i then None else iterate body greedy k fuel 0 j c'
      | S min' => iterate body greedy k fuel min' j c'
      end)
    = body i c (fun j c' =>
      match min with
      | O => if Nat.leb j i then None else iterate body greedy k fuel' 0 j c'
      | S min' => iterate body greedy k fuel' min' j c'
      end)).
  { apply Hb; [assumption|]. intros j c' Hij Hj.
    destruct min as [|min'].
    - destruct (Nat.leb j i) eqn:E; [reflexivity|].
      apply Nat.leb_gt in E. apply IH; auto; lia.
    - apply IH; auto; lia. }
  rewrite Hmore. reflexivity.
Qed.

End MatcherFacts.

(** *** Detection always returns *)

Lemma toolRegex_consuming : consuming toolRegex = true.
Proof. reflexivity. Qed.

Lemma tagLoop_returns content fuel lastIndex toolCalls :
  length content - lastIndex < fuel ->
  exists l, tagLoop content fuel lastIndex toolCalls = Some l.
Proof.
  revert lastIndex toolCalls.
  induction fuel as [|fuel IH]; intros lastIndex toolCalls Hf; [lia|].
  simpl.
  destruct (exec toolRegexFlags content toolRegex lastIndex) as [[[s e] c]|] eqn:E.
  - destruct (exec_bounds _ _ _ _ _ _ _ toolRegex_consuming E) as (? & ? & ?).
    apply IH. lia.
  - eauto.
Qed.

(** More fuel than needed changes nothing. *)
Lemma tagLoop_fuel content fuel fuel' lastIndex toolCalls l :
  tagLoop content fuel lastIndex toolCalls = Some l -> fuel <= fuel' ->
  tagLoop content fuel' lastIndex toolCalls = Some l.
Proof.
  revert fuel' lastIndex toolCalls.
  induction fuel as [|fuel IH]; intros fuel' lastIndex toolCalls H Hle; [discriminate|].
  destruct fuel' as [|fuel']; [lia|]. simpl in *.
  destruct (exec toolRegexFlags content toolRegex lastIndex) as [[[s e] c]|]; auto.
  apply IH; auto; lia.
Qed.

(** [detectToolRequests] returns a list on every text: the loop over the
    structured tags ends within the fuel the model gives it. *)
Theorem detectToolRequests_total availableTools content :
  exists toolCalls,
    detectToolRequestsFuel (S (length content)) availableTools content = Some toolCalls.
Proof.
  unfold detectToolRequestsFuel.
  destruct (tagLoop_returns content (S (length content)) 0 []) as [l Hl]; [lia|].
  rewrite Hl. eauto.
Qed.

(** *** ToolInvoker: one block per call, in call order *)

(** The result splice syntax of the specification. *)
Definition unknownToolBlock (name : str) (registered : list str) : str :=
  lit "[TOOL_ERROR]Unknown tool: " ++ name ++ lit ". Available tools: "
  ++ join (lit ", ") registered ++ lit "[/TOOL_ERROR]".

Definition successBlock (name : str) (payload : JsValue) : str :=
  lit "[TOOL_RESULT:" ++ name ++ lit "]" ++ JSON_stringify payload ++ lit "[/TOOL_RESULT]".

Definition errorBlock (name : str) (e : JsError) : str :=
  lit "[TOOL_ERROR:" ++ name ++ lit "]" ++ errorText e ++ lit "[/TOOL_ERROR]".

Definition withWorld (s : State) (w : World) : State :=
  {| this := this s; arrays := arrays s; world := w; posted := posted s |}.

(** A call whose name is a string, as [interface ToolCall] declares. *)
Definition stringNamed (toolCall : ToolCall) : Prop :=
  exists name, callName toolCall = JString name.

(** What one call does to the world, and the block it yields. *)
Inductive callBlock (registry : ToolMap) : World -> ToolCall -> str -> World -> Prop :=
| block_unknown w name ps :
    Map_get registry name = None ->
    callBlock registry w {| callName := JString name; callParameters := ps |}
      (unknownToolBlock name (Map_keys registry)) w
| block_success w name ps tool payload w' :
    Map_get registry name = Some tool ->
    handler tool ps w = (Returns payload, w') ->
    callBlock registry w {| callName := JString name; callParameters := ps |}
      (successBlock name payload) w'
| block_error w name ps tool e w' :
    Map_get registry name = Some tool ->
    handler tool ps w = (Throws e, w') ->
    callBlock registry w {| callName := JString name; callParameters := ps |}
      (errorBlock name e) w'.

(** The calls run one after the other, each in the world the one before
    left, and the blocks stand in the order of the calls. *)
Inductive chainBlocks (registry : ToolMap)
    : World -> list ToolCall -> list str -> World -> Prop :=
| chain_nil w : chainBlocks registry w [] [] w
| chain_cons w toolCall block w1 rest blocks w2 :
    callBlock registry w toolCall block w1 ->
    chainBlocks registry w1 rest blocks w2 ->
    chainBlocks registry w (toolCall :: rest) (block :: blocks) w2.

Lemma withWorld_same s : withWorld s (world s) = s.
Proof. destruct s; reflexivity. Qed.

Lemma chainBlocks_length registry w toolCalls blocks w' :
  chainBlocks registry w toolCalls blocks w' -> length blocks = length toolCalls.
Proof. induction 1; simpl; congruence. Qed.

Lemma processToolCall_block toolCall s :
  stringNamed toolCall ->
  exists block w',
    processToolCall toolCall s = (Returns block, withWorld s w') /\
    callBlock (tools (this s)) (world s) toolCall block w'.
Proof.
  intros [name Hn]. destruct toolCall as [n ps]. simpl in Hn. subst n.
  unfold processToolCall, bind, gets; simpl.
  destruct (Map_get (tools (this s)) name) as [tool|] eqn:Hget.
  - unfold tryCatch, bind, inWorld, liftC, ret; simpl.
    destruct (handler tool ps (world s)) as [[payload|e] w'] eqn:Hh; simpl.
    + exists (successBlock name payload), w'. split; [reflexivity|].
      eapply block_success; eauto.
    + exists (errorBlock name e), w'. split; [reflexivity|].
      eapply block_error; eauto.
  - unfold liftC, ret; simpl.
    exists (unknownToolBlock name (Map_keys (tools (this s)))), (world s).
    rewrite withWorld_same. split; [reflexivity|].
    apply block_unknown; assumption.
Qed.

Lemma processToolChainFrom_blocks toolCalls :
  Forall stringNamed toolCalls ->
  forall results s,
  exists blocks w',
    processToolChainFrom toolCalls results s = (Returns (results ++ blocks), withWorld s w') /\
    chainBlocks (tools (this s)) (world s) toolCalls blocks w'.
Proof.
  induction 1 as [|toolCall rest Hn _ IH]; intros results s.
  - exists [], (world s). simpl. unfold ret. rewrite app_nil_r, withWorld_same.
    split; [reflexivity|constructor].
  - destruct (processToolCall_block toolCall s Hn) as (block & w1 & Hcall & Hb).
    destruct (IH (push results block) (withWorld s w1)) as (blocks & w2 & Hrest & Hbs).
    exists (block :: blocks), w2.
    simpl. unfold bind. rewrite Hcall, Hrest.
    unfold push. rewrite <- app_assoc. simpl. split; [reflexivity|].
    econstructor; eauto.
Qed.

(** Run on [N] calls whose names are strings, as [interface ToolCall]
    declares them, [processToolChain] returns exactly [N] blocks in call
    order: the block at position [i] is the one call [i] yields in the world the
    calls before it left, a success block when its handler returns, an
    error block when its handler throws (or when its name is unknown), and
    the calls after a failing one still run.  Nothing but the world
    changes. *)
Theorem processToolChain_one_block_per_call toolCalls s :
  Forall stringNamed toolCalls ->
  exists blocks w',
    processToolChain toolCalls s = (Returns blocks, withWorld s w') /\
    length blocks = length toolCalls /\
    chainBlocks (tools (this s)) (world s) toolCalls blocks w'.
Proof.
  intros Hn.
  destruct (processToolChainFrom_blocks toolCalls Hn [] s) as (blocks & w' & Hrun & Hb).
  exists blocks, w'. repeat split; auto.
  eapply chainBlocks_length; eauto.
Qed.

(** A call whose name is a string that no registered tool bears returns
    the block
    [[TOOL_ERROR]Unknown tool: <name>. Available tools: <list>[/TOOL_ERROR]],
    the list being the registered names in the order the registry
    enumerates them, joined by a comma and a space; nothing is thrown and
    the state is left as it was. *)
Theorem processToolCall_unknown_tool name ps s :
  Map_get (tools (this s)) name = None ->
  processToolCall {| callName := JString name; callParameters := ps |} s =
    (Returns (lit "[TOOL_ERROR]Unknown tool: " ++ name ++ lit ". Available tools: "
              ++ join (lit ", ") (map fst (tools (this s))) ++ lit "[/TOOL_ERROR]"), s).
Proof.
  intros Hget. unfold processToolCall, bind, gets; simpl. rewrite Hget.
  reflexivity.
Qed.

(** *** ToolInvoker: a name that does not print

    A call read from a structured tag carries whatever JSON value stood
    under [name].  Its name is printed by a template literal, in the
    unknown-tool branch before anything is returned and in the two other
    branches after the handler ran: the one in the unknown-tool branch is
    outside the [try]. *)

(** An object with an own property [toString] (no function, in JSON) is
    a name that does not print. *)
Lemma ToString_own_toString fields :
  lookupField fields (lit "toString") <> None ->
  ToString (JObject fields) = Throws (TypeError "Cannot convert object to primitive value").
Proof.
  intros H. simpl. destruct (lookupField fields (lit "toString")); [reflexivity|].
  contradiction.
Qed.

Lemma processToolCall_unprintable fields ps s :
  lookupField fields (lit "toString") <> None ->
  processToolCall {| callName := JObject fields; callParameters := ps |} s
  = (Throws (TypeError "Cannot convert object to primitive value"), s).
Proof.
  intros H. unfold processToolCall, bind, gets, liftC. cbn [callName toolsGet].
  rewrite (ToString_own_toString fields H). reflexivity.
Qed.

Lemma processToolChainFrom_aborts fields ps after before :
  lookupField fields (lit "toString") <> None ->
  Forall stringNamed before ->
  forall results s,
  exists blocks w',
    chainBlocks (tools (this s)) (world s) before blocks w' /\
    processToolChainFrom
      (before ++ {| callName := JObject fields; callParameters := ps |} :: after) results s
    = (Throws (TypeError "Cannot convert object to primitive value"), withWorld s w').
Proof.
  intros Hname. induction 1 as [|toolCall rest Hn _ IH]; intros results s.
  - exists [], (world s). split; [constructor|].
    cbn [app processToolChainFrom]. unfold bind.
    rewrite (processToolCall_unprintable fields ps s Hname), withWorld_same. reflexivity.
  - destruct (processToolCall_block toolCall s Hn) as (block & w1 & Hcall & Hb).
    destruct (IH (push results block) (withWorld s w1)) as (blocks & w2 & Hbs & Hrest).
    exists (block :: blocks), w2. split; [econstructor; eauto|].
    cbn [app processToolChainFrom]. unfold bind. rewrite Hcall. exact Hrest.
Qed.

(** C6 on the code.  A failure in one call can abort the chain.  When a
    call's name is an object with an own property [toString], as the
    detector hands it over from a tag that holds such a name, the
    template literal of the unknown-tool branch throws a [TypeError]
    outside the [try]: [processToolChain] throws, the blocks of the calls
    before it are lost, and the calls after it never run (the world is
    the one the calls before it left). *)
Theorem processToolChain_aborts_on_object_name before fields ps after s :
  Forall stringNamed before ->
  lookupField fields (lit "toString") <> None ->
  exists e blocks w',
    processToolChain
      (before ++ {| callName := JObject fields; callParameters := ps |} :: after) s
    = (Throws e, withWorld s w') /\
    errorName e = lit "TypeError" /\
    chainBlocks (tools (this s)) (world s) before blocks w' /\
    length blocks = length before.
Proof.
  intros Hbefore Hname.
  destruct (processToolChainFrom_aborts fields ps after before Hname Hbefore [] s)
    as (blocks & w' & Hblocks & Hrun).
  eexists. exists blocks, w'. split; [exact Hrun|]. split; [reflexivity|].
  split; [exact Hblocks|]. eapply chainBlocks_length; eauto.
Qed.

(** C7 on the code.  A call whose name is in no registry can raise.  A
    name no tool is registered under gives the unknown-tool block when it
    prints, with the names of the registry in enumeration order, and the
    state is left as it was; but when the name is an object with an own
    property [toString], printing it throws a [TypeError] and the call
    throws, no block is returned. *)
Theorem processToolCall_unknown_name_can_throw toolCall s :
  toolsGet (tools (this s)) (callName toolCall) = None ->
  processToolCall toolCall s
  = match ToString (callName toolCall) with
    | Returns name =>
        (Returns (lit "[TOOL_ERROR]Unknown tool: " ++ name ++ lit ". Available tools: "
                  ++ join (lit ", ") (Map_keys (tools (this s))) ++ lit "[/TOOL_ERROR]"), s)
    | Throws e => (Throws e, s)
    end /\
  (forall fields,
     callName toolCall = JObject fields ->
     lookupField fields (lit "toString") <> None ->
     exists e, processToolCall toolCall s = (Throws e, s) /\ errorName e = lit "TypeError").
Proof.
  intros Hget.
  assert (Hrun : processToolCall toolCall s
                 = match ToString (callName toolCall) with
                   | Returns name =>
                       (Returns (lit "[TOOL_ERROR]Unknown tool: " ++ name
                                 ++ lit ". Available tools: "
                                 ++ join (lit ", ") (Map_keys (tools (this s)))
                                 ++ lit "[/TOOL_ERROR]"), s)
                   | Throws e => (Throws e, s)
                   end).
  { unfold processToolCall, bind, gets, liftC, ret. cbn [fst snd]. rewrite Hget.
    destruct (ToString (callName toolCall)); reflexivity. }
  split; [exact Hrun|].
  intros fields Hname Hown. rewrite Hrun, Hname, (ToString_own_toString fields Hown).
  eexists. split; reflexivity.
Qed.

(** *** ConversationDriver: what a completion call leaves behind *)

Lemma processToolCall_frame toolCall s :
  exists w', snd (processToolCall toolCall s) = withWorld s w'.
Proof.
  unfold processToolCall, bind, gets; simpl.
  destruct (toolsGet (tools (this s)) (callName toolCall)) as [tool|].
  - unfold tryCatch, bind, inWorld, liftC, ret; simpl.
    destruct (handler tool (callParameters toolCall) (world s)) as [[payload|e] w'];
      simpl; destruct (ToString (callName toolCall)); simpl; exists w'; reflexivity.
  - unfold liftC, ret; simpl.
    destruct (ToString (callName toolCall)); simpl;
      exists (world s); rewrite withWorld_same; reflexivity.
Qed.

Lemma processToolChainFrom_frame toolCalls :
  forall results s,
  exists w', snd (processToolChainFrom toolCalls results s) = withWorld s w'.
Proof.
  induction toolCalls as [|toolCall rest IH]; intros results s; simpl.
  - exists (world s). rewrite withWorld_same. reflexivity.
  - unfold bind.
    destruct (processToolCall_frame toolCall s) as [w1 H1].
    destruct (processToolCall toolCall s) as [[block|e] s1]; simpl in H1; subst s1.
    + destruct (IH (push results block) (withWorld s w1)) as [w2 H2].
      exists w2. rewrite H2. reflexivity.
    + exists w1. reflexivity.
Qed.



Definition withArray (s : State) (a : list ChatMessage) : State :=
  {| this := this s; arrays := arrays s ++ [a]; world := world s; posted := posted s |}.

Definition withPosted (s : State) (req : ChatCompletionRequest) (w : World) : State :=
  {| this := this s; arrays := arrays s; world := w; posted := posted s ++ [req] |}.

(** The request [chatCompletion] posts for the messages [body]. *)
Definition requestFor (s : State) (body : list ChatMessage) (model : str)
    (temperature : spec_float) (maxTokens : Z) : ChatCompletionRequest :=
  {| url := baseUrl (this s) ++ lit "/v1/chat/completions"; messages := body;
     model := model; temperature := temperature; max_tokens := maxTokens;
     stream := false |}.

(** What [chatCompletion] makes of the backend's answer. *)
Definition answer (r : Completion ChatCompletionResponse) : Completion str :=
  match r with
  | Throws e => Throws e
  | Returns response =>
      match choices response with
      | first :: _ => Returns (cleanUp (messageContent first))
      | [] => Throws (TypeError "Cannot read properties of undefined (reading 'message')")
      end
  end.

Definition postAndAnswer (s : State) (body : list ChatMessage) (model : str)
    (temperature : spec_float) (maxTokens : Z) : Completion str * State :=
  let req := requestFor s body model temperature maxTokens in
  (answer (fst (axios_post req (world s))), withPosted s req (snd (axios_post req (world s)))).

Lemma nth_fresh {A : Type} (l : list A) (a d : A) : nth (length l) (l ++ [a]) d = a.
Proof. rewrite app_nth2, Nat.sub_diag; auto. Qed.

Lemma post_answer s body model temperature maxTokens :
  bind (post (requestFor s body model temperature maxTokens))
    (fun response =>
       match choices response with
       | first :: _ => ret (cleanUp (messageContent first))
       | [] => throw (TypeError "Cannot read properties of undefined (reading 'message')")
       end) s
  = postAndAnswer s body model temperature maxTokens.
Proof.
  unfold bind, post, inWorld, postAndAnswer, withPosted, answer, ret, throw; simpl.
  destruct (axios_post _ (world s)) as [[response|e] w]; simpl; auto.
  destruct (choices response); reflexivity.
Qed.

(** The four ways through [chatCompletion]. *)
Lemma chatCompletion_empty messages model temperature maxTokens s :
  nth messages (arrays s) [] = [] ->
  chatCompletion messages model temperature maxTokens s =
    (Throws (TypeError "Cannot read properties of undefined (reading 'content')"), s).
Proof.
  intros H. unfold chatCompletion, bind, readArray, gets, throw; simpl.
  rewrite H. reflexivity.
Qed.

Lemma chatCompletion_no_tools messages model temperature maxTokens s elements lastMessage :
  nth messages (arrays s) [] = elements ++ [lastMessage] ->
  detectToolRequests (this s) (content lastMessage) = [] ->
  chatCompletion messages model temperature maxTokens s =
    postAndAnswer s (elements ++ [lastMessage]) model temperature maxTokens.
Proof.
  intros H Hd. rewrite <- post_answer.
  unfold chatCompletion at 1. unfold bind at 1 2 3 4 5 6.
  unfold readArray, gets, ret; simpl.
  rewrite H, rev_app_distr; simpl. rewrite Hd; simpl. rewrite H. reflexivity.
Qed.

Lemma chatCompletion_with_tools messages model temperature maxTokens s elements
    lastMessage toolCall toolCalls results s1 :
  nth messages (arrays s) [] = elements ++ [lastMessage] ->
  detectToolRequests (this s) (content lastMessage) = toolCall :: toolCalls ->
  processToolChain (toolCall :: toolCalls) s = (Returns results, s1) ->
  chatCompletion messages model temperature maxTokens s =
    let body := (elements ++ [lastMessage]) ++ [toolResultsMessage results] in
    postAndAnswer (withArray s1 body) body model temperature maxTokens.
Proof.
  intros H Hd Hc. cbv zeta. rewrite <- post_answer.
  unfold chatCompletion at 1. unfold bind at 1 2 3 4 5 6 7.
  unfold readArray, gets, ret; simpl.
  rewrite H, rev_app_distr; simpl. rewrite Hd; simpl.
  unfold bind at 1. rewrite Hc. unfold newArray; simpl.
  rewrite nth_fresh. reflexivity.
Qed.

Lemma chatCompletion_chain_throws messages model temperature maxTokens s elements
    lastMessage toolCall toolCalls e s1 :
  nth messages (arrays s) [] = elements ++ [lastMessage] ->
  detectToolRequests (this s) (content lastMessage) = toolCall :: toolCalls ->
  processToolChain (toolCall :: toolCalls) s = (Throws e, s1) ->
  chatCompletion messages model temperature maxTokens s = (Throws e, s1).
Proof.
  intros H Hd Hc.
  unfold chatCompletion at 1. unfold bind at 1 2 3 4.
  unfold readArray, gets, ret; simpl.
  rewrite H, rev_app_distr; simpl. rewrite Hd; simpl.
  unfold bind at 1. rewrite Hc. reflexivity.
Qed.


Lemma nonempty_last {A : Type} (l : list A) :
  l = [] \/ exists front x, l = front ++ [x].
Proof.
  destruct l as [|a l]; [left; reflexivity|right].
  destruct (@exists_last _ (a :: l)) as (front & x & H); [discriminate|eauto].
Qed.

(** Every way through [chatCompletion] leaves [this] as it was, keeps
    every array that was alive with its elements, and posts at most one
    request. *)
Lemma chatCompletion_frame messages model temperature maxTokens s :
  let s' := snd (chatCompletion messages model temperature maxTokens s) in
  this s' = this s /\
  (exists fresh, arrays s' = arrays s ++ fresh) /\
  (posted s' = posted s \/ exists req, posted s' = posted s ++ [req]).
Proof.
  cbv zeta.
  destruct (nonempty_last (nth messages (arrays s) [])) as [Hnil|(elements & lastMessage & Hl)].
  - rewrite chatCompletion_empty by assumption. simpl.
    repeat split; auto. exists []. rewrite app_nil_r. reflexivity.
  - destruct (detectToolRequests (this s) (content lastMessage)) as [|toolCall toolCalls] eqn:Hd.
    + rewrite (chatCompletion_no_tools _ _ _ _ _ _ _ Hl Hd). simpl.
      repeat split; eauto. exists []. rewrite app_nil_r. reflexivity.
    + destruct (processToolChainFrom_frame (toolCall :: toolCalls) [] s) as [w Hw].
      fold (processToolChain (toolCall :: toolCalls)) in Hw.
      destruct (processToolChain (toolCall :: toolCalls) s) as [[results|e] s1] eqn:Hc;
        simpl in Hw; subst s1.
      * rewrite (chatCompletion_with_tools _ _ _ _ _ _ _ _ _ _ _ Hl Hd Hc). simpl.
        repeat split; eauto.
      * rewrite (chatCompletion_chain_throws _ _ _ _ _ _ _ _ _ _ _ Hl Hd Hc). simpl.
        repeat split; auto. exists []. rewrite app_nil_r. reflexivity.
Qed.

(** A completion call that returns has posted exactly one request. *)
Lemma chatCompletion_returns_posts messages model temperature maxTokens s r s' :
  chatCompletion messages model temperature maxTokens s = (Returns r, s') ->
  exists req, posted s' = posted s ++ [req].
Proof.
  destruct (nonempty_last (nth messages (arrays s) [])) as [Hnil|(elements & lastMessage & Hl)].
  - rewrite chatCompletion_empty by assumption. discriminate.
  - destruct (detectToolRequests (this s) (content lastMessage)) as [|toolCall toolCalls] eqn:Hd.
    + rewrite (chatCompletion_no_tools _ _ _ _ _ _ _ Hl Hd).
      unfold postAndAnswer. intros H. inversion H; subst. simpl. eauto.
    + destruct (processToolChainFrom_frame (toolCall :: toolCalls) [] s) as [w Hw].
      fold (processToolChain (toolCall :: toolCalls)) in Hw.
      destruct (processToolChain (toolCall :: toolCalls) s) as [[results|e] s1] eqn:Hc;
        simpl in Hw; subst s1.
      * rewrite (chatCompletion_with_tools _ _ _ _ _ _ _ _ _ _ _ Hl Hd Hc).
        unfold postAndAnswer. intros H. inversion H; subst. simpl. eauto.
      * rewrite (chatCompletion_chain_throws _ _ _ _ _ _ _ _ _ _ _ Hl Hd Hc). discriminate.
Qed.

(** C8, as the code has it.  When the last message of the history holds
    at least one tool request and the chain of calls returns, the request
    posted to the backend carries the history followed by exactly one more
    message, of role [system], whose content is the text [Tool results: ]
    followed by the result blocks joined by newlines. *)
Theorem chatCompletion_appends_tool_results ref model temperature maxTokens s
    elements lastMessage results s1 :
  nth ref (arrays s) [] = elements ++ [lastMessage] ->
  detectToolRequests (this s) (content lastMessage) <> [] ->
  processToolChain (detectToolRequests (this s) (content lastMessage)) s
    = (Returns results, s1) ->
  exists req,
    posted (snd (chatCompletion ref model temperature maxTokens s))
      = posted s ++ [req] /\
    messages req
      = (elements ++ [lastMessage])
        ++ [ {| role := system;
                content := lit "Tool results: " ++ join [10%N] results |} ].
Proof.
  intros Hl Hd Hc.
  destruct (detectToolRequests (this s) (content lastMessage)) as [|toolCall toolCalls] eqn:E;
    [congruence|].
  rewrite (chatCompletion_with_tools _ _ _ _ _ _ _ _ _ _ _ Hl E Hc).
  destruct (processToolChainFrom_frame (toolCall :: toolCalls) [] s) as [w Hw].
  fold (processToolChain (toolCall :: toolCalls)) in Hw. rewrite Hc in Hw.
  simpl in Hw. subst s1. simpl.
  eexists. split; reflexivity.
Qed.

(** C10.  Whatever a completion call does, every array of messages that
    was alive before it, the caller's among them, holds the same messages
    after it: the tool results go into a new array. *)
Theorem chatCompletion_keeps_callers_list ref model temperature maxTokens s
    (caller : nat) (history : list ChatMessage) :
  nth_error (arrays s) caller = Some history ->
  nth_error (arrays (snd (chatCompletion ref model temperature maxTokens s))) caller
    = Some history.
Proof.
  intros H.
  destruct (chatCompletion_frame ref model temperature maxTokens s) as (_ & (fresh & Hf) & _).
  rewrite Hf, nth_error_app1; auto.
  apply nth_error_Some. congruence.
Qed.

(** *** AgenticLoop *)

Definition withAgentic (s : State) (a : option AgenticState) : State :=
  {| this := {| baseUrl := baseUrl (this s); defaultModel := defaultModel (this s);
                tools := tools (this s); agenticState := a |};
     arrays := arrays s; world := world s; posted := posted s |}.

(** The state after [this.agenticState.currentTurn++]. *)
Definition nextTurn (s : State) : State :=
  withAgentic s (option_map incrementTurn (agenticState (this s))).

(** A text holds a completion phrase when, lowered, it has one of the
    five phrases as a substring. *)
Definition holdsCompletionPhrase (response : str) : Prop :=
  exists phrase before after,
    In phrase completionIndicators /\
    toLowerCase response = before ++ phrase ++ after.

Lemma startsWith_spec p : forall s,
  startsWith p s = true <-> exists rest, s = p ++ rest.
Proof.
  induction p as [|a p IH]; intros s; simpl.
  - split; eauto.
  - destruct s as [|b s].
    + split; [discriminate|intros [rest H]; discriminate].
    + rewrite andb_true_iff, N.eqb_eq, IH. split.
      * intros [-> [rest ->]]. eauto.
      * intros [rest H]. inversion H; subst. eauto.
Qed.

Lemma includes_spec p : forall s,
  includes s p = true <-> exists before after, s = before ++ p ++ after.
Proof.
  induction s as [|c s IH].
  - simpl. rewrite orb_false_r, startsWith_spec. split.
    + intros [rest H]. exists [], rest. exact H.
    + intros (before & after & H). destruct before; [eauto|discriminate].
  - cbn [includes]. rewrite orb_true_iff, startsWith_spec, IH. split.
    + intros [[rest H]|(before & after & H)].
      * exists [], rest. exact H.
      * exists (c :: before), after. rewrite H. reflexivity.
    + intros (before & after & H). destruct before as [|b before].
      * left. eauto.
      * right. inversion H; subst. eauto.
Qed.

(** [isTaskComplete] decides [holdsCompletionPhrase]. *)
Lemma isTaskComplete_spec response :
  isTaskComplete response = true <-> holdsCompletionPhrase response.
Proof.
  unfold isTaskComplete, holdsCompletionPhrase. rewrite existsb_exists. split.
  - intros (phrase & Hin & H). apply includes_spec in H.
    destruct H as (before & after & H). eauto 6.
  - intros (phrase & before & after & Hin & H). exists phrase. split; auto.
    apply includes_spec. eauto.
Qed.

Lemma isTaskComplete_false response :
  ~ holdsCompletionPhrase response -> isTaskComplete response = false.
Proof.
  intros H. destruct (isTaskComplete response) eqn:E; auto.
  apply isTaskComplete_spec in E. contradiction.
Qed.

(** [quietTurns s context responses s' context']: from the state [s] and
    the accumulated [context], as many turns as [responses] has elements
    run one after the other; each completion call returns, none of the
    texts returned holds a completion phrase, and the run leaves the state
    [s'] and the context [context']. *)
Inductive quietTurns : State -> str -> list str -> State -> str -> Prop :=
| quiet_none s context : quietTurns s context [] s context
| quiet_turn s context response s1 responses s2 context2 :
    turn context s = (Returns response, s1) ->
    ~ holdsCompletionPhrase response ->
    quietTurns (nextTurn s1) (previousResponse context response) responses s2 context2 ->
    quietTurns s context (response :: responses) s2 context2.

Lemma setAgenticState_run a s : setAgenticState a s = (Returns tt, withAgentic s a).
Proof. reflexivity. Qed.

Lemma getAgenticState_run a s :
  agenticState (this s) = Some a -> getAgenticState s = (Returns a, s).
Proof.
  intros H. unfold getAgenticState, bind, gets; simpl. rewrite H. reflexivity.
Qed.

Lemma turn_frame context s :
  let s' := snd (turn context s) in
  this s' = this s /\
  (posted s' = posted s \/ exists req, posted s' = posted s ++ [req]).
Proof.
  cbv zeta. unfold turn, bind, gets, newArray; simpl.
  match goal with |- context [chatCompletion ?r ?mo ?t ?mt ?st] =>
    destruct (chatCompletion_frame r mo t mt st) as (Ht & _ & Hp) end.
  simpl in Ht, Hp. split; assumption.
Qed.

Lemma turn_returns_posts context s response s' :
  turn context s = (Returns response, s') ->
  this s' = this s /\ exists req, posted s' = posted s ++ [req].
Proof.
  intros H. pose proof (turn_frame context s) as F. rewrite H in F. simpl in F.
  split; [apply F|].
  unfold turn, bind, gets, newArray in H; simpl in H.
  apply chatCompletion_returns_posts in H. exact H.
Qed.

(** One round of the loop, when the state says the budget is not spent. *)
Lemma agenticLoop_step fuel context finalResponse s a :
  agenticState (this s) = Some a ->
  (currentTurn a < maxTurns a)%Z ->
  agenticLoop (S fuel) context finalResponse s =
    match turn context s with
    | (Throws e, s1) => (Throws e, s1)
    | (Returns response, s1) =>
        if isTaskComplete response then (Returns (Some (Completed, response)), s1)
        else agenticLoop fuel (previousResponse context response)
               (if Z.leb (maxTurns a) (currentTurn a + 1) then response else finalResponse)
               (nextTurn s1)
    end.
Proof.
  intros Ha Hlt. cbn [agenticLoop]. unfold bind at 1.
  rewrite (getAgenticState_run _ _ Ha).
  apply Z.ltb_lt in Hlt. rewrite Hlt. unfold bind at 1.
  pose proof (turn_frame context s) as [Ht _].
  destruct (turn context s) as [[response|e] s1]; [|reflexivity].
  simpl in Ht. destruct (isTaskComplete response); [reflexivity|].
  assert (Ha1 : agenticState (this s1) = Some a) by congruence.
  unfold bind at 1. rewrite (getAgenticState_run _ _ Ha1).
  unfold bind at 1. rewrite setAgenticState_run.
  unfold bind at 1.
  rewrite (getAgenticState_run (incrementTurn a) (withAgentic s1 (Some (incrementTurn a))))
    by reflexivity.
  unfold nextTurn. rewrite Ha1. reflexivity.
Qed.

Lemma agenticLoop_done fuel context finalResponse s a :
  agenticState (this s) = Some a ->
  (maxTurns a <= currentTurn a)%Z ->
  agenticLoop fuel context finalResponse s =
    (Returns (Some (BudgetExhausted, finalResponse)), s).
Proof.
  intros Ha Hge.
  assert (Hlt : Z.ltb (currentTurn a) (maxTurns a) = false) by (apply Z.ltb_ge; lia).
  destruct fuel; cbn [agenticLoop]; unfold bind at 1;
    rewrite (getAgenticState_run _ _ Ha), Hlt; reflexivity.
Qed.

Lemma nextTurn_state s a :
  agenticState (this s) = Some a ->
  agenticState (this (nextTurn s)) = Some (incrementTurn a).
Proof. intros H. unfold nextTurn. rewrite H. reflexivity. Qed.

Lemma quietTurns_posted s context responses s' context' :
  quietTurns s context responses s' context' ->
  length (posted s') = length (posted s) + length responses.
Proof.
  induction 1 as [|s context response s1 responses s2 context2 Ht _ _ IH]; [simpl; lia|].
  destruct (turn_returns_posts _ _ _ _ Ht) as (_ & req & Hp).
  rewrite IH. simpl. rewrite Hp, length_app. simpl. lia.
Qed.

Lemma last_default {A : Type} (l : list A) (x d d' : A) :
  last (x :: l) d = last (x :: l) d'.
Proof.
  revert x. induction l as [|y l IH]; intros x; [reflexivity|].
  change (last (y :: l) d = last (y :: l) d'). apply IH.
Qed.

(** The loop through a run of quiet turns that spends the budget. *)
Lemma agenticLoop_quiet responses :
  forall fuel context finalResponse s a s' context',
  agenticState (this s) = Some a ->
  (maxTurns a - currentTurn a = Z.of_nat (length responses))%Z ->
  length responses <= fuel ->
  quietTurns s context responses s' context' ->
  agenticLoop fuel context finalResponse s =
    (Returns (Some (BudgetExhausted, last responses finalResponse)), s').
Proof.
  induction responses as [|response responses IH];
    intros fuel context finalResponse s a s' context' Ha Hn Hf Hq.
  - inversion Hq; subst. apply agenticLoop_done with a; auto. simpl in Hn. lia.
  - inversion Hq as [|? ? ? s1 ? ? ? Ht Hc Hrest]; subst.
    destruct fuel as [|fuel]; [simpl in Hf; lia|].
    simpl length in Hn.
    rewrite (agenticLoop_step _ _ _ _ _ Ha) by lia.
    rewrite Ht, (isTaskComplete_false _ Hc).
    destruct (turn_returns_posts _ _ _ _ Ht) as (Hthis & _).
    assert (Ha1 : agenticState (this s1) = Some a) by congruence.
    rewrite (IH fuel _ _ _ (incrementTurn a) s' context' (nextTurn_state _ _ Ha1)); auto.
    + destruct responses as [|r2 rest].
      * simpl. replace (Z.leb (maxTurns a) (currentTurn a + 1)) with true; auto.
        symmetry. apply Z.leb_le. simpl in Hn. lia.
      * change (last (response :: r2 :: rest) finalResponse)
          with (last (r2 :: rest) finalResponse).
        do 4 f_equal. apply last_default.
    + simpl. lia.
    + simpl in Hf. lia.
Qed.

(** The loop through quiet turns up to a turn whose text holds a
    completion phrase. *)
Lemma agenticLoop_completes responses :
  forall fuel context finalResponse s a s1 context1 response s2,
  agenticState (this s) = Some a ->
  (Z.of_nat (length responses) < maxTurns a - currentTurn a)%Z ->
  length responses < fuel ->
  quietTurns s context responses s1 context1 ->
  turn context1 s1 = (Returns response, s2) ->
  holdsCompletionPhrase response ->
  agenticLoop fuel context finalResponse s = (Returns (Some (Completed, response)), s2).
Proof.
  induction responses as [|quiet responses IH];
    intros fuel context finalResponse s a s1 context1 response s2 Ha Hn Hf Hq Ht Hp;
    (destruct fuel as [|fuel]; [simpl in Hf; lia|]).
  - inversion Hq; subst. simpl in Hn.
    rewrite (agenticLoop_step _ _ _ _ _ Ha) by lia.
    rewrite Ht. apply isTaskComplete_spec in Hp. rewrite Hp. reflexivity.
  - inversion Hq as [|? ? ? s0 ? ? ? Hturn Hc Hrest]; subst.
    simpl length in Hn.
    rewrite (agenticLoop_step _ _ _ _ _ Ha) by lia.
    rewrite Hturn, (isTaskComplete_false _ Hc).
    destruct (turn_returns_posts _ _ _ _ Hturn) as (Hthis & _).
    assert (Ha0 : agenticState (this s0) = Some a) by congruence.
    apply (IH fuel _ _ _ (incrementTurn a) s1 context1 response s2
             (nextTurn_state _ _ Ha0)); auto.
    + simpl. lia.
    + simpl in Hf. lia.
Qed.

(** The fuel the loop is given is never spent. *)
Lemma agenticLoop_fuel fuel :
  forall context finalResponse s,
  (forall a, agenticState (this s) = Some a ->
             (maxTurns a - currentTurn a <= Z.of_nat fuel)%Z) ->
  fst (agenticLoop fuel context finalResponse s) <> Returns None.
Proof.
  induction fuel as [|fuel IH]; intros context finalResponse s Hb.
  - destruct (agenticState (this s)) as [a|] eqn:Ha.
    + rewrite (agenticLoop_done 0 context finalResponse s a Ha); [discriminate|].
      specialize (Hb a eq_refl). simpl in Hb. lia.
    + cbn [agenticLoop]. unfold bind at 1, getAgenticState, bind, gets; simpl.
      rewrite Ha. simpl. discriminate.
  - destruct (agenticState (this s)) as [a|] eqn:Ha.
    + destruct (Z.lt_ge_cases (currentTurn a) (maxTurns a)) as [Hlt|Hge].
      * rewrite (agenticLoop_step fuel context finalResponse s a Ha Hlt).
        pose proof (turn_frame context s) as [Ht _].
        destruct (turn context s) as [[response|e] s1]; [|discriminate].
        simpl in Ht. destruct (isTaskComplete response); [discriminate|].
        apply IH. intros a' Ha'.
        assert (Ha1 : agenticState (this s1) = Some a) by congruence.
        rewrite (nextTurn_state _ _ Ha1) in Ha'. inversion Ha'; subst. simpl.
        specialize (Hb a eq_refl). lia.
      * rewrite (agenticLoop_done (S fuel) context finalResponse s a Ha Hge). discriminate.
    + cbn [agenticLoop]. unfold bind at 1, getAgenticState, bind, gets; simpl.
      rewrite Ha. simpl. discriminate.
Qed.

Lemma executeAgenticTask_run userInput maxTurns s :
  executeAgenticTask userInput maxTurns s =
    match agenticLoop (Z.to_nat maxTurns) userInput []
            (withAgentic s (Some (initialState userInput maxTurns))) with
    | (Returns r, s') => (Returns (option_map snd r), withAgentic s' None)
    | (Throws e, s') => (Throws e, s')
    end.
Proof.
  unfold executeAgenticTask. unfold bind at 1. rewrite setAgenticState_run.
  unfold bind at 1.
  destruct (agenticLoop _ _ _ _) as [[r|e] s']; reflexivity.
Qed.

(** [executeAgenticTask] terminates: whatever the backend and the tools
    do, the loop is over before its [maxTurns] units of fuel are spent. *)
Theorem executeAgenticTask_total userInput maxTurns s :
  fst (executeAgenticTask userInput maxTurns s) <> Returns None.
Proof.
  rewrite executeAgenticTask_run.
  pose proof (agenticLoop_fuel (Z.to_nat maxTurns) userInput []
                (withAgentic s (Some (initialState userInput maxTurns)))) as H.
  destruct (agenticLoop _ _ _ _) as [[[r|]|e] s']; simpl in *; try discriminate.
  exfalso. apply H; auto.
  intros a Ha. inversion Ha; subst. simpl. lia.
Qed.

Lemma last_nth {A : Type} (l : list A) (d : A) : last l d = nth (length l - 1) l d.
Proof.
  induction l as [|x l IH]; [reflexivity|].
  destruct l as [|y l]; [reflexivity|].
  change (last (y :: l) d = nth (length (y :: l)) (x :: y :: l) d).
  rewrite IH. simpl. rewrite Nat.sub_0_r. reflexivity.
Qed.

(** C4.  With a budget of [maxTurns >= 1] turns, when each of the
    [maxTurns] completion calls returns a text that holds no completion
    phrase, the loop is left because the budget is spent
    ([BudgetExhausted]), [executeAgenticTask] returns the text of turn
    [maxTurns], and exactly [maxTurns] requests were posted to the
    backend. *)
Theorem executeAgenticTask_budget_exhausted userInput maxTurns s responses s' context' :
  (1 <= maxTurns)%Z ->
  Z.of_nat (length responses) = maxTurns ->
  quietTurns (withAgentic s (Some (initialState userInput maxTurns))) userInput
    responses s' context' ->
  agenticLoop (Z.to_nat maxTurns) userInput []
    (withAgentic s (Some (initialState userInput maxTurns)))
    = (Returns (Some (BudgetExhausted, nth (Z.to_nat maxTurns - 1) responses [])), s') /\
  executeAgenticTask userInput maxTurns s
    = (Returns (Some (nth (Z.to_nat maxTurns - 1) responses [])), withAgentic s' None) /\
  length (posted s') = length (posted s) + Z.to_nat maxTurns.
Proof.
  intros Hn Hlen Hq.
  assert (Hloop : agenticLoop (Z.to_nat maxTurns) userInput []
            (withAgentic s (Some (initialState userInput maxTurns)))
          = (Returns (Some (BudgetExhausted, last responses [])), s')).
  { apply agenticLoop_quiet with (a := initialState userInput maxTurns)
                                 (context' := context'); auto.
    - simpl. lia.
    - lia. }
  assert (Hlast : last responses [] = nth (Z.to_nat maxTurns - 1) responses []).
  { rewrite last_nth. f_equal. lia. }
  rewrite <- Hlast. split; [exact Hloop|]. split.
  - rewrite executeAgenticTask_run, Hloop. reflexivity.
  - rewrite (quietTurns_posted _ _ _ _ _ Hq). simpl. lia.
Qed.

(** C5.  When the completion calls of the turns before turn [i] return
    texts that hold no completion phrase and the call of turn [i], within
    the budget, returns a text that holds one of the five phrases in any
    letter case, the loop is left by its [break] ([Completed]),
    [executeAgenticTask] returns the text of turn [i], and exactly [i]
    requests were posted to the backend.  Here [i] is
    [length before + 1]. *)
Theorem executeAgenticTask_completed userInput maxTurns s before s1 context1 response s2 :
  quietTurns (withAgentic s (Some (initialState userInput maxTurns))) userInput
    before s1 context1 ->
  (Z.of_nat (length before) < maxTurns)%Z ->
  turn context1 s1 = (Returns response, s2) ->
  holdsCompletionPhrase response ->
  agenticLoop (Z.to_nat maxTurns) userInput []
    (withAgentic s (Some (initialState userInput maxTurns)))
    = (Returns (Some (Completed, response)), s2) /\
  executeAgenticTask userInput maxTurns s
    = (Returns (Some response), withAgentic s2 None) /\
  length (posted s2) = length (posted s) + (length before + 1).
Proof.
  intros Hq Hn Ht Hp.
  assert (Hloop : agenticLoop (Z.to_nat maxTurns) userInput []
            (withAgentic s (Some (initialState userInput maxTurns)))
          = (Returns (Some (Completed, response)), s2)).
  { apply agenticLoop_completes with (responses := before)
      (a := initialState userInput maxTurns) (s1 := s1) (context1 := context1); auto.
    - simpl. lia.
    - lia. }
  split; [exact Hloop|]. split.
  - rewrite executeAgenticTask_run, Hloop. reflexivity.
  - destruct (turn_returns_posts _ _ _ _ Ht) as (_ & req & Hpost).
    rewrite Hpost, length_app, (quietTurns_posted _ _ _ _ _ Hq). simpl. lia.
Qed.

(** C9.  With [maxTurns <= 0] the body of the loop never runs: no request
    is posted, no array is made, the world is untouched, and the empty
    text is returned, whatever the backend would have answered. *)
Theorem executeAgenticTask_no_budget userInput maxTurns s :
  (maxTurns <= 0)%Z ->
  executeAgenticTask userInput maxTurns s = (Returns (Some []), withAgentic s None) /\
  posted (snd (executeAgenticTask userInput maxTurns s)) = posted s.
Proof.
  intros Hle. rewrite executeAgenticTask_run.
  rewrite (agenticLoop_done _ _ _ _ (initialState userInput maxTurns)); simpl; auto.
Qed.

(** *** RequestDetector: the order of the candidates *)

Definition optList {A : Type} (o : option A) : list A :=
  match o with
  | Some a => [a]
  | None => []
  end.

(** The successive matches of the structured-tag pattern, as the loop
    meets them. *)
Fixpoint tagSpans (content : str) (fuel lastIndex : nat) : list (nat * nat * capture) :=
  match fuel with
  | O => []
  | S fuel' =>
      match exec toolRegexFlags content toolRegex lastIndex with
      | None => []
      | Some (s, e, c) => (s, e, c) :: tagSpans content fuel' e
      end
  end.

(** The calls read from the structured tags: a span whose text does not
    parse, or whose object lacks a truthy name or truthy parameters, gives
    none. *)
Definition tagCalls (content : str) : list ToolCall :=
  flat_map (fun span => optList (parseToolCall (group1 content (snd span))))
    (tagSpans content (S (length content)) 0).

(** What one tool contributes: its natural-language match, then its
    slash-command match. *)
Definition toolMatches (content toolName : str) : list ToolCall :=
  optList (firstMatch (usePattern toolName) toolName content)
  ++ optList (firstMatch (slashPattern toolName) toolName content).

(** Spans that follow one another in the text: each starts where the one
    before ended, or later, and none is empty. *)
Fixpoint inOrder (from : nat) (spans : list (nat * nat * capture)) : Prop :=
  match spans with
  | [] => True
  | (s, e, _) :: rest => from <= s /\ s < e /\ inOrder e rest
  end.

(** The order as the specification words it: the tag matches, then the
    natural-language matches of every tool, then the slash-command matches
    of every tool. *)
Definition specifiedOrder (api : LMStudioAPI) (content : str) : list ToolCall :=
  tagCalls content
  ++ flat_map (fun toolName => optList (firstMatch (usePattern toolName) toolName content))
       (Map_keys (tools api))
  ++ flat_map (fun toolName => optList (firstMatch (slashPattern toolName) toolName content))
       (Map_keys (tools api)).

Lemma pushIfSome_app {A : Type} (l : list A) (o : option A) :
  pushIfSome l o = l ++ optList o.
Proof. destruct o; simpl; [reflexivity|rewrite app_nil_r; reflexivity]. Qed.

Lemma tagLoop_spans content fuel :
  forall lastIndex toolCalls l,
  tagLoop content fuel lastIndex toolCalls = Some l ->
  l = toolCalls
      ++ flat_map (fun span => optList (parseToolCall (group1 content (snd span))))
           (tagSpans content fuel lastIndex).
Proof.
  induction fuel as [|fuel IH]; intros lastIndex toolCalls l H; [discriminate|].
  simpl in *.
  destruct (exec toolRegexFlags content toolRegex lastIndex) as [[[s e] c]|].
  - apply IH in H. rewrite H, pushIfSome_app, <- app_assoc. reflexivity.
  - inversion H. simpl. rewrite app_nil_r. reflexivity.
Qed.

Lemma tagSpans_inOrder content fuel :
  forall lastIndex, inOrder lastIndex (tagSpans content fuel lastIndex).
Proof.
  induction fuel as [|fuel IH]; intros lastIndex; simpl; auto.
  destruct (exec toolRegexFlags content toolRegex lastIndex) as [[[s e] c]|] eqn:E;
    simpl; auto.
  destruct (exec_bounds _ _ _ _ _ _ _ toolRegex_consuming E) as (? & ? & ?).
  repeat split; auto.
Qed.

Lemma fold_left_perTool content names :
  forall toolCalls,
  fold_left (perTool content) names toolCalls
  = toolCalls ++ flat_map (toolMatches content) names.
Proof.
  induction names as [|toolName names IH]; intros toolCalls; simpl.
  - rewrite app_nil_r. reflexivity.
  - rewrite IH. unfold perTool, toolMatches.
    rewrite !pushIfSome_app, <- !app_assoc. reflexivity.
Qed.

Lemma detectToolRequests_parts api content :
  detectToolRequests api content
  = tagCalls content ++ flat_map (toolMatches content) (Map_keys (tools api)).
Proof.
  unfold detectToolRequests, detectToolRequestsFuel.
  destruct (tagLoop_returns content (S (length content)) 0 []) as [l Hl]; [lia|].
  rewrite Hl. apply tagLoop_spans in Hl. simpl in Hl. subst l.
  apply fold_left_perTool.
Qed.

(** C2, as the code has it.  The candidates are: the calls of the
    structured tags, in the order the tags stand in the text; then, tool
    by tool in the order the registry enumerates them, the tool's
    natural-language match followed by the same tool's slash-command
    match. *)
Theorem detectToolRequests_order api content :
  inOrder 0 (tagSpans content (S (length content)) 0) /\
  detectToolRequests api content
  = tagCalls content ++ flat_map (toolMatches content) (Map_keys (tools api)).
Proof.
  split.
  - apply tagSpans_inOrder.
  - unfold detectToolRequests, detectToolRequestsFuel.
    destruct (tagLoop_returns content (S (length content)) 0 []) as [l Hl]; [lia|].
    rewrite Hl. apply tagLoop_spans in Hl. simpl in Hl. subst l.
    rewrite fold_left_perTool. reflexivity.
Qed.

(** X26.  Each tool adds at most two candidates, however often the text
    names it. *)
Lemma detectToolRequests_at_most_two_per_tool api content :
  length (detectToolRequests api content)
  <= length (tagCalls content) + 2 * length (Map_keys (tools api)).
Proof.
  rewrite detectToolRequests_parts, length_app. apply Nat.add_le_mono_l.
  induction (Map_keys (tools api)) as [|toolName names IH]; simpl; [lia|].
  rewrite length_app. unfold toolMatches at 1. rewrite length_app.
  destruct (firstMatch (usePattern toolName) toolName content);
    destruct (firstMatch (slashPattern toolName) toolName content); simpl; lia.
Qed.

(** *** The registry enumerates in registration order *)

Lemma eqb_eq a : forall b, JsString.eqb a b = true <-> a = b.
Proof.
  induction a as [|x a IH]; intros [|y b]; simpl; split; try discriminate; auto.
  - rewrite andb_true_iff, N.eqb_eq, IH. intros [-> ->]. reflexivity.
  - intros H. inversion H; subst. rewrite N.eqb_refl. simpl. apply IH. reflexivity.
Qed.

Lemma Map_get_None_keys (m : ToolMap) key :
  Map_get m key = None <-> ~ In key (Map_keys m).
Proof.
  induction m as [|[k t] m IH]; simpl.
  - split; auto.
  - destruct (JsString.eqb k key) eqn:E.
    + apply eqb_eq in E. split; [discriminate|]. intros H. exfalso. apply H. auto.
    + rewrite IH. split.
      * intros H [Hk|Hin]; [|contradiction].
        apply eqb_eq in Hk. congruence.
      * intros H Hin. apply H. auto.
Qed.

(** A new name goes to the end of the enumeration; a name already there
    keeps its place. *)
Lemma Map_set_keys (m : ToolMap) key t :
  Map_keys (Map_set m key t)
  = if existsb (fun k => JsString.eqb k key) (Map_keys m)
    then Map_keys m else Map_keys m ++ [key].
Proof.
  induction m as [|[k t0] m IH]; simpl; auto.
  destruct (JsString.eqb k key) eqn:E; simpl; auto.
  rewrite IH. destruct (existsb _ (Map_keys m)); reflexivity.
Qed.

(** [unregisterTool] on a name that is not registered returns [false]
    and changes nothing. *)
Lemma unregisterTool_absent api name :
  Map_get (tools api) name = None ->
  fst (unregisterTool api name) = false /\
  tools (snd (unregisterTool api name)) = tools api.
Proof.
  unfold unregisterTool. intros H.
  assert (Hd : Map_delete (tools api) name = (false, tools api)).
  { induction (tools api) as [|[k t] m IH]; simpl in *; auto.
    destruct (JsString.eqb k name); [discriminate|].
    rewrite (IH H). reflexivity. }
  rewrite Hd. split; reflexivity.
Qed.

(** After a tool is registered and then unregistered, the registry no
    longer lists its name, provided the names it held were distinct. *)
Lemma unregisterTool_after_register api tool :
  NoDup (Map_keys (tools api)) ->
  ~ In (toolName tool)
      (Map_keys (tools (snd (unregisterTool (registerTool api tool) (toolName tool))))).
Proof.
  unfold unregisterTool, registerTool. simpl.
  generalize (toolName tool) as key. intros key.
  induction (tools api) as [|[k t] m IH]; intros Hnd; simpl.
  - rewrite (proj2 (eqb_eq key key) eq_refl). simpl. auto.
  - inversion Hnd as [|? ? Hk Hm]; subst.
    destruct (JsString.eqb k key) eqn:E; simpl; rewrite E.
    + apply eqb_eq in E. subst k. exact Hk.
    + specialize (IH Hm).
      destruct (Map_delete (Map_set m key tool) key) as [found m'] eqn:Ed.
      simpl in *. intros [Hk'|Hin]; [|contradiction].
      apply eqb_eq in Hk'. congruence.
Qed.

(** *** PromptComposer: a mode that is not recognized *)

Definition recognizedModes : list str :=
  [lit "general"; lit "writing"; lit "research"; lit "coding"; lit "pdf"; lit "web"].

Definition recognized (mode : str) : bool :=
  existsb (fun known => JsString.eqb known mode) recognizedModes.

(** The text the [general] entry of [systemPrompts] starts with. *)
Definition generalPreamble : str :=
  lit "You are Claire, an AI assistant that helps with a variety of tasks. You are helpful, friendly, witty, and engaging. Your responses should be short, to the point, and concise.".

Lemma unrecognized_protocols api mode :
  recognized mode = false -> ownProperty (protocolTable api) mode = None.
Proof.
  unfold recognized, recognizedModes. cbn [existsb].
  intros H. repeat (apply orb_false_elim in H; destruct H as [?E H]).
  unfold protocolTable. cbn [ownProperty].
  rewrite E, E0, E1, E2, E3, E4. reflexivity.
Qed.

Lemma unrecognized_prompts api mode mode' :
  recognized mode = false -> ownProperty (promptTable api mode') mode = None.
Proof.
  unfold recognized, recognizedModes. cbn [existsb].
  intros H. repeat (apply orb_false_elim in H; destruct H as [?E H]).
  unfold promptTable. cbn [ownProperty].
  rewrite E, E0, E1, E2, E3, E4. reflexivity.
Qed.

Lemma general_prompt api mode :
  member (promptTable api mode) (lit "general")
  = Own (generalPreamble ++ lit " " ++ toolInstructions api
         ++ lit " Here are your protocols: " ++ protocolEcho api mode).
Proof. reflexivity. Qed.

Lemma general_echo api :
  exists rest, protocolEcho api (lit "general") = 123%N :: rest.
Proof. eexists. reflexivity. Qed.

(** C3 on the code.  For a mode that is none of the six, [getSystemPrompt]
    does not return what it returns for [general]: the [general] entry it
    falls back to was built with the protocols of the mode asked for,
    which are [undefined], so the text ends in [undefined] where the text
    for [general] carries the protocols of [general]. *)
Theorem getSystemPrompt_unrecognized api mode :
  recognized mode = false ->
  getSystemPrompt api mode <> getSystemPrompt api (lit "general") /\
  (existsb (JsString.eqb mode) objectPrototypeKeys = false ->
   getSystemPrompt api mode
   = Own (generalPreamble ++ lit " " ++ toolInstructions api
          ++ lit " Here are your protocols: " ++ lit "undefined")).
Proof.
  intros Hm.
  assert (Hg : getSystemPrompt api (lit "general")
               = Own (generalPreamble ++ lit " " ++ toolInstructions api
                      ++ lit " Here are your protocols: "
                      ++ protocolEcho api (lit "general"))) by reflexivity.
  assert (Hecho : existsb (JsString.eqb mode) objectPrototypeKeys = false ->
                  protocolEcho api mode = lit "undefined").
  { intros Hk. unfold protocolEcho, getProtocols, member.
    rewrite (unrecognized_protocols api mode Hm), Hk. reflexivity. }
  assert (Hcases : getSystemPrompt api mode
            = if existsb (JsString.eqb mode) objectPrototypeKeys then Inherited mode
              else Own (generalPreamble ++ lit " " ++ toolInstructions api
                        ++ lit " Here are your protocols: " ++ protocolEcho api mode)).
  { unfold getSystemPrompt. unfold member at 1.
    rewrite (unrecognized_prompts api mode mode Hm).
    destruct (existsb (JsString.eqb mode) objectPrototypeKeys); [reflexivity|].
    apply general_prompt. }
  rewrite Hcases, Hg.
  destruct (existsb (JsString.eqb mode) objectPrototypeKeys) eqn:Hk.
  - split; discriminate.
  - rewrite (Hecho eq_refl). split; [|reflexivity].
    intros H. inversion H as [H1].
    unfold generalPreamble in H1.
    repeat apply app_inv_head in H1.
    destruct (general_echo api) as [rest Hr]. rewrite Hr in H1. discriminate.
Qed.

(** *** Running a script of turns *)

Lemma quietTurns_next s context response responses s2 context2 :
  fst (turn context s) = Returns response ->
  isTaskComplete response = false ->
  quietTurns (nextTurn (snd (turn context s))) (previousResponse context response)
    responses s2 context2 ->
  quietTurns s context (response :: responses) s2 context2.
Proof.
  intros Hr Hc Hq. destruct (turn context s) as [r s1] eqn:E. simpl in Hr, Hq. subst r.
  apply quiet_turn with s1; auto.
  intros H. apply isTaskComplete_spec in H. congruence.
Qed.

Lemma turn_eta context s response :
  fst (turn context s) = Returns response ->
  turn context s = (Returns response, snd (turn context s)).
Proof. intros H. destruct (turn context s); simpl in *; congruence. Qed.

(** ** More of the class

    The registry as a map, what detection and clean-up do on the edges,
    the other methods of [LMStudioAPI], and how they compose. *)

(** *** The registry as a map *)

(** X1.  Looking a name up after [registerTool]: the tool just registered
    under its own name, and under every other name what was there
    before. *)
Theorem registerTool_lookup api tool name :
  Map_get (tools (registerTool api tool)) name
  = if JsString.eqb (toolName tool) name then Some tool else Map_get (tools api) name.
Proof.
  unfold registerTool. simpl. generalize (toolName tool) as key. intros key.
  induction (tools api) as [|[k t0] m IH]; simpl.
  - reflexivity.
  - destruct (JsString.eqb k key) eqn:Ek; simpl.
    + apply eqb_eq in Ek. subst k. destruct (JsString.eqb key name); reflexivity.
    + rewrite IH. destruct (JsString.eqb k name) eqn:En; [|reflexivity].
      destruct (JsString.eqb key name) eqn:Ekn; [|reflexivity].
      apply eqb_eq in En. apply eqb_eq in Ekn. subst.
      rewrite (proj2 (eqb_eq name name) eq_refl) in Ek. discriminate.
Qed.

Lemma Map_set_In_keys (m : ToolMap) key t name :
  In name (Map_keys (Map_set m key t)) -> name = key \/ In name (Map_keys m).
Proof.
  rewrite Map_set_keys. destruct (existsb _ (Map_keys m)); auto.
  intros H. apply in_app_or in H. destruct H as [H|[H|[]]]; auto.
Qed.

Lemma Map_delete_keys_incl (m : ToolMap) key name :
  In name (Map_keys (snd (Map_delete m key))) -> In name (Map_keys m).
Proof.
  induction m as [|[k t] m IH]; simpl; auto.
  destruct (JsString.eqb k key); simpl; auto.
  destruct (Map_delete m key) as [found m']. simpl in *. intros [H|H]; auto.
Qed.

Lemma Map_set_NoDup (m : ToolMap) key t :
  NoDup (Map_keys m) -> NoDup (Map_keys (Map_set m key t)).
Proof.
  induction m as [|[k t0] m IH]; simpl; intros H.
  - constructor; [intros []|constructor].
  - inversion H as [|? ? Hk Hm]; subst.
    destruct (JsString.eqb k key) eqn:E; simpl; [constructor; assumption|].
    constructor; [|auto].
    intros Hin. apply Map_set_In_keys in Hin. destruct Hin as [->|Hin]; [|contradiction].
    rewrite (proj2 (eqb_eq key key) eq_refl) in E. discriminate.
Qed.

Lemma Map_delete_NoDup (m : ToolMap) key :
  NoDup (Map_keys m) -> NoDup (Map_keys (snd (Map_delete m key))).
Proof.
  induction m as [|[k t0] m IH]; simpl; intros H; [constructor|].
  inversion H as [|? ? Hk Hm]; subst.
  destruct (JsString.eqb k key); simpl; auto.
  specialize (IH Hm). pose proof (Map_delete_keys_incl m key k) as Hincl.
  destruct (Map_delete m key) as [found m']. simpl in *.
  constructor; auto.
Qed.

(** X2.  The names of the registry stay distinct: neither [registerTool]
    nor [unregisterTool] makes a name occur twice. *)
Theorem registry_names_distinct api tool name :
  NoDup (Map_keys (tools api)) ->
  NoDup (Map_keys (tools (registerTool api tool))) /\
  NoDup (Map_keys (tools (snd (unregisterTool api name)))).
Proof.
  intros H. split.
  - apply Map_set_NoDup. exact H.
  - unfold unregisterTool. pose proof (Map_delete_NoDup (tools api) name H) as Hd.
    destruct (Map_delete (tools api) name) as [found m']. exact Hd.
Qed.

Lemma Map_delete_found (m : ToolMap) key :
  fst (Map_delete m key) = match Map_get m key with Some _ => true | None => false end.
Proof.
  induction m as [|[k t] m IH]; simpl; auto.
  destruct (JsString.eqb k key); simpl; auto.
  destruct (Map_delete m key) as [found m']. simpl in *. exact IH.
Qed.

Lemma Map_delete_get (m : ToolMap) key name :
  NoDup (Map_keys m) ->
  Map_get (snd (Map_delete m key)) name
  = if JsString.eqb key name then None else Map_get m name.
Proof.
  induction m as [|[k t] m IH]; simpl; intros H.
  - destruct (JsString.eqb key name); reflexivity.
  - inversion H as [|? ? Hk Hm]; subst. specialize (IH Hm).
    destruct (JsString.eqb k key) eqn:Ek; simpl.
    + apply eqb_eq in Ek. subst k.
      destruct (JsString.eqb key name) eqn:En; [|reflexivity].
      apply eqb_eq in En. subst name. apply Map_get_None_keys. exact Hk.
    + destruct (Map_delete m key) as [found m']. simpl in *.
      destruct (JsString.eqb k name) eqn:En; [|exact IH].
      destruct (JsString.eqb key name) eqn:Ekn; [|reflexivity].
      apply eqb_eq in En. apply eqb_eq in Ekn. subst.
      rewrite (proj2 (eqb_eq name name) eq_refl) in Ek. discriminate.
Qed.

(** X3.  [unregisterTool] says whether the name was registered; after it
    the name is looked up in vain, and every other name as before. *)
Theorem unregisterTool_lookup api name other :
  NoDup (Map_keys (tools api)) ->
  fst (unregisterTool api name)
    = match Map_get (tools api) name with Some _ => true | None => false end /\
  Map_get (tools (snd (unregisterTool api name))) other
    = if JsString.eqb name other then None else Map_get (tools api) other.
Proof.
  intros H. unfold unregisterTool.
  pose proof (Map_delete_found (tools api) name) as Hf.
  pose proof (Map_delete_get (tools api) name other H) as Hg.
  destruct (Map_delete (tools api) name) as [found m']. simpl in *. auto.
Qed.

(** X4.  The order the registry enumerates: registering a name that is
    new puts it last; registering a name again leaves the order as it
    was (and, by X1, replaces the tool). *)
Theorem registerTool_order api tool :
  Map_keys (tools (registerTool api tool))
  = if existsb (fun k => JsString.eqb k (toolName tool)) (Map_keys (tools api))
    then Map_keys (tools api)
    else Map_keys (tools api) ++ [toolName tool].
Proof.
  unfold registerTool. simpl. generalize (toolName tool) as key. intros key.
  induction (tools api) as [|[k t0] m IH]; simpl; [reflexivity|].
  destruct (JsString.eqb k key); simpl; [reflexivity|].
  rewrite IH. destruct (existsb _ (Map_keys m)); reflexivity.
Qed.

(** *** Texts that cannot match *)

Section MatcherEdges.

Variable fl : flags.
Variable input : str.

(** The literal every match of a pattern starts with, when the pattern
    shows one. *)
Fixpoint firstChar (r : regex) : option N :=
  match r with
  | Chr p => Some p
  | Seq a _ => firstChar a
  | Group a => firstChar a
  | _ => None
  end.

Lemma m_firstChar r p :
  firstChar r = Some p ->
  forall i c k,
  (forall d, nth_error input i = Some d -> charEq fl p d = false) ->
  m fl input r i c k = None.
Proof.
  induction r as [| q | | | | a IHa b IHb | a IHa b IHb | a IHa min greedy | a IHa | a IHa];
    intros Hf i c k Hd; simpl in Hf; try discriminate; cbn [m].
  - inversion Hf; subst. unfold step.
    destruct (nth_error input i) as [d|] eqn:E; [|reflexivity].
    rewrite (Hd d eq_refl). reflexivity.
  - apply IHa; assumption.
  - apply IHa; assumption.
Qed.

Lemma scan_firstChar r p :
  firstChar r = Some p ->
  (forall d, In d input -> charEq fl p d = false) ->
  forall fuel start, scan fl input r fuel start = None.
Proof.
  intros Hf Hd fuel. induction fuel as [|fuel IH]; intros start; [reflexivity|].
  simpl. unfold matchAt. rewrite (m_firstChar r p Hf); [apply IH|].
  intros d Hn. apply Hd. apply nth_error_In with start. exact Hn.
Qed.

(** A text that holds no character the pattern could start with is left
    as it is by [replaceAll]. *)
Lemma replaceAll_firstChar r p by_ :
  firstChar r = Some p ->
  (forall d, In d input -> charEq fl p d = false) ->
  replaceAll fl input r by_ = input.
Proof.
  intros Hf Hd. unfold replaceAll. cbn [replaceFrom]. unfold exec.
  rewrite (scan_firstChar r p Hf Hd). reflexivity.
Qed.

End MatcherEdges.

(** *** White space at the ends *)

(** A text with no white space at either end. *)
Definition noEdgeSpace (s : str) : Prop :=
  (forall c rest, s = c :: rest -> isWhiteSpace c = false) /\
  (forall c front, s = front ++ [c] -> isWhiteSpace c = false).

Lemma trimStart_head s c rest :
  trimStart s = c :: rest -> isWhiteSpace c = false.
Proof.
  induction s as [|d s IH]; simpl; [discriminate|].
  destruct (isWhiteSpace d) eqn:E; auto.
  intros H. inversion H; subst. exact E.
Qed.

Lemma trimStart_split s : exists spaces, s = spaces ++ trimStart s.
Proof.
  induction s as [|d s [spaces IH]]; simpl.
  - exists []. reflexivity.
  - destruct (isWhiteSpace d).
    + exists (d :: spaces). simpl. f_equal. exact IH.
    + exists []. reflexivity.
Qed.

Lemma trim_noEdgeSpace s : noEdgeSpace (trim s).
Proof.
  unfold trim, trimEnd. split.
  - intros c rest H.
    destruct (trimStart_split (rev (trimStart s))) as [spaces Hs].
    apply (f_equal (@rev N)) in Hs. rewrite rev_involutive, rev_app_distr, H in Hs.
    simpl in Hs. apply (trimStart_head s c _ Hs).
  - intros c front H.
    apply (f_equal (@rev N)) in H. rewrite rev_involutive, rev_app_distr in H.
    simpl in H. apply (trimStart_head _ c _ H).
Qed.

(** *** Detection on the edges *)

(** A candidate of the natural-language or of the slash form: the name of
    a registered tool and the single parameter [query], a text with no
    white space at its ends. *)
Definition queryCandidate (api : LMStudioAPI) (toolCall : ToolCall) : Prop :=
  exists name q,
    In name (Map_keys (tools api)) /\
    toolCall = {| callName := JString name;
                  callParameters := JObject [(lit "query", JString q)] |} /\
    noEdgeSpace q.

Lemma tagCalls_without_bracket content :
  (forall d, In d content -> d <> 91%N) -> tagCalls content = [].
Proof.
  intros H. unfold tagCalls. cbn [tagSpans]. unfold exec.
  rewrite (scan_firstChar toolRegexFlags content toolRegex 91%N); [reflexivity|reflexivity|].
  intros d Hd. simpl. apply N.eqb_neq. intros E. apply (H d Hd). auto.
Qed.

Lemma firstMatch_candidate r toolName content toolCall :
  firstMatch r toolName content = Some toolCall ->
  exists q, toolCall = {| callName := JString toolName;
                          callParameters := JObject [(lit "query", JString q)] |}
            /\ noEdgeSpace q.
Proof.
  unfold firstMatch.
  destruct (exec perToolFlags content r 0) as [[[s e] c]|]; [|discriminate].
  intros H. inversion H; subst. unfold queryCall. eexists. split; [reflexivity|].
  apply trim_noEdgeSpace.
Qed.

Lemma queryCandidates_without_bracket api content :
  (forall d, In d content -> d <> 91%N) ->
  Forall (queryCandidate api) (detectToolRequests api content).
Proof.
  intros H. rewrite detectToolRequests_parts, (tagCalls_without_bracket content H).
  simpl. apply Forall_forall. intros toolCall Hin.
  apply in_flat_map in Hin. destruct Hin as (name & Hname & Hin).
  unfold toolMatches in Hin. apply in_app_or in Hin.
  assert (Hc : forall r, In toolCall (optList (firstMatch r name content)) ->
                         queryCandidate api toolCall).
  { intros r Hr. destruct (firstMatch r name content) as [found|] eqn:E; [|destruct Hr].
    destruct Hr as [Heq|[]]. subst found.
    destruct (firstMatch_candidate r name content toolCall E) as (q & -> & Hq).
    exists name, q. auto. }
  destruct Hin as [Hin|Hin]; eapply Hc; eauto.
Qed.

(** X5.  In a text that holds no opening bracket, detection finds no
    structured tag, and every candidate it returns then names a tool of
    the registry and carries one parameter, [query], with no white space
    at its ends.  With an empty registry nothing is found at all. *)
Theorem detectToolRequests_without_bracket api content :
  (forall d, In d content -> d <> 91%N) ->
  Forall (queryCandidate api) (detectToolRequests api content) /\
  (tools api = [] -> detectToolRequests api content = []).
Proof.
  intros H. split; [apply queryCandidates_without_bracket; exact H|].
  intros Hempty.
  rewrite detectToolRequests_parts, (tagCalls_without_bracket content H), Hempty.
  reflexivity.
Qed.

(** *** The completion phrases *)

Lemma toLowerCase_app a b : toLowerCase (a ++ b) = toLowerCase a ++ toLowerCase b.
Proof. unfold toLowerCase. apply flat_map_app. Qed.

(** X6.  A response is complete as soon as it holds, anywhere and in any
    letter case, one of the five phrases: whatever stands before and
    after a text whose lower case is a completion phrase. *)
Theorem isTaskComplete_phrase_anywhere before variant after phrase :
  In phrase completionIndicators ->
  toLowerCase variant = phrase ->
  isTaskComplete (before ++ variant ++ after) = true.
Proof.
  intros Hin Hv. apply isTaskComplete_spec.
  exists phrase, (toLowerCase before), (toLowerCase after). split; [exact Hin|].
  rewrite !toLowerCase_app, Hv. reflexivity.
Qed.

(** *** The conversation driver on the edges *)

(** X7.  A completion that holds no [<] is only trimmed by the clean-up:
    there is no reasoning span and no stray marker to remove. *)
Theorem cleanUp_without_markers content :
  (forall d, In d content -> d <> 60%N) ->
  cleanUp content = trim content.
Proof.
  intros H. unfold cleanUp.
  assert (Hd : forall fl, ignoreCase fl = false ->
                 forall d, In d content -> charEq fl 60%N d = false).
  { intros fl Hfl d Hin. unfold charEq. rewrite Hfl. apply N.eqb_neq.
    intros E. apply (H d Hin). auto. }
  rewrite (replaceAll_firstChar toolRegexFlags content thinkSpan 60%N []);
    [|reflexivity|apply Hd; reflexivity].
  rewrite (replaceAll_firstChar plainFlags content thinkTag 60%N []);
    [|reflexivity|apply Hd; reflexivity].
  reflexivity.
Qed.

(** The three ways a completion call can go. *)
Inductive chatOutline (ref : nat) (model : str) (temperature : spec_float)
    (maxTokens : Z) (s : State) : Completion str * State -> Prop :=
| outline_empty :
    nth ref (arrays s) [] = [] ->
    chatOutline ref model temperature maxTokens s
      (Throws (TypeError "Cannot read properties of undefined (reading 'content')"), s)
| outline_chain_throws elements lastMessage toolCall toolCalls e w :
    nth ref (arrays s) [] = elements ++ [lastMessage] ->
    detectToolRequests (this s) (content lastMessage) = toolCall :: toolCalls ->
    processToolChain (toolCall :: toolCalls) s = (Throws e, withWorld s w) ->
    chatOutline ref model temperature maxTokens s (Throws e, withWorld s w)
| outline_posted elements lastMessage extra prepared :
    nth ref (arrays s) [] = elements ++ [lastMessage] ->
    (detectToolRequests (this s) (content lastMessage) = [] /\
     extra = [] /\ prepared = s
     \/
     exists results w,
       detectToolRequests (this s) (content lastMessage) <> [] /\
       processToolChain (detectToolRequests (this s) (content lastMessage)) s
         = (Returns results, withWorld s w) /\
       extra = [toolResultsMessage results] /\
       prepared = withArray (withWorld s w) ((elements ++ [lastMessage]) ++ extra)) ->
    chatOutline ref model temperature maxTokens s
      (postAndAnswer prepared ((elements ++ [lastMessage]) ++ extra)
         model temperature maxTokens).

Lemma chatCompletion_outline ref model temperature maxTokens s :
  chatOutline ref model temperature maxTokens s
    (chatCompletion ref model temperature maxTokens s).
Proof.
  destruct (nonempty_last (nth ref (arrays s) [])) as [Hnil|(elements & lastMessage & Hl)].
  - rewrite chatCompletion_empty by assumption. apply outline_empty. assumption.
  - destruct (detectToolRequests (this s) (content lastMessage)) as [|toolCall toolCalls] eqn:Hd.
    + rewrite (chatCompletion_no_tools _ _ _ _ _ _ _ Hl Hd).
      rewrite <- (app_nil_r (elements ++ [lastMessage])) at 1.
      apply outline_posted with (extra := []) (prepared := s); auto.
    + destruct (processToolChainFrom_frame (toolCall :: toolCalls) [] s) as [w Hw].
      fold (processToolChain (toolCall :: toolCalls)) in Hw.
      destruct (processToolChain (toolCall :: toolCalls) s) as [[results|e] s1] eqn:Hc;
        simpl in Hw; subst s1.
      * rewrite (chatCompletion_with_tools _ _ _ _ _ _ _ _ _ _ _ Hl Hd Hc). cbv zeta.
        apply outline_posted with (extra := [toolResultsMessage results]); auto.
        right. exists results, w. rewrite Hd. repeat split; auto. discriminate.
      * rewrite (chatCompletion_chain_throws _ _ _ _ _ _ _ _ _ _ _ Hl Hd Hc).
        eapply outline_chain_throws; eauto.
Qed.

(** X8.  The text [chatCompletion] returns has no white space at its
    ends, whatever the backend answered. *)
Theorem chatCompletion_returns_trimmed ref model temperature maxTokens s response s' :
  chatCompletion ref model temperature maxTokens s = (Returns response, s') ->
  noEdgeSpace response.
Proof.
  intros H. pose proof (chatCompletion_outline ref model temperature maxTokens s) as O.
  rewrite H in O. inversion O as [| |elements lastMessage extra prepared Hl Hcase Heq].
  unfold postAndAnswer in Heq. inversion Heq as [[Hr Hs]]. unfold answer in Hr.
  destruct (fst (axios_post _ _)) as [reply|e]; [|discriminate].
  destruct (choices reply) as [|first rest]; [discriminate|].
  inversion Hr. unfold cleanUp. apply trim_noEdgeSpace.
Qed.

Lemma app_one_neq {A : Type} (l : list A) (x : A) : l <> l ++ [x].
Proof.
  intros H. apply (f_equal (@length A)) in H. rewrite length_app in H. simpl in H. lia.
Qed.

(** X9.  A call of [chatCompletion] that posts nothing has thrown, and
    has made no array and left the object as it was.  So it is on an
    empty list of messages: the call throws a [TypeError] and changes
    nothing at all, no tool is run. *)
Theorem chatCompletion_nothing_posted ref model temperature maxTokens s r s' :
  chatCompletion ref model temperature maxTokens s = (r, s') ->
  posted s' = posted s ->
  (exists e, r = Throws e) /\
  arrays s' = arrays s /\
  this s' = this s /\
  (nth ref (arrays s) [] = [] ->
   s' = s /\ exists e, r = Throws e /\ errorName e = lit "TypeError").
Proof.
  intros H Hp.
  pose proof (chatCompletion_outline ref model temperature maxTokens s) as O.
  rewrite H in O.
  inversion O as [Hnil Heq|elements lastMessage toolCall toolCalls e w Hl Hd Hc Heq
                  |elements lastMessage extra prepared Hl Hcase Heq].
  - split; [eauto|]. split; [reflexivity|]. split; [reflexivity|].
    intros _. split; [reflexivity|]. eexists. split; reflexivity.
  - split; [eauto|]. split; [reflexivity|]. split; [reflexivity|].
    intros Hnil. rewrite Hnil in Hl. destruct elements; discriminate.
  - exfalso.
    assert (Hposted : posted prepared = posted s).
    { destruct Hcase as [(_ & _ & ->)|(results & w & _ & _ & _ & ->)]; reflexivity. }
    match goal with Hs : withPosted _ _ _ = s' |- _ => rewrite <- Hs in Hp end.
    simpl in Hp. rewrite Hposted in Hp. symmetry in Hp. apply (app_one_neq _ _ Hp).
Qed.

(** X10.  What [chatCompletion] sends: at most one request, to the path
    [/v1/chat/completions] under the base URL, not streamed, with the
    model and the settings it was called with; its messages are the
    caller's history, followed by at most one message of tool results,
    and by none when the last message of the history holds no tool
    request, whatever the messages before it hold. *)
Theorem chatCompletion_request ref modelName temp maxTokens s :
  let history := nth ref (arrays s) [] in
  let s' := snd (chatCompletion ref modelName temp maxTokens s) in
  posted s' = posted s \/
  exists extra,
    posted s' = posted s ++
      [ {| url := baseUrl (this s) ++ lit "/v1/chat/completions";
           messages := history ++ extra; model := modelName; temperature := temp;
           max_tokens := maxTokens; stream := false |} ] /\
    (extra = [] \/
     exists results,
       extra = [ {| role := system;
                    content := lit "Tool results: " ++ join [10%N] results |} ]) /\
    (forall front lastMessage, history = front ++ [lastMessage] ->
       detectToolRequests (this s) (content lastMessage) = [] -> extra = []).
Proof.
  cbv zeta.
  pose proof (chatCompletion_outline ref modelName temp maxTokens s) as O.
  inversion O as [Hnil Heq|elements lastMessage toolCall toolCalls e w Hl Hd Hc Heq
                  |elements lastMessage extra prepared Hl Hcase Heq].
  - left. reflexivity.
  - left. reflexivity.
  - right. exists extra. rewrite Hl. unfold postAndAnswer, requestFor. simpl.
    destruct Hcase as [(Hd & -> & ->)|(results & w & Hd & Hc & -> & ->)]; simpl.
    + split; [reflexivity|]. split; [left; reflexivity|]. auto.
    + split; [reflexivity|]. split; [right; exists results; reflexivity|].
      intros front lastMessage' Hh Hnone.
      apply app_inj_tail in Hh. destruct Hh as [_ <-]. contradiction.
Qed.

(** X11.  Once the request is posted, the outcome is the backend's: an
    error of the backend is thrown on as it is, an answer with no choice
    ends in a [TypeError], and otherwise the content of the first choice
    is returned, cleaned up. *)
Theorem chatCompletion_backend_outcome ref modelName temp maxTokens s r s' req :
  chatCompletion ref modelName temp maxTokens s = (r, s') ->
  posted s' = posted s ++ [req] ->
  exists w,
    world s' = snd (axios_post req w) /\
    match fst (axios_post req w) with
    | Throws e => r = Throws e
    | Returns reply =>
        match choices reply with
        | first :: _ => r = Returns (cleanUp (messageContent first))
        | [] => exists e, r = Throws e /\ errorName e = lit "TypeError"
        end
    end.
Proof.
  intros H Hp.
  pose proof (chatCompletion_outline ref modelName temp maxTokens s) as O.
  rewrite H in O.
  inversion O as [Hnil Heq|elements lastMessage toolCall toolCalls e w Hl Hd Hc Heq
                  |elements lastMessage extra prepared Hl Hcase Heq].
  - subst s'. exfalso. apply (app_one_neq _ _ Hp).
  - subst s'. exfalso. apply (app_one_neq _ _ Hp).
  - assert (Hposted : posted prepared = posted s).
    { destruct Hcase as [(_ & _ & ->)|(results & w & _ & _ & _ & ->)]; reflexivity. }
    match goal with Hs : withPosted _ _ _ = s' |- _ => rewrite <- Hs in Hp end.
    simpl in Hp. rewrite Hposted in Hp.
    apply app_inv_head in Hp. inversion Hp as [Hreq]. clear Hp.
    exists (world prepared). simpl. split; [reflexivity|].
    unfold answer.
    destruct (fst (axios_post _ (world prepared))) as [reply|e]; [|reflexivity].
    destruct (choices reply) as [|first rest]; [|reflexivity].
    eexists. split; reflexivity.
Qed.

(** *** The agentic loop under any backend *)

(** The agentic state [a] after [n] more turns were counted. *)
Definition afterTurns (a : AgenticState) (n : nat) : AgenticState :=
  {| currentTask := currentTask a; taskSteps := taskSteps a;
     completedSteps := completedSteps a; context := context a;
     maxTurns := maxTurns a; currentTurn := (currentTurn a + Z.of_nat n)%Z |}.

(** What a run of the loop from the agentic state [a] leaves, however it
    ends: the object's other fields as they were, the arrays that were
    alive, the same task and budget, and as many requests posted as turns
    were begun. *)
Definition loopFrame (a : AgenticState) (s : State)
    (r : Completion (option (Phase * str))) (s' : State) : Prop :=
  baseUrl (this s') = baseUrl (this s) /\
  defaultModel (this s') = defaultModel (this s) /\
  tools (this s') = tools (this s) /\
  (exists fresh, arrays s' = arrays s ++ fresh) /\
  exists n more,
    agenticState (this s') = Some (afterTurns a n) /\
    posted s' = posted s ++ more /\
    match r with
    | Returns (Some (Completed, _)) =>
        length more = n + 1 /\ (currentTurn a + Z.of_nat n < maxTurns a)%Z
    | Returns (Some (BudgetExhausted, _)) =>
        length more = n /\
        (currentTurn a + Z.of_nat n = Z.max (currentTurn a) (maxTurns a))%Z
    | Returns None => True
    | Throws _ =>
        n <= length more <= n + 1 /\ (currentTurn a + Z.of_nat n < maxTurns a)%Z
    end.

Lemma afterTurns_0 a : afterTurns a 0 = a.
Proof.
  destruct a. unfold afterTurns. simpl. f_equal. lia.
Qed.

Lemma afterTurns_S a n : afterTurns (incrementTurn a) n = afterTurns a (S n).
Proof.
  unfold afterTurns, incrementTurn. simpl. f_equal. lia.
Qed.

Lemma turn_arrays context s :
  exists fresh, arrays (snd (turn context s)) = arrays s ++ fresh.
Proof.
  unfold turn, bind, gets, newArray; simpl.
  match goal with |- context [chatCompletion ?r ?mo ?t ?mt ?st] =>
    destruct (chatCompletion_frame r mo t mt st) as (_ & (fresh & Ha) & _) end.
  simpl in Ha. rewrite Ha, <- app_assoc. eauto.
Qed.

Lemma agenticLoop_frame fuel :
  forall context finalResponse s a,
  agenticState (this s) = Some a ->
  loopFrame a s (fst (agenticLoop fuel context finalResponse s))
    (snd (agenticLoop fuel context finalResponse s)).
Proof.
  assert (Hstay : forall s a r,
            agenticState (this s) = Some a ->
            match r with
            | Returns (Some (BudgetExhausted, _)) => (maxTurns a <= currentTurn a)%Z
            | Returns None => True
            | _ => False
            end ->
            loopFrame a s r s).
  { intros s a r Ha Hr. unfold loopFrame. repeat split; auto.
    - exists []. rewrite app_nil_r. reflexivity.
    - exists 0, []. rewrite afterTurns_0, app_nil_r. repeat split; auto.
      destruct r as [[[[|] text]|]|e]; try contradiction; auto.
      split; [reflexivity|]. lia. }
  induction fuel as [|fuel IH]; intros context finalResponse s a Ha.
  - destruct (Z.lt_ge_cases (currentTurn a) (maxTurns a)) as [Hlt|Hge].
    + assert (E : agenticLoop 0 context finalResponse s = (Returns None, s)).
      { cbn [agenticLoop]. unfold bind. rewrite (getAgenticState_run _ _ Ha).
        apply Z.ltb_lt in Hlt. rewrite Hlt. reflexivity. }
      rewrite E. simpl. apply Hstay; auto.
    + rewrite (agenticLoop_done 0 context finalResponse s a Ha Hge). simpl.
      apply Hstay; auto.
  - destruct (Z.lt_ge_cases (currentTurn a) (maxTurns a)) as [Hlt|Hge].
    2:{ rewrite (agenticLoop_done (S fuel) context finalResponse s a Ha Hge). simpl.
        apply Hstay; auto. }
    rewrite (agenticLoop_step fuel context finalResponse s a Ha Hlt).
    pose proof (turn_frame context s) as [Hthis Hposted].
    pose proof (turn_arrays context s) as [fresh Harrays].
    pose proof (turn_returns_posts context s) as Hreturns.
    destruct (turn context s) as [[response|e] s1]; simpl in Hthis, Hposted, Harrays.
    + destruct (Hreturns response s1 eq_refl) as (_ & req & Hreq).
      destruct (isTaskComplete response).
      * simpl. unfold loopFrame. rewrite Hthis. repeat split; eauto.
        exists 0, [req]. rewrite afterTurns_0. repeat split; auto. lia.
      * assert (Ha1 : agenticState (this s1) = Some a) by congruence.
        specialize (IH (previousResponse context response)
                      (if Z.leb (maxTurns a) (currentTurn a + 1) then response
                       else finalResponse)
                      (nextTurn s1) (incrementTurn a) (nextTurn_state _ _ Ha1)).
        destruct (agenticLoop fuel _ _ (nextTurn s1)) as [r s2]. simpl in IH |- *.
        destruct IH as (Hb & Hm & Ht & (fresh2 & Har) & n & more & Hstate & Hp & Hr).
        simpl in Hb, Hm, Ht, Har, Hp.
        unfold loopFrame. rewrite Hb, Hm, Ht, Hthis. repeat split; auto.
        { exists (fresh ++ fresh2). rewrite Har, Harrays, <- app_assoc. reflexivity. }
        exists (S n), (req :: more). rewrite <- afterTurns_S. split; [exact Hstate|].
        split; [rewrite Hp, Hreq, <- app_assoc; reflexivity|].
        simpl in Hr. simpl length.
        destruct r as [[[[|] text]|]|e]; auto; lia.
    + simpl. unfold loopFrame. rewrite Hthis. repeat split; eauto.
      destruct Hposted as [Hp|[req Hp]].
      * exists 0, []. rewrite afterTurns_0, app_nil_r. repeat split; auto; simpl; lia.
      * exists 0, [req]. rewrite afterTurns_0. repeat split; auto; simpl; lia.
Qed.

(** X12.  Whatever the backend answers and whatever the tools do,
    [executeAgenticTask] ends, by returning a text or by throwing; it
    posts at most [maxTurns] requests, only appends to what was posted,
    keeps every array that was alive, and leaves the registry, the base
    URL and the default model as they were. *)
Theorem executeAgenticTask_bounded userInput maxTurns s :
  let s' := snd (executeAgenticTask userInput maxTurns s) in
  fst (executeAgenticTask userInput maxTurns s) <> Returns None /\
  (exists more, posted s' = posted s ++ more /\ length more <= Z.to_nat maxTurns) /\
  (exists fresh, arrays s' = arrays s ++ fresh) /\
  tools (this s') = tools (this s) /\
  baseUrl (this s') = baseUrl (this s) /\
  defaultModel (this s') = defaultModel (this s).
Proof.
  cbv zeta. split; [apply executeAgenticTask_total|].
  rewrite executeAgenticTask_run.
  pose proof (agenticLoop_frame (Z.to_nat maxTurns) userInput []
                (withAgentic s (Some (initialState userInput maxTurns)))
                (initialState userInput maxTurns) eq_refl) as F.
  pose proof (agenticLoop_fuel (Z.to_nat maxTurns) userInput []
                (withAgentic s (Some (initialState userInput maxTurns)))) as T.
  destruct (agenticLoop _ _ _ _) as [r s1]. simpl in F, T.
  destruct F as (Hb & Hm & Ht & Har & n & more & Hstate & Hp & Hr).
  simpl in Hb, Hm, Ht, Har, Hp, Hr.
  assert (Hlen : length more <= Z.to_nat maxTurns).
  { destruct r as [[[[|] text]|]|e]; try lia.
    exfalso. apply T; auto. intros a Ha. inversion Ha; subst. simpl. lia. }
  destruct r as [r|e]; simpl; repeat split; eauto.
Qed.

(** X13.  The agentic state is reset only when [executeAgenticTask]
    returns.  When a turn throws, the error leaves the function with the
    state of the task still set: the task, the budget, and a turn counter
    below the budget that counts the turns that were completed. *)
Theorem executeAgenticTask_state_after userInput budget s :
  match executeAgenticTask userInput budget s with
  | (Returns _, s') => agenticState (this s') = None
  | (Throws _, s') =>
      exists a,
        agenticState (this s') = Some a /\
        currentTask a = Some userInput /\
        maxTurns a = budget /\
        (0 <= currentTurn a < budget)%Z /\
        (Z.of_nat (length (posted s')) - Z.of_nat (length (posted s)) - 1
           <= currentTurn a
           <= Z.of_nat (length (posted s')) - Z.of_nat (length (posted s)))%Z
  end.
Proof.
  rewrite executeAgenticTask_run.
  pose proof (agenticLoop_frame (Z.to_nat budget) userInput []
                (withAgentic s (Some (initialState userInput budget)))
                (initialState userInput budget) eq_refl) as F.
  destruct (agenticLoop _ _ _ _) as [[r|e] s1]; simpl in F; [reflexivity|].
  destruct F as (_ & _ & _ & _ & n & more & Hstate & Hp & Hr).
  simpl in Hp, Hr. exists (afterTurns (initialState userInput budget) n).
  split; [exact Hstate|]. simpl. rewrite Hp, length_app.
  repeat split; lia.
Qed.

(** The loop through quiet turns up to a turn that throws. *)
Lemma agenticLoop_fails responses :
  forall fuel context finalResponse s a s1 context1 e s2,
  agenticState (this s) = Some a ->
  (Z.of_nat (length responses) < maxTurns a - currentTurn a)%Z ->
  length responses < fuel ->
  quietTurns s context responses s1 context1 ->
  turn context1 s1 = (Throws e, s2) ->
  agenticLoop fuel context finalResponse s = (Throws e, s2).
Proof.
  induction responses as [|quiet responses IH];
    intros fuel context finalResponse s a s1 context1 e s2 Ha Hn Hf Hq Ht;
    (destruct fuel as [|fuel]; [simpl in Hf; lia|]).
  - inversion Hq; subst. simpl in Hn.
    rewrite (agenticLoop_step _ _ _ _ _ Ha) by lia.
    rewrite Ht. reflexivity.
  - inversion Hq as [|? ? ? s0 ? ? ? Hturn Hc Hrest]; subst.
    simpl length in Hn.
    rewrite (agenticLoop_step _ _ _ _ _ Ha) by lia.
    rewrite Hturn, (isTaskComplete_false _ Hc).
    destruct (turn_returns_posts _ _ _ _ Hturn) as (Hthis & _).
    assert (Ha0 : agenticState (this s0) = Some a) by congruence.
    apply (IH fuel _ _ _ (incrementTurn a) s1 context1 e s2
             (nextTurn_state _ _ Ha0)); auto.
    + simpl. lia.
    + simpl in Hf. lia.
Qed.

(** A run of quiet turns counts its turns and touches nothing else of the
    object. *)
Lemma quietTurns_state s context responses s' context' :
  quietTurns s context responses s' context' ->
  forall a, agenticState (this s) = Some a ->
  agenticState (this s') = Some (afterTurns a (length responses)) /\
  tools (this s') = tools (this s) /\
  baseUrl (this s') = baseUrl (this s) /\
  defaultModel (this s') = defaultModel (this s).
Proof.
  induction 1 as [|s context response s1 responses s2 context2 Ht _ _ IH]; intros a Ha.
  - rewrite afterTurns_0. auto.
  - destruct (turn_returns_posts _ _ _ _ Ht) as (Hthis & _).
    assert (Ha1 : agenticState (this s1) = Some a) by congruence.
    destruct (IH _ (nextTurn_state _ _ Ha1)) as (Hs & Htools & Hb & Hm).
    simpl in Htools, Hb, Hm. rewrite Hthis in Htools, Hb, Hm.
    simpl length. rewrite <- afterTurns_S. auto.
Qed.

(** X14.  An error in a turn ends the task: after turns that returned
    texts with no completion phrase, when the completion call of the next
    turn, within the budget, throws, [executeAgenticTask] throws that
    error, in the state the failed call left; the agentic state is not
    reset and its counter holds the number of turns completed. *)
Theorem executeAgenticTask_turn_fails userInput budget s before s1 context1 e s2 :
  quietTurns (withAgentic s (Some (initialState userInput budget))) userInput
    before s1 context1 ->
  (Z.of_nat (length before) < budget)%Z ->
  turn context1 s1 = (Throws e, s2) ->
  executeAgenticTask userInput budget s = (Throws e, s2) /\
  agenticState (this s2)
    = Some (afterTurns (initialState userInput budget) (length before)).
Proof.
  intros Hq Hn Ht.
  assert (Hloop : agenticLoop (Z.to_nat budget) userInput []
            (withAgentic s (Some (initialState userInput budget)))
          = (Throws e, s2)).
  { apply agenticLoop_fails with (responses := before)
      (a := initialState userInput budget) (s1 := s1) (context1 := context1); auto.
    - simpl. lia.
    - lia. }
  split.
  - rewrite executeAgenticTask_run, Hloop. reflexivity.
  - pose proof (turn_frame context1 s1) as [Hthis _]. rewrite Ht in Hthis.
    simpl in Hthis. rewrite Hthis.
    apply (quietTurns_state _ _ _ _ _ Hq). reflexivity.
Qed.

(** *** What the turns of the agentic loop ask *)

(** [`\n\nPrevious response: ${response}`] *)
Definition previousBlock (response : str) : str :=
  nl ++ nl ++ lit "Previous response: " ++ response.

Lemma previousResponse_block context response :
  previousResponse context response = context ++ previousBlock response.
Proof. reflexivity. Qed.

Lemma getAgenticSystemPrompt_tools api api' :
  tools api' = tools api -> getAgenticSystemPrompt api' = getAgenticSystemPrompt api.
Proof. intros H. unfold getAgenticSystemPrompt. rewrite H. reflexivity. Qed.

(** The request of one turn. *)
Lemma turn_request context s r s' req :
  turn context s = (r, s') ->
  posted s' = posted s ++ [req] ->
  exists extra,
    messages req
      = [ {| role := system; content := getAgenticSystemPrompt (this s) |};
          {| role := user; content := context |} ] ++ extra /\
    model req = defaultModel (this s) /\
    temperature req = defaultTemperature /\
    max_tokens req = defaultMaxTokens.
Proof.
  unfold turn, bind, gets, newArray; simpl. intros H Hp.
  match type of H with chatCompletion ?ref ?mo ?t ?mt ?st = _ =>
    pose proof (chatCompletion_outline ref mo t mt st) as O end.
  rewrite H in O.
  inversion O as [Hnil Heq|elements lastMessage toolCall toolCalls e w Hl Hd Hc Heq
                  |elements lastMessage extra prepared Hl Hcase Heq].
  - subst s'. simpl in Hp. exfalso. apply (app_one_neq _ _ Hp).
  - subst s'. simpl in Hp. exfalso. apply (app_one_neq _ _ Hp).
  - simpl in Hl. rewrite nth_fresh in Hl.
    assert (Hposted : posted prepared = posted s).
    { destruct Hcase as [(_ & _ & ->)|(results & w & _ & _ & _ & ->)]; reflexivity. }
    match goal with Hs : withPosted _ _ _ = s' |- _ => rewrite <- Hs in Hp end.
    simpl in Hp. rewrite Hposted in Hp.
    apply app_inv_head in Hp. inversion Hp as [Hreq]. clear Hp.
    exists extra. simpl. rewrite <- Hl. repeat split; reflexivity.
Qed.

(** X15.  What the loop asks in a run of turns that returned texts with
    no completion phrase: one request per turn; the request of turn
    [k + 1] carries the agentic system prompt and then, as the user's
    message, the input followed by the first [k] responses, each behind a
    blank line and the words [Previous response: ]; it is sent with the
    default model and the default settings.  The context the next turn
    would send holds every response. *)
Theorem agentic_turns_ask s context responses s' context' :
  quietTurns s context responses s' context' ->
  context' = context ++ flat_map previousBlock responses /\
  exists requests,
    posted s' = posted s ++ requests /\
    length requests = length responses /\
    forall k req, nth_error requests k = Some req ->
      (exists extra,
         messages req
           = [ {| role := system; content := getAgenticSystemPrompt (this s) |};
               {| role := user;
                  content := context ++ flat_map previousBlock (firstn k responses) |} ]
             ++ extra) /\
      model req = defaultModel (this s) /\
      temperature req = defaultTemperature /\
      max_tokens req = defaultMaxTokens.
Proof.
  induction 1 as [s context|s context response s1 responses s2 context2 Ht _ _ IH].
  - split; [simpl; rewrite app_nil_r; reflexivity|].
    exists []. rewrite app_nil_r. split; [reflexivity|]. split; [reflexivity|].
    intros [|k] req Hk; discriminate.
  - destruct IH as (Hc & requests & Hp & Hlen & Hreq).
    destruct (turn_returns_posts _ _ _ _ Ht) as (Hthis & req0 & Hp0).
    destruct (turn_request _ _ _ _ _ Ht Hp0) as (extra0 & Hm0 & Hmodel0 & Htemp0 & Hmax0).
    split.
    { rewrite Hc, previousResponse_block, <- app_assoc. reflexivity. }
    exists (req0 :: requests). simpl in Hp. split; [|split].
    + rewrite Hp, Hp0, <- app_assoc. reflexivity.
    + simpl. rewrite Hlen. reflexivity.
    + intros [|k] req Hk; simpl in Hk.
      * inversion Hk; subst req. simpl. rewrite app_nil_r.
        split; [exists extra0; exact Hm0|auto].
      * destruct (Hreq k req Hk) as ((extra & Hm) & Hmodel & Htemp & Hmax).
        simpl in Hm, Hmodel. rewrite Hthis in Hmodel.
        rewrite (getAgenticSystemPrompt_tools (this s)) in Hm
          by (simpl; rewrite Hthis; reflexivity).
        rewrite previousResponse_block, <- app_assoc in Hm.
        repeat split; auto. exists extra. exact Hm.
Qed.

(** *** Requests written as the prompt advertises them *)

Lemma skipn_cons {A : Type} (l : list A) :
  forall i d rest,
  skipn i l = d :: rest -> nth_error l i = Some d /\ skipn (S i) l = rest.
Proof.
  induction l as [|a l IH]; intros [|i] d rest H; simpl in *; try discriminate.
  - inversion H; subst. auto.
  - apply IH. exact H.
Qed.

Lemma skipn_nil {A : Type} (l : list A) i :
  skipn i l = [] -> nth_error l i = None /\ length l <= i.
Proof.
  intros H. apply (f_equal (@length A)) in H. rewrite length_skipn in H. simpl in H.
  assert (Hl : length l <= i) by lia. split; [apply nth_error_None|]; exact Hl.
Qed.

Lemma skipn_app_rest {A : Type} (l : list A) i a b :
  skipn i l = a ++ b -> skipn (i + length a) l = b.
Proof.
  intros H. rewrite Nat.add_comm, <- skipn_skipn, H, skipn_app, skipn_all, Nat.sub_diag.
  reflexivity.
Qed.

Lemma skipn_inside {A : Type} (l tail : list A) :
  forall n, n < length l -> exists d rest, skipn n (l ++ tail) = d :: rest /\ In d l.
Proof.
  induction l as [|a l IH]; intros n Hn; [simpl in Hn; lia|].
  destruct n as [|n].
  - exists a, (l ++ tail). simpl. auto.
  - destruct (IH n) as (d & rest & Hs & Hin); [simpl in Hn; lia|].
    exists d, rest. simpl. auto.
Qed.

Section MatcherRuns.

Variable fl : flags.
Variable input : str.

(** The text [typed] is the literal [p], up to what the flags ignore. *)
Definition sameLetters (p typed : str) : Prop :=
  Forall2 (fun a b => charEq fl a b = true) p typed.

Lemma m_lits_run p :
  forall typed rest i c k,
  skipn i input = typed ++ rest ->
  sameLetters p typed ->
  m fl input (lits p) i c k = k (i + length p) c.
Proof.
  induction p as [|a p IH]; intros typed rest i c k Hs Hl;
    inversion Hl as [|? b ? typed' Hab Hrest]; subst.
  - simpl. rewrite Nat.add_0_r. reflexivity.
  - simpl in Hs. destruct (skipn_cons _ _ _ _ Hs) as [Hn Hs'].
    cbn [lits m]. unfold step. rewrite Hn, Hab.
    rewrite (IH typed' rest (S i)); auto. f_equal. simpl. lia.
Qed.

(** [\s+], and [\s*] after it: the greedy loop takes the whole gap when
    what follows the gap then matches. *)
Lemma iterate_spaces k x rest :
  (forall d rest', rest = d :: rest' -> isWhiteSpace d = false) ->
  forall gap i c fuel min,
  skipn i input = gap ++ rest ->
  Forall (fun d => isWhiteSpace d = true) gap ->
  min <= length gap -> length gap < fuel ->
  k (i + length gap) c = Some x ->
  iterate (m fl input Space) true k fuel min i c = Some x.
Proof.
  intros Hrest. induction gap as [|d gap IH]; intros i c fuel min Hs Hg Hmin Hf Hk;
    (destruct fuel as [|fuel]; [simpl in Hf; lia|]).
  - simpl in Hmin. assert (min = 0) by lia. subst min.
    simpl in Hs, Hk. rewrite Nat.add_0_r in Hk.
    cbn [iterate m]. unfold step.
    destruct rest as [|d rest'].
    + destruct (skipn_nil _ _ Hs) as [Hn _]. rewrite Hn, Hk. reflexivity.
    + destruct (skipn_cons _ _ _ _ Hs) as [Hn _].
      rewrite Hn, (Hrest d rest' eq_refl), Hk. reflexivity.
  - inversion Hg as [|? ? Hd Hg']; subst. simpl in Hs.
    destruct (skipn_cons _ _ _ _ Hs) as [Hn Hs'].
    assert (Hnext : forall min', min' <= length gap ->
              iterate (m fl input Space) true k fuel min' (S i) c = Some x).
    { intros min' Hm. apply IH; auto.
      - simpl in Hf. lia.
      - rewrite <- Hk. f_equal. simpl. lia. }
    destruct min as [|min']; cbn [iterate m]; unfold step; rewrite Hn, Hd.
    + replace (Nat.leb (S i) i) with false by (symmetry; apply Nat.leb_gt; lia).
      rewrite Hnext by lia. reflexivity.
    + rewrite Hnext; [reflexivity|simpl in Hmin; lia].
Qed.

(** [.*?]: the lazy loop stops at the first place where what follows
    matches. *)
Lemma iterate_any_lazy k x :
  forall q i c fuel tail,
  skipn i input = q ++ tail ->
  (forall d, In d q -> (dotAll fl || negb (isLineTerminator d))%bool = true) ->
  (forall j, i <= j < i + length q -> k j c = None) ->
  k (i + length q) c = Some x ->
  length q < fuel ->
  iterate (m fl input Any) false k fuel 0 i c = Some x.
Proof.
  induction q as [|d q IH]; intros i c fuel tail Hs Hq Hnone Hk Hf;
    (destruct fuel as [|fuel]; [simpl in Hf; lia|]).
  - simpl in Hk. rewrite Nat.add_0_r in Hk. cbn [iterate]. rewrite Hk. reflexivity.
  - simpl in Hs. destruct (skipn_cons _ _ _ _ Hs) as [Hn Hs'].
    cbn [iterate m]. unfold step.
    rewrite (Hnone i) by (simpl; lia).
    rewrite Hn, (Hq d) by (left; reflexivity).
    replace (Nat.leb (S i) i) with false by (symmetry; apply Nat.leb_gt; lia).
    apply IH with tail; auto.
    + intros d' Hd'. apply Hq. right. exact Hd'.
    + intros j Hj. apply Hnone. simpl. lia.
    + rewrite <- Hk. f_equal. simpl. lia.
    + simpl in Hf. lia.
Qed.

(** [(?=\.|$)] before a character that is no full stop, and before a full
    stop or the end of the text. *)
Lemma queryEnd_inside j c k d rest :
  skipn j input = d :: rest -> charEq fl 46 d = false ->
  m fl input (Look (Alt (Chr 46) Eos)) j c k = None.
Proof.
  intros Hs Hd. destruct (skipn_cons _ _ _ _ Hs) as [Hn _].
  cbn [m]. unfold step. rewrite Hn, Hd.
  replace (Nat.leb (length input) j) with false; [reflexivity|].
  symmetry. apply Nat.leb_gt. apply nth_error_Some. congruence.
Qed.

Lemma queryEnd_here j c k tail :
  skipn j input = tail -> charEq fl 46 46 = true ->
  tail = [] \/ (exists rest, tail = 46%N :: rest) ->
  m fl input (Look (Alt (Chr 46) Eos)) j c k = k j c.
Proof.
  intros Hs Hdot [->|[rest ->]].
  - destruct (skipn_nil _ _ Hs) as [Hn Hl]. cbn [m]. unfold step. rewrite Hn.
    replace (Nat.leb (length input) j) with true by (symmetry; apply Nat.leb_le; exact Hl).
    reflexivity.
  - destruct (skipn_cons _ _ _ _ Hs) as [Hn _]. cbn [m]. unfold step.
    rewrite Hn, Hdot. reflexivity.
Qed.

(** The tail of the two per-tool patterns on a gap of white space, a
    query and what ends it: group 1 is the query. *)
Lemma queryTail_run i c k x gap q tail :
  skipn i input = gap ++ q ++ tail ->
  gap <> [] -> Forall (fun d => isWhiteSpace d = true) gap ->
  q <> [] -> (forall d rest, q = d :: rest -> isWhiteSpace d = false) ->
  (forall d, In d q ->
     (dotAll fl || negb (isLineTerminator d))%bool = true /\ charEq fl 46 d = false) ->
  charEq fl 46 46 = true ->
  tail = [] \/ (exists rest, tail = 46%N :: rest) ->
  k (i + length gap + length q) (Some (i + length gap, i + length gap + length q)) = Some x ->
  m fl input queryTail i c k = Some x.
Proof.
  intros Hs Hgap Hws Hq Hfirst Hin Hdot Htail Hk.
  assert (Hlen : length gap + length q <= length input - i).
  { apply (f_equal (@length N)) in Hs. rewrite length_skipn, !length_app in Hs. lia. }
  pose proof (skipn_app_rest _ _ _ _ Hs) as Hs1.
  unfold queryTail. set (look := Look (Alt (Chr 46) Eos)). cbn [m].
  apply iterate_spaces with (rest := q ++ tail) (gap := gap); auto.
  - intros d rest' Hr. destruct q as [|d0 q']; [contradiction|].
    inversion Hr; subst. apply (Hfirst d q' eq_refl).
  - destruct gap; [contradiction|simpl; lia].
  - lia.
  - destruct q as [|d q']; [contradiction|]. clear Hq.
    set (j := i + length gap) in *.
    simpl in Hs1. destruct (skipn_cons _ _ _ _ Hs1) as [Hn Hs2].
    assert (Hfuel : exists fuel, S (length input - j) + 1 = S fuel /\ length q' < fuel).
    { exists (length input - j + 1). simpl in Hlen. unfold j. split; lia. }
    destruct Hfuel as (fuel & -> & Hfuel).
    cbn [iterate m]. unfold step. rewrite Hn.
    destruct (Hin d (or_introl eq_refl)) as [Hany _]. rewrite Hany.
    apply iterate_any_lazy with (q := q') (tail := tail); auto.
    + intros d' Hd'. apply Hin. right. exact Hd'.
    + intros j' Hj'.
      destruct (skipn_inside q' tail (j' - S j)) as (d' & rest & Hd' & Hind'); [lia|].
      unfold look. apply queryEnd_inside with d' rest.
      * rewrite <- Hd', <- Hs2, skipn_skipn. f_equal. lia.
      * apply Hin. right. exact Hind'.
    + unfold look. rewrite (queryEnd_here _ _ _ tail); auto.
      * rewrite <- Hk. simpl. f_equal; [lia|]. do 2 f_equal. lia.
      * replace (S j + length q') with (S j + length q') by reflexivity.
        apply (skipn_app_rest _ _ _ _ Hs2).
Qed.

Lemma m_seq_lits_run p r typed rest i c k :
  skipn i input = typed ++ rest ->
  sameLetters p typed ->
  m fl input (Seq (lits p) r) i c k = m fl input r (i + length p) c k /\
  skipn (i + length p) input = rest.
Proof.
  intros Hs Hl. split.
  - change (m fl input (Seq (lits p) r) i c k)
      with (m fl input (lits p) i c (fun j c' => m fl input r j c' k)).
    rewrite (m_lits_run p typed rest); auto.
  - rewrite (Forall2_length Hl). apply skipn_app_rest. exact Hs.
Qed.

(** A pattern made of a literal and the tail, on a text that starts with
    the literal as typed: the first match starts the text, and group 1 is
    the query. *)
Lemma queryTail_exec r typed gap q tail :
  input = typed ++ gap ++ q ++ tail ->
  (exists a,
     skipn a input = gap ++ q ++ tail /\
     forall k, m fl input r 0 None k = m fl input queryTail a None k) ->
  gap <> [] -> Forall (fun d => isWhiteSpace d = true) gap ->
  q <> [] -> (forall d rest, q = d :: rest -> isWhiteSpace d = false) ->
  (forall d, In d q ->
     (dotAll fl || negb (isLineTerminator d))%bool = true /\ charEq fl 46 d = false) ->
  charEq fl 46 46 = true ->
  tail = [] \/ (exists rest, tail = 46%N :: rest) ->
  exists a e c, exec fl input r 0 = Some (a, e, c) /\ group1 input c = q.
Proof.
  intros Hinput (a & Hs & Hr) Hgap Hws Hq Hfirst Hin Hdot Htail.
  exists 0, (a + length gap + length q),
    (Some (a + length gap, a + length gap + length q)).
  split.
  - unfold exec. rewrite Nat.sub_0_r. cbn [scan]. unfold matchAt. rewrite Hr.
    rewrite (queryTail_run a None _ (a + length gap + length q,
                                     Some (a + length gap, a + length gap + length q))
               gap q tail); auto.
  - unfold group1, slice.
    rewrite (skipn_app_rest _ _ _ _ Hs).
    replace (a + length gap + length q - (a + length gap)) with (length q) by lia.
    rewrite firstn_app, firstn_all, Nat.sub_diag. simpl. apply app_nil_r.
Qed.

End MatcherRuns.

Lemma charEq_dot d : d <> 46%N -> charEq perToolFlags 46 d = false.
Proof.
  intros H. unfold charEq, canonicalize. simpl ignoreCase. cbv iota.
  change (N.leb 97 46 && N.leb 46 122)%bool with false. cbv iota.
  destruct (N.leb 97 d && N.leb d 122)%bool eqn:E; apply N.eqb_neq.
  - apply andb_true_iff in E. destruct E as [E1 E2].
    apply N.leb_le in E1. apply N.leb_le in E2. lia.
  - congruence.
Qed.

Lemma usePattern_start name typed rest :
  sameLetters perToolFlags (lit "use " ++ name ++ lit " tool with") typed ->
  exists a,
    skipn a (typed ++ rest) = rest /\
    forall k, m perToolFlags (typed ++ rest) (usePattern name) 0 None k
              = m perToolFlags (typed ++ rest) queryTail a None k.
Proof.
  intros H.
  apply Forall2_app_inv_l in H. destruct H as (t1 & t23 & H1 & H23 & ->).
  apply Forall2_app_inv_l in H23. destruct H23 as (t2 & t3 & H2 & H3 & ->).
  set (input := (t1 ++ t2 ++ t3) ++ rest).
  assert (Hs0 : skipn 0 input = t1 ++ (t2 ++ t3 ++ rest)).
  { unfold input. simpl. rewrite <- !app_assoc. reflexivity. }
  exists (0 + length (lit "use ") + length name + length (lit " tool with")).
  destruct (m_seq_lits_run perToolFlags input (lit "use ") queryTail t1 _ 0 None
              (fun j c => Some (j, c)) Hs0 H1) as [_ Hs1].
  destruct (m_seq_lits_run perToolFlags input name queryTail t2 _ _ None
              (fun j c => Some (j, c)) Hs1 H2) as [_ Hs2].
  destruct (m_seq_lits_run perToolFlags input (lit " tool with") queryTail t3 _ _ None
              (fun j c => Some (j, c)) Hs2 H3) as [_ Hs3].
  split; [exact Hs3|]. intros k. unfold usePattern.
  rewrite (proj1 (m_seq_lits_run perToolFlags input (lit "use ") _ t1 _ 0 None k Hs0 H1)).
  rewrite (proj1 (m_seq_lits_run perToolFlags input name _ t2 _ _ None k Hs1 H2)).
  rewrite (proj1 (m_seq_lits_run perToolFlags input (lit " tool with") _ t3 _ _ None k Hs2 H3)).
  reflexivity.
Qed.

Lemma slashPattern_start name typed rest :
  sameLetters perToolFlags ([47%N] ++ name) typed ->
  exists a,
    skipn a (typed ++ rest) = rest /\
    forall k, m perToolFlags (typed ++ rest) (slashPattern name) 0 None k
              = m perToolFlags (typed ++ rest) queryTail a None k.
Proof.
  intros H.
  apply Forall2_app_inv_l in H. destruct H as (t1 & t2 & H1 & H2 & ->).
  set (input := (t1 ++ t2) ++ rest).
  assert (Hs0 : skipn 0 input = t1 ++ (t2 ++ rest)).
  { unfold input. simpl. rewrite <- !app_assoc. reflexivity. }
  exists (0 + length [47%N] + length name).
  destruct (m_seq_lits_run perToolFlags input [47%N] queryTail t1 _ 0 None
              (fun j c => Some (j, c)) Hs0 H1) as [_ Hs1].
  destruct (m_seq_lits_run perToolFlags input name queryTail t2 _ _ None
              (fun j c => Some (j, c)) Hs1 H2) as [_ Hs2].
  split; [exact Hs2|]. intros k. unfold slashPattern.
  change (m perToolFlags input (Seq (Chr 47) (Seq (lits name) queryTail)) 0 None k)
    with (m perToolFlags input (Seq (lits [47%N]) (Seq (lits name) queryTail)) 0 None k).
  rewrite (proj1 (m_seq_lits_run perToolFlags input [47%N] _ t1 _ 0 None k Hs0 H1)).
  rewrite (proj1 (m_seq_lits_run perToolFlags input name _ t2 _ _ None k Hs1 H2)).
  reflexivity.
Qed.

(** A registry whose names hold no pattern syntax.  For such a registry
    [new RegExp] builds both patterns of every tool, and they are
    [usePattern] and [slashPattern]: detection does not throw. *)
Definition plainRegistry (api : LMStudioAPI) : bool :=
  forallb plainName (Map_keys (tools api)).

(** A request typed in one of the two per-tool forms is among the
    matches of its tool. *)
Lemma typed_request_matches name typed gap q tail :
  sameLetters perToolFlags (lit "use " ++ name ++ lit " tool with") typed \/
  sameLetters perToolFlags ([47%N] ++ name) typed ->
  gap <> [] -> Forall (fun d => isWhiteSpace d = true) gap ->
  (exists d rest, q = d :: rest /\ isWhiteSpace d = false) ->
  (forall d, In d q -> isLineTerminator d = false /\ d <> 46%N) ->
  tail = [] \/ (exists rest, tail = 46%N :: rest) ->
  In {| callName := JString name;
        callParameters := JObject [(lit "query", JString (trim q))] |}
     (toolMatches (typed ++ gap ++ q ++ tail) name).
Proof.
  intros Htyped Hgap Hws (d0 & rest0 & Hq & Hd0) Hin Htail.
  assert (Hrun : forall r,
            (exists a,
               skipn a (typed ++ gap ++ q ++ tail) = gap ++ q ++ tail /\
               forall k, m perToolFlags (typed ++ gap ++ q ++ tail) r 0 None k
                         = m perToolFlags (typed ++ gap ++ q ++ tail) queryTail a None k) ->
            In {| callName := JString name;
                  callParameters := JObject [(lit "query", JString (trim q))] |}
               (optList (firstMatch r name (typed ++ gap ++ q ++ tail)))).
  { intros r Hr.
    destruct (queryTail_exec perToolFlags (typed ++ gap ++ q ++ tail) r typed gap q tail)
      as (a & e & c & Hexec & Hgroup); auto.
    - rewrite Hq. discriminate.
    - intros d rest Hd. rewrite Hq in Hd. inversion Hd; subst. exact Hd0.
    - intros d Hd. destruct (Hin d Hd) as [Hline Hdot]. split.
      + rewrite Hline. reflexivity.
      + apply charEq_dot. exact Hdot.
    - unfold firstMatch. rewrite Hexec. unfold queryCall. rewrite Hgroup.
      left. reflexivity. }
  unfold toolMatches. apply in_or_app. destruct Htyped as [Huse|Hslash].
  - left. apply Hrun. apply usePattern_start. exact Huse.
  - right. apply Hrun. apply slashPattern_start. exact Hslash.
Qed.

(** X16.  A request written as the prompt advertises it is detected.
    In a registry of plain names (letters, digits and underscores), a
    text that begins with [use <name> tool with] or with [/<name>] for a
    registered name, in any letter case, then white space, then a query
    that starts with no white space and holds no full stop and no line
    break, and that ends there or goes on with a full stop, yields a call
    of the tool under its registered name, with the query, trimmed, as
    the parameter [query]. *)
Theorem typed_requests_detected api name typed gap q tail :
  plainRegistry api = true ->
  In name (Map_keys (tools api)) ->
  sameLetters perToolFlags (lit "use " ++ name ++ lit " tool with") typed \/
  sameLetters perToolFlags ([47%N] ++ name) typed ->
  gap <> [] -> Forall (fun d => isWhiteSpace d = true) gap ->
  (exists d rest, q = d :: rest /\ isWhiteSpace d = false) ->
  (forall d, In d q -> isLineTerminator d = false /\ d <> 46%N) ->
  tail = [] \/ (exists rest, tail = 46%N :: rest) ->
  In {| callName := JString name;
        callParameters := JObject [(lit "query", JString (trim q))] |}
     (detectToolRequests api (typed ++ gap ++ q ++ tail)).
Proof.
  intros _ Hname Htyped Hgap Hws Hq Hin Htail.
  rewrite detectToolRequests_parts. apply in_or_app. right.
  apply in_flat_map. exists name. split; [exact Hname|].
  apply typed_request_matches; assumption.
Qed.

(** *** From a typed request to its tool *)

(** A block a registered tool gave: its result, or its error. *)
Definition ranBlock (registry : ToolMap) (block : str) : Prop :=
  exists name tool,
    Map_get registry name = Some tool /\
    ((exists payload, block = successBlock name payload) \/
     (exists e, block = errorBlock name e)).

Lemma chainBlocks_ran api w toolCalls blocks w' :
  chainBlocks (tools api) w toolCalls blocks w' ->
  Forall (queryCandidate api) toolCalls ->
  Forall (ranBlock (tools api)) blocks.
Proof.
  induction 1 as [|w toolCall block w1 rest blocks w2 Hcall _ IH]; intros Hc;
    [constructor|].
  inversion Hc as [|? ? (name & q & Hname & Hcand & _) Hrest]; subst.
  constructor; [|apply IH; exact Hrest].
  inversion Hcall as [? ? ? Hget|? ? ? tool payload ? Hget Hh|? ? ? tool e ? Hget Hh]; subst.
  - apply Map_get_None_keys in Hget. contradiction.
  - exists name, tool. split; [exact Hget|]. left. eauto.
  - exists name, tool. split; [exact Hget|]. right. eauto.
Qed.

(** X17.  Detection and the invoker agree on the names.  In a registry
    of plain names (letters, digits and underscores), on a text with no
    opening bracket, every request detected reaches a registered tool:
    the chain returns one block per request, each the result or the error
    of a registered tool, never [Unknown tool], and it does not throw. *)
Theorem typed_requests_reach_their_tools s content :
  plainRegistry (this s) = true ->
  (forall d, In d content -> d <> 91%N) ->
  exists blocks w',
    processToolChain (detectToolRequests (this s) content) s
      = (Returns blocks, withWorld s w') /\
    length blocks = length (detectToolRequests (this s) content) /\
    Forall (ranBlock (tools (this s))) blocks.
Proof.
  intros _ H.
  pose proof (queryCandidates_without_bracket (this s) content H) as Hc.
  assert (Hn : Forall stringNamed (detectToolRequests (this s) content)).
  { eapply Forall_impl; [|exact Hc].
    intros toolCall (name & q & _ & -> & _). exists name. reflexivity. }
  destruct (processToolChainFrom_blocks _ Hn [] s) as (blocks & w' & Hrun & Hb).
  exists blocks, w'. split; [exact Hrun|]. split.
  - eapply chainBlocks_length; eauto.
  - eapply chainBlocks_ran; eauto.
Qed.

(** *** What the prompts hold *)

Lemma join_In sep x l :
  In x l -> exists before after, join sep l = before ++ x ++ after.
Proof.
  induction l as [|a l IH]; intros Hin; [destruct Hin|].
  destruct Hin as [->|Hin].
  - destruct l as [|b l].
    + exists [], []. simpl. rewrite app_nil_r. reflexivity.
    + exists [], (sep ++ join sep (b :: l)). reflexivity.
  - destruct (IH Hin) as (before & after & Hj).
    destruct l as [|b l]; [destruct Hin|].
    exists (a ++ sep ++ before), after.
    change (join sep (a :: b :: l)) with (a ++ sep ++ join sep (b :: l)).
    rewrite Hj, <- !app_assoc. reflexivity.
Qed.

Lemma recognized_cases mode :
  recognized mode = true -> In mode recognizedModes.
Proof.
  unfold recognized. intros H. apply existsb_exists in H.
  destruct H as (known & Hin & Heq). apply eqb_eq in Heq. subst. exact Hin.
Qed.


Lemma includes_app_l a text part :
  includes text part = true -> includes (a ++ text) part = true.
Proof.
  rewrite !includes_spec. intros (before & after & ->).
  exists (a ++ before), after. rewrite <- app_assoc. reflexivity.
Qed.

Lemma includes_app_r a text part :
  includes text part = true -> includes (text ++ a) part = true.
Proof.
  rewrite !includes_spec. intros (before & after & ->).
  exists before, (after ++ a). rewrite <- !app_assoc. reflexivity.
Qed.

Lemma includes_join sep x l : In x l -> includes (join sep l) x = true.
Proof.
  intros H. apply includes_spec. apply join_In. exact H.
Qed.

Lemma recognized_prompt_shape api mode :
  recognized mode = true ->
  exists preamble,
    getSystemPrompt api mode
    = Own (preamble ++ lit " " ++ toolInstructions api
           ++ lit " Here are your protocols: " ++ protocolEcho api mode).
Proof.
  intros H. apply recognized_cases in H. unfold recognizedModes in H.
  assert (Hp : exists p,
            getProtocols api mode = Own p /\
            getSystemPrompt api mode
            = Own ((directive p ++ lit " " ++ protocolContext p ++ lit " " ++ rationale p)
                   ++ lit " " ++ toolInstructions api ++ lit " Here are your protocols: "
                   ++ JSON_stringify (protocolsJson p))).
  { repeat (destruct H as [<-|H]; [eexists; split; reflexivity|]). destruct H. }
  destruct Hp as (p & Hg & Hs). eexists. rewrite Hs. unfold protocolEcho. rewrite Hg.
  reflexivity.
Qed.

(** X19.  Every registered tool is advertised: its usage entry, with its
    name, its description, its parameters and the three request forms,
    stands in the agentic system prompt and in the system prompt of each
    of the six modes. *)
Theorem prompts_advertise_tools api tool :
  In tool (Map_values (tools api)) ->
  includes (getAgenticSystemPrompt api) (usageEntry [] tool) = true /\
  (forall mode, recognized mode = true ->
     exists text,
       getSystemPrompt api mode = Own text /\
       includes text (usageEntry (lit "    ") tool) = true).
Proof.
  intros Hin. split.
  - unfold getAgenticSystemPrompt. do 5 apply includes_app_l. apply includes_app_r.
    apply includes_join. apply in_map. exact Hin.
  - intros mode Hm. destruct (recognized_prompt_shape api mode Hm) as (preamble & ->).
    eexists. split; [reflexivity|].
    do 2 apply includes_app_l. apply includes_app_r.
    unfold toolInstructions, getAvailableTools.
    destruct (Map_values (tools api)) as [|t0 ts] eqn:E; [destruct Hin|].
    cbn [length Nat.ltb Nat.leb].
    do 4 apply includes_app_l. apply includes_app_r.
    apply includes_join. apply in_map. exact Hin.
Qed.


(** *** Where a scan finds its match *)

Section MatcherSpans.

Variable fl : flags.
Variable input : str.

Lemma scan_finds r n e c :
  forall fuel start,
  (forall i, start <= i < n -> matchAt fl input r i = None) ->
  matchAt fl input r n = Some (e, c) ->
  start <= n -> n - start < fuel ->
  scan fl input r fuel start = Some (n, e, c).
Proof.
  induction fuel as [|fuel IH]; intros start Hnone Hm Hle Hf; [lia|].
  cbn [scan]. destruct (Nat.eq_dec start n) as [->|Hneq].
  - rewrite Hm. reflexivity.
  - rewrite (Hnone start) by lia. apply IH; auto; try lia.
    intros i Hi. apply Hnone. lia.
Qed.

Lemma scan_none_from r :
  forall fuel start,
  (forall i, start <= i -> matchAt fl input r i = None) ->
  scan fl input r fuel start = None.
Proof.
  induction fuel as [|fuel IH]; intros start Hnone; [reflexivity|].
  cbn [scan]. rewrite Hnone by lia. apply IH. intros i Hi. apply Hnone. lia.
Qed.

(** No match starts at a character the pattern cannot start with, nor
    past the end of the text. *)
Lemma matchAt_firstChar r p i :
  firstChar r = Some p ->
  (forall d, nth_error input i = Some d -> charEq fl p d = false) ->
  matchAt fl input r i = None.
Proof.
  intros Hf Hd. unfold matchAt. apply (m_firstChar fl input r p Hf). exact Hd.
Qed.

Lemma sameLetters_refl p :
  (forall a, In a p -> charEq fl a a = true) -> sameLetters fl p p.
Proof.
  induction p as [|a p IH]; intros H; constructor.
  - apply H. left. reflexivity.
  - apply IH. intros b Hb. apply H. right. exact Hb.
Qed.

End MatcherSpans.

(** *** The base URL *)

Section SuffixPatterns.

Variable input : str.

Lemma m_lits_plain p :
  forall i c k,
  m plainFlags input (lits p) i c k
  = if startsWith p (skipn i input) then k (i + length p) c else None.
Proof.
  induction p as [|a p IH]; intros i c k.
  - simpl. rewrite Nat.add_0_r. reflexivity.
  - cbn [lits m]. unfold step.
    destruct (skipn i input) as [|d rest] eqn:Hs.
    + destruct (skipn_nil _ _ Hs) as [Hn _]. rewrite Hn. reflexivity.
    + destruct (skipn_cons _ _ _ _ Hs) as [Hn Hs']. rewrite Hn.
      unfold charEq. simpl. destruct (N.eqb a d); [|reflexivity].
      rewrite IH, Hs'. simpl. destruct (startsWith p rest); [|reflexivity].
      f_equal. lia.
Qed.

(** A literal followed by [$] matches at [i] exactly when the literal is
    what is left of the text from [i]. *)
Lemma matchAt_suffix p i :
  p <> [] ->
  matchAt plainFlags input (Seq (lits p) Eos) i
  = if JsString.eqb (skipn i input) p then Some (length input, None) else None.
Proof.
  intros Hp. unfold matchAt.
  change (m plainFlags input (Seq (lits p) Eos) i None (fun j c => Some (j, c)))
    with (m plainFlags input (lits p) i None
            (fun j c => if Nat.leb (length input) j then Some (j, c) else None)).
  rewrite m_lits_plain.
  destruct (JsString.eqb (skipn i input) p) eqn:E.
  - apply eqb_eq in E.
    assert (Hs : startsWith p (skipn i input) = true).
    { apply startsWith_spec. exists []. rewrite app_nil_r. exact E. }
    assert (Hl : length input = i + length p).
    { pose proof (f_equal (@length N) E) as L. rewrite length_skipn in L.
      destruct p; [contradiction|]. simpl in L. simpl. lia. }
    rewrite Hs, <- Hl, Nat.leb_refl. reflexivity.
  - destruct (startsWith p (skipn i input)) eqn:Hs; [|reflexivity].
    apply startsWith_spec in Hs. destruct Hs as [rest Hs].
    destruct (Nat.leb (length input) (i + length p)) eqn:Hl; [|reflexivity].
    apply Nat.leb_le in Hl.
    pose proof (f_equal (@length N) Hs) as L. rewrite length_skipn, length_app in L.
    assert (rest = []) by (destruct rest; [reflexivity|simpl in L; lia]). subst rest.
    rewrite app_nil_r in Hs. apply eqb_eq in Hs. congruence.
Qed.

End SuffixPatterns.

(** [String.prototype.replace] with a pattern without the g flag: the
    first match only is replaced. *)
Definition replaceFirst (fl : flags) (input : str) (r : regex) (by_ : str) : str :=
  match exec fl input r 0 with
  | None => input
  | Some (s, e, _) => slice input 0 s ++ by_ ++ skipn e input
  end.

(** Replacing a literal at the end of the text by nothing. *)
Lemma replaceFirst_suffix front p :
  p <> [] -> replaceFirst plainFlags (front ++ p) (Seq (lits p) Eos) [] = front.
Proof.
  intros Hp. unfold replaceFirst, exec. rewrite Nat.sub_0_r.
  rewrite (scan_finds plainFlags (front ++ p) (Seq (lits p) Eos) (length front)
             (length (front ++ p)) None).
  - unfold slice. rewrite Nat.sub_0_r. simpl skipn at 1.
    rewrite firstn_app, firstn_all, Nat.sub_diag, skipn_all. simpl.
    rewrite !app_nil_r. reflexivity.
  - intros i Hi. rewrite matchAt_suffix by exact Hp.
    destruct (JsString.eqb (skipn i (front ++ p)) p) eqn:E; [|reflexivity].
    apply eqb_eq in E. apply (f_equal (@length N)) in E.
    rewrite length_skipn, length_app in E. lia.
  - rewrite matchAt_suffix by exact Hp.
    rewrite skipn_app, skipn_all, Nat.sub_diag. simpl.
    rewrite (proj2 (eqb_eq p p) eq_refl). reflexivity.
  - lia.
  - rewrite length_app. lia.
Qed.

Lemma replaceFirst_no_suffix input p :
  p <> [] -> (forall front, input <> front ++ p) ->
  replaceFirst plainFlags input (Seq (lits p) Eos) [] = input.
Proof.
  intros Hp Hno. unfold replaceFirst, exec.
  rewrite scan_none_from; [reflexivity|].
  intros i _. rewrite matchAt_suffix by exact Hp.
  destruct (JsString.eqb (skipn i input) p) eqn:E; [|reflexivity].
  apply eqb_eq in E. exfalso. apply (Hno (firstn i input)).
  rewrite <- E. symmetry. apply firstn_skipn.
Qed.

(** [/\/$/] and [/\/v1$/] *)
Definition trailingSlash : regex := Seq (lits (lit "/")) Eos.

Definition trailingV1 : regex := Seq (lits (lit "/v1")) Eos.

Definition setBaseUrl (api : LMStudioAPI) (url : str) : LMStudioAPI :=
  let base := replaceFirst plainFlags url trailingSlash [] in
  let base := replaceFirst plainFlags base trailingV1 [] in
  {| baseUrl := base; defaultModel := defaultModel api; tools := tools api;
     agenticState := agenticState api |}.

Definition setDefaultModel (api : LMStudioAPI) (model : str) : LMStudioAPI :=
  {| baseUrl := baseUrl api; defaultModel := model; tools := tools api;
     agenticState := agenticState api |}.

Definition getDefaultModel (api : LMStudioAPI) : str := defaultModel api.

Definition getBaseUrl (api : LMStudioAPI) : str := baseUrl api.

Lemma other_last_unit (text front : str) (a b : N) :
  a <> b -> text ++ [a] <> front ++ [b].
Proof.
  intros Hab H. apply app_inj_tail in H. destruct H as [_ H]. contradiction.
Qed.

(** X20.  The four spellings of a server's address give the same base
    URL: for a [base] that ends neither in a slash nor in [/v1],
    [setBaseUrl] on [base], [base/], [base/v1] and [base/v1/] leaves
    [base], and touches nothing else of the object.  One layer only is
    removed: of two slashes at the end, one stays. *)
Theorem setBaseUrl_normalizes api base :
  (forall front, base <> front ++ lit "/") ->
  (forall front, base <> front ++ lit "/v1") ->
  (forall suffix, In suffix [ []; lit "/"; lit "/v1"; lit "/v1/" ] ->
     setBaseUrl api (base ++ suffix)
     = {| baseUrl := base; defaultModel := defaultModel api; tools := tools api;
          agenticState := agenticState api |}) /\
  (forall url, getBaseUrl (setBaseUrl api (url ++ lit "//")) = url ++ lit "/").
Proof.
  intros Hslash Hv1.
  assert (Hp1 : lit "/" <> []) by discriminate.
  assert (Hp2 : lit "/v1" <> []) by discriminate.
  split.
  - intros suffix Hin. unfold setBaseUrl, trailingSlash, trailingV1. f_equal.
    destruct Hin as [<-|[<-|[<-|[<-|[]]]]].
    + rewrite app_nil_r.
      rewrite (replaceFirst_no_suffix base (lit "/") Hp1 Hslash).
      apply (replaceFirst_no_suffix base (lit "/v1") Hp2 Hv1).
    + rewrite (replaceFirst_suffix base (lit "/") Hp1).
      apply (replaceFirst_no_suffix base (lit "/v1") Hp2 Hv1).
    + rewrite (replaceFirst_no_suffix (base ++ lit "/v1") (lit "/") Hp1).
      * apply (replaceFirst_suffix base (lit "/v1") Hp2).
      * intros front. change (lit "/v1") with (lit "/v" ++ [49%N]).
        rewrite app_assoc. apply other_last_unit. discriminate.
    + change (lit "/v1/") with (lit "/v1" ++ lit "/"). rewrite app_assoc.
      rewrite (replaceFirst_suffix (base ++ lit "/v1") (lit "/") Hp1).
      apply (replaceFirst_suffix base (lit "/v1") Hp2).
  - intros url. unfold getBaseUrl, setBaseUrl, trailingSlash, trailingV1. cbn [baseUrl].
    change (lit "//") with (lit "/" ++ lit "/"). rewrite app_assoc.
    rewrite (replaceFirst_suffix (url ++ lit "/") (lit "/") Hp1).
    apply (replaceFirst_no_suffix (url ++ lit "/") (lit "/v1") Hp2).
    intros front. change (lit "/v1") with (lit "/v" ++ [49%N]).
    rewrite app_assoc. apply other_last_unit. discriminate.
Qed.

(** *** The fallback when the server is away *)

(** [axios.get]: the status of the response, or the request fails. *)
Variable axios_get : str -> World -> Completion Z * World.

Definition testConnection : M bool :=
  tryCatch
    (base <- gets (fun s => baseUrl (this s)) ;;
     status <- inWorld (axios_get (base ++ lit "/v1/models")) ;;
     ret (Z.eqb status 200))
    (fun _ => ret false).

(** The notice starts with a warning sign, U+26A0 U+FE0F. *)
Definition offlineNotice : str :=
  [9888%N; 65039%N] ++ lit " Claire is currently offline. Please check that your local AI server (LM Studio) is running, or configure a cloud AI provider in settings.".

Definition chatCompletionWithFallback (messages : nat) (model : str)
    (temperature : spec_float) (maxTokens : Z) : M str :=
  isConnected <- testConnection ;;
  if negb isConnected then ret offlineNotice
  else chatCompletion messages model temperature maxTokens.

(** The probe [testConnection] sends in the state [s], and whether it
    finds the server. *)
Definition probe (s : State) : Completion Z * World :=
  axios_get (baseUrl (this s) ++ lit "/v1/models") (world s).

Definition online (s : State) : bool :=
  match fst (probe s) with
  | Returns status => Z.eqb status 200
  | Throws _ => false
  end.

Lemma testConnection_run s :
  testConnection s = (Returns (online s), withWorld s (snd (probe s))).
Proof.
  unfold testConnection, tryCatch, bind, gets, inWorld, ret, online, probe; simpl.
  destruct (axios_get _ (world s)) as [[status|e] w]; reflexivity.
Qed.

(** X21.  The fallback asks the server first, and only then looks at the
    messages.  When the probe fails or is answered with a status other
    than 200, the call returns the offline notice: it does not throw,
    even on messages on which [chatCompletion] throws, no tool is run,
    nothing is posted and no array is made.  When the probe is answered
    with 200, the call is [chatCompletion] in the world the probe left:
    one request at most is posted. *)
Theorem chatCompletionWithFallback_asks_first ref modelName temp maxTokens s :
  let asked := withWorld s (snd (probe s)) in
  let s' := snd (chatCompletionWithFallback ref modelName temp maxTokens s) in
  testConnection s = (Returns (online s), asked) /\
  (online s = false ->
     chatCompletionWithFallback ref modelName temp maxTokens s
       = (Returns offlineNotice, asked)) /\
  (online s = true ->
     chatCompletionWithFallback ref modelName temp maxTokens s
       = chatCompletion ref modelName temp maxTokens asked) /\
  this s' = this s /\
  (posted s' = posted s \/ exists req, posted s' = posted s ++ [req]).
Proof.
  cbv zeta. pose proof (testConnection_run s) as Ht.
  assert (Hrun : chatCompletionWithFallback ref modelName temp maxTokens s
                 = if online s
                   then chatCompletion ref modelName temp maxTokens
                          (withWorld s (snd (probe s)))
                   else (Returns offlineNotice, withWorld s (snd (probe s)))).
  { unfold chatCompletionWithFallback, bind. rewrite Ht.
    destruct (online s); reflexivity. }
  split; [exact Ht|]. rewrite Hrun.
  split; [intros ->; reflexivity|]. split; [intros ->; reflexivity|].
  destruct (online s).
  - destruct (chatCompletion_frame ref modelName temp maxTokens
                (withWorld s (snd (probe s)))) as (Hthis & _ & Hposted).
    split; assumption.
  - split; [reflexivity|left; reflexivity].
Qed.

(** *** Suggestions *)

Definition toolKeywords : list (str * list str) :=
  [ (lit "search_wikipedia",
     [lit "search"; lit "find"; lit "look up"; lit "research"; lit "wikipedia";
      lit "information about"]);
    (lit "analyze_text",
     [lit "analyze"; lit "sentiment"; lit "keywords"; lit "readability"; lit "analysis"]);
    (lit "summarize_content",
     [lit "summarize"; lit "summary"; lit "key points"; lit "tldr"; lit "brief"]);
    (lit "plan_task",
     [lit "plan"; lit "steps"; lit "break down"; lit "organize"; lit "schedule";
      lit "task"]) ].

(** [keywords.some((keyword) => input.includes(keyword))] *)
Definition mentions (input : str) (keywords : list str) : bool :=
  existsb (fun keyword => includes input keyword) keywords.

(** The body of the loop of [suggestTools].  [suggestions.includes(tool)]
    compares objects; a tool of the registry is known here by the name it
    is registered under, each registration holding an object of its own,
    so the suggestions are kept with that name. *)
Definition suggestStep (api : LMStudioAPI) (input : str)
    (suggestions : list (str * Tool)) (entry : str * list str) : list (str * Tool) :=
  let (toolName, keywords) := entry in
  if mentions input keywords then
    match Map_get (tools api) toolName with
    | Some tool =>
        if existsb (fun known => JsString.eqb (fst known) toolName) suggestions
        then suggestions
        else push suggestions (toolName, tool)
    | None => suggestions
    end
  else suggestions.

Definition suggestTools (api : LMStudioAPI) (userInput : str) : list Tool :=
  let input := toLowerCase userInput in
  map snd (fold_left (suggestStep api input) toolKeywords []).

(** What one entry of the table contributes. *)
Definition suggested (api : LMStudioAPI) (input : str) (entry : str * list str)
    : list Tool :=
  if mentions input (snd entry) then optList (Map_get (tools api) (fst entry)) else [].

Lemma suggestTools_entries api userInput :
  suggestTools api userInput
  = flat_map (suggested api (toLowerCase userInput)) toolKeywords.
Proof.
  unfold suggestTools, toolKeywords.
  cbn [fold_left flat_map]. unfold suggestStep, suggested. cbn [fst snd].
  repeat match goal with
         | |- context [mentions ?i ?l] => destruct (mentions i l)
         | |- context [Map_get (tools api) ?n] => destruct (Map_get (tools api) n)
         end; reflexivity.
Qed.

(** X22.  A tool is suggested exactly when it is registered under one of
    the four names of the keyword table and the input, in lower case,
    holds one of the keywords of that name, anywhere, also inside a
    longer word.  There are at most four suggestions. *)
Theorem suggestTools_spec api userInput tool :
  (In tool (suggestTools api userInput) <->
   exists name keywords keyword,
     In (name, keywords) toolKeywords /\
     In keyword keywords /\
     includes (toLowerCase userInput) keyword = true /\
     Map_get (tools api) name = Some tool) /\
  length (suggestTools api userInput) <= 4.
Proof.
  rewrite suggestTools_entries. split.
  - rewrite in_flat_map. split.
    + intros ([name keywords] & Hentry & Hin). unfold suggested in Hin. simpl in Hin.
      destruct (mentions (toLowerCase userInput) keywords) eqn:Hm; [|destruct Hin].
      apply existsb_exists in Hm. destruct Hm as (keyword & Hk & Hinc).
      destruct (Map_get (tools api) name) as [found|] eqn:Hget; [|destruct Hin].
      destruct Hin as [<-|[]]. exists name, keywords, keyword. auto.
    + intros (name & keywords & keyword & Hentry & Hk & Hinc & Hget).
      exists (name, keywords). split; [exact Hentry|].
      unfold suggested. simpl.
      replace (mentions (toLowerCase userInput) keywords) with true.
      * rewrite Hget. left. reflexivity.
      * symmetry. apply existsb_exists. eauto.
  - unfold toolKeywords. cbn [flat_map]. rewrite !length_app.
    assert (Hone : forall entry,
              length (suggested api (toLowerCase userInput) entry) <= 1).
    { intros entry. unfold suggested.
      destruct (mentions _ _); [|simpl; lia].
      destruct (Map_get _ _); simpl; lia. }
    repeat match goal with
           | |- context [length (suggested api ?i ?e)] =>
               pose proof (Hone e); generalize dependent (length (suggested api i e));
               intros
           end.
    simpl. lia.
Qed.


(** *** A literal, anything, a literal *)

Section OneSpan.

Variable fl : flags.
Variable input : str.

Lemma nth_error_before (before rest : str) i d :
  input = before ++ rest -> i < length before ->
  nth_error input i = Some d -> In d before.
Proof.
  intros -> Hi Hn. rewrite nth_error_app1 in Hn by exact Hi.
  apply nth_error_In with i. exact Hn.
Qed.

Lemma nth_error_after (before rest : str) i d :
  input = before ++ rest -> length before <= i ->
  nth_error input i = Some d -> In d rest.
Proof.
  intros -> Hi Hn. rewrite nth_error_app2 in Hn by exact Hi.
  apply nth_error_In with (i - length before). exact Hn.
Qed.

(** A text with one match of the pattern: the match is replaced and the
    rest is kept. *)
Lemma replaceAll_one_span r by_ before span after c :
  input = before ++ span ++ after ->
  span <> [] ->
  (forall i, i < length before -> matchAt fl input r i = None) ->
  matchAt fl input r (length before) = Some (length before + length span, c) ->
  (forall i, length before + length span <= i -> matchAt fl input r i = None) ->
  replaceAll fl input r by_ = before ++ by_ ++ after.
Proof.
  intros Hinput Hspan Hbefore Hm Hafter.
  assert (Hlen : length input = length before + length span + length after).
  { rewrite Hinput, !length_app. lia. }
  assert (Hpos : 0 < length span) by (destruct span; [contradiction|simpl; lia]).
  unfold replaceAll. cbn [replaceFrom]. unfold exec at 1. rewrite Nat.sub_0_r.
  rewrite (scan_finds fl input r (length before) (length before + length span) c);
    auto; try lia.
  2:{ intros i Hi. apply Hbefore. lia. }
  replace (Nat.eqb (length before + length span) (length before)) with false
    by (symmetry; apply Nat.eqb_neq; lia).
  cbn [replaceFrom]. unfold exec.
  rewrite scan_none_from by exact Hafter.
  assert (Hrest : skipn (length before + length span) input = after).
  { rewrite <- length_app. apply (skipn_app_rest input 0 (before ++ span) after).
    rewrite Hinput, <- app_assoc. reflexivity. }
  assert (Hfront : slice input 0 (length before) = before).
  { unfold slice. rewrite Nat.sub_0_r, Hinput. simpl skipn.
    rewrite firstn_app, firstn_all, Nat.sub_diag. simpl. apply app_nil_r. }
  rewrite Hrest, Hfront. reflexivity.
Qed.

(** A literal, then as little as can be of anything, then a second
    literal: on a text that holds the first literal, a middle in which
    the second literal cannot start, and the second literal. *)
Lemma lazy_span_run opening closing head closing' middle after i c k x :
  skipn i input = opening ++ middle ++ closing ++ after ->
  (forall a, In a opening -> charEq fl a a = true) ->
  (forall a, In a closing -> charEq fl a a = true) ->
  closing = head :: closing' ->
  (forall d, In d middle ->
     (dotAll fl || negb (isLineTerminator d))%bool = true /\ charEq fl head d = false) ->
  k (i + length opening + length middle + length closing) c = Some x ->
  m fl input (Seq (lits opening) (Seq (Rep Any 0 false) (lits closing))) i c k = Some x.
Proof.
  intros Hs Hopen Hclose Hhead Hmiddle Hk.
  destruct (m_seq_lits_run fl input opening (Seq (Rep Any 0 false) (lits closing))
              opening (middle ++ closing ++ after) i c k Hs
              (sameLetters_refl fl opening Hopen)) as [-> Hs1].
  assert (Hlen : length middle <= length input - (i + length opening)).
  { pose proof (f_equal (@length N) Hs1) as L. rewrite length_skipn, !length_app in L. lia. }
  change (m fl input (Seq (Rep Any 0 false) (lits closing)) (i + length opening) c k)
    with (iterate (m fl input Any) false
            (fun j c' => m fl input (lits closing) j c' k)
            (S (length input - (i + length opening)) + 0) 0 (i + length opening) c).
  apply iterate_any_lazy with (q := middle) (tail := closing ++ after); auto.
  - intros d Hd. apply Hmiddle. exact Hd.
  - intros j Hj. cbv beta.
    apply (m_firstChar fl input (lits closing) head).
    + rewrite Hhead. reflexivity.
    + intros d Hd.
      destruct (skipn_inside middle (closing ++ after) (j - (i + length opening)))
        as (d' & rest & Hd' & Hin); [lia|].
      assert (Hj' : skipn j input = d' :: rest).
      { rewrite <- Hd', <- Hs1, skipn_skipn. f_equal. lia. }
      destruct (skipn_cons _ _ _ _ Hj') as [Hn _].
      rewrite Hn in Hd. inversion Hd; subst d'. apply Hmiddle. exact Hin.
  - cbv beta.
    rewrite (m_lits_run fl input closing closing after); auto.
    + apply (skipn_app_rest _ _ _ _ Hs1).
    + apply sameLetters_refl. exact Hclose.
  - lia.
Qed.

End OneSpan.

Lemma cleanUp_span before thought after :
  (forall d, In d before -> d <> 60%N) ->
  (forall d, In d thought -> d <> 60%N) ->
  (forall d, In d after -> d <> 60%N) ->
  replaceAll toolRegexFlags
    (before ++ (lit "<think>" ++ thought ++ lit "</think>") ++ after) thinkSpan []
  = before ++ after.
Proof.
  intros Hb Ht Ha.
  set (span := lit "<think>" ++ thought ++ lit "</think>").
  set (input := before ++ span ++ after).
  assert (Hneq : forall d, d <> 60%N -> charEq toolRegexFlags 60 d = false).
  { intros d Hd. unfold charEq. cbn [ignoreCase toolRegexFlags].
    apply N.eqb_neq. congruence. }
  assert (Hrefl : forall p a, In a p -> charEq toolRegexFlags a a = true).
  { intros p a _. unfold charEq. cbn [ignoreCase toolRegexFlags]. apply N.eqb_refl. }
  change (before ++ after) with (before ++ [] ++ after).
  apply (replaceAll_one_span toolRegexFlags input thinkSpan [] before span after None).
  - reflexivity.
  - discriminate.
  - intros i Hi. apply (matchAt_firstChar toolRegexFlags input thinkSpan 60%N);
      [reflexivity|].
    intros d Hd. apply Hneq. apply Hb.
    apply (nth_error_before input before (span ++ after) i d); auto.
  - unfold matchAt, thinkSpan.
    apply (lazy_span_run toolRegexFlags input (lit "<think>") (lit "</think>") 60%N
             (lit "/think>") thought after).
    + unfold input, span. rewrite skipn_app, skipn_all, Nat.sub_diag. simpl skipn.
      rewrite <- !app_assoc. reflexivity.
    + apply Hrefl.
    + apply Hrefl.
    + reflexivity.
    + intros d Hd. split; [reflexivity|]. apply Hneq. apply Ht. exact Hd.
    + unfold span. rewrite !length_app. f_equal. f_equal. lia.
  - intros i Hi. apply (matchAt_firstChar toolRegexFlags input thinkSpan 60%N);
      [reflexivity|].
    intros d Hd. apply Hneq. apply Ha.
    apply (nth_error_after input (before ++ span) after i d); auto.
    + unfold input. rewrite app_assoc. reflexivity.
    + rewrite length_app. exact Hi.
Qed.

(** The structured-tag pattern on a text whose first opening bracket
    starts a tag around an object with no bracket in it. *)
Lemma toolRegex_first before inner after :
  (forall d, In d before -> d <> 91%N) ->
  (forall d, In d inner -> d <> 91%N) ->
  let body := [123%N] ++ inner ++ [125%N] in
  let content := before ++ lit "[TOOL]" ++ body ++ lit "[/TOOL]" ++ after in
  exists s e c,
    exec toolRegexFlags content toolRegex 0 = Some (s, e, c) /\
    group1 content c = body.
Proof.
  intros Hb Hi body content.
  set (j := length before + length (lit "[TOOL]")).
  set (j' := j + length body).
  assert (Hneq : forall d, d <> 91%N -> charEq toolRegexFlags 91 d = false).
  { intros d Hd. unfold charEq. cbn [ignoreCase toolRegexFlags].
    apply N.eqb_neq. congruence. }
  assert (Hrefl : forall p a, In a p -> charEq toolRegexFlags a a = true).
  { intros p a _. unfold charEq. cbn [ignoreCase toolRegexFlags]. apply N.eqb_refl. }
  assert (Hs0 : skipn (length before) content
                = lit "[TOOL]" ++ body ++ lit "[/TOOL]" ++ after).
  { unfold content. rewrite skipn_app, skipn_all, Nat.sub_diag. reflexivity. }
  assert (Hs1 : skipn j content = [123%N] ++ inner ++ [125%N] ++ lit "[/TOOL]" ++ after).
  { unfold j. rewrite (skipn_app_rest _ _ _ _ Hs0). unfold body.
    rewrite <- !app_assoc. reflexivity. }
  assert (Hs2 : skipn (j + 1) content = inner ++ [125%N] ++ lit "[/TOOL]" ++ after).
  { apply (skipn_app_rest content j [123%N]). exact Hs1. }
  assert (Hs3 : skipn (j + 1 + length inner) content = [125%N] ++ lit "[/TOOL]" ++ after).
  { apply (skipn_app_rest content (j + 1) inner). exact Hs2. }
  assert (Hs4 : skipn j' content = lit "[/TOOL]" ++ after).
  { unfold j', body. rewrite !length_app.
    replace (j + (length [123%N] + (length inner + length [125%N])))
      with (j + 1 + length inner + length [125%N]) by (simpl; lia).
    apply (skipn_app_rest content (j + 1 + length inner) [125%N]). exact Hs3. }
  assert (Hj' : j' = j + 1 + length inner + 1).
  { unfold j', body. rewrite !length_app. simpl. lia. }
  exists (length before), (j' + length (lit "[/TOOL]")), (Some (j, j')).
  split.
  - unfold exec. rewrite Nat.sub_0_r.
    apply scan_finds; try lia.
    + intros i Hi'. apply (matchAt_firstChar toolRegexFlags content toolRegex 91%N);
        [reflexivity|].
      intros d Hd. apply Hneq. apply Hb.
      apply (nth_error_before content before
               (lit "[TOOL]" ++ body ++ lit "[/TOOL]" ++ after) i d); auto. lia.
    + unfold matchAt, toolRegex.
      destruct (m_seq_lits_run toolRegexFlags content (lit "[TOOL]")
                  (Seq (Group (Seq (Chr 123) (Seq (Rep Any 0 false) (Chr 125))))
                     (lits (lit "[/TOOL]")))
                  (lit "[TOOL]") _ (length before) None (fun j c => Some (j, c)) Hs0
                  (sameLetters_refl toolRegexFlags _ (Hrefl _))) as [-> _].
      fold j.
      set (K := fun (p : nat) (_ : capture) =>
                  m toolRegexFlags content (lits (lit "[/TOOL]")) p (Some (j, p))
                    (fun j c => Some (j, c))).
      change (m toolRegexFlags content
                (Seq (Group (Seq (Chr 123) (Seq (Rep Any 0 false) (Chr 125))))
                   (lits (lit "[/TOOL]"))) j None (fun j c => Some (j, c)))
        with (m toolRegexFlags content
                (Seq (lits [123%N]) (Seq (Rep Any 0 false) (Chr 125))) j None K).
      destruct (m_seq_lits_run toolRegexFlags content [123%N]
                  (Seq (Rep Any 0 false) (Chr 125)) [123%N] _ j None K Hs1
                  (sameLetters_refl toolRegexFlags _ (Hrefl _))) as [-> _].
      change (length [123%N]) with 1.
      change (m toolRegexFlags content (Seq (Rep Any 0 false) (Chr 125)) (j + 1) None K)
        with (iterate (m toolRegexFlags content Any) false
                (fun p c' => m toolRegexFlags content (Chr 125) p c' K)
                (S (length content - (j + 1)) + 0) 0 (j + 1) None).
      assert (Hlen : length inner < S (length content - (j + 1)) + 0).
      { pose proof (f_equal (@length N) Hs2) as L.
        rewrite length_skipn, !length_app in L. lia. }
      apply iterate_any_lazy with (q := inner) (tail := [125%N] ++ lit "[/TOOL]" ++ after);
        [exact Hs2|intros; reflexivity| | |exact Hlen].
      * intros p Hp. cbv beta. cbn [m]. unfold step.
        destruct (skipn_inside inner ([125%N] ++ lit "[/TOOL]" ++ after) (p - (j + 1)))
          as (d & rest & Hd & Hin); [lia|].
        assert (Hp' : skipn p content = d :: rest).
        { rewrite <- Hd, <- Hs2, skipn_skipn. f_equal. lia. }
        destruct (skipn_cons _ _ _ _ Hp') as [Hn Hrest]. rewrite Hn.
        destruct (charEq toolRegexFlags 125 d); [|reflexivity].
        unfold K. apply (m_firstChar toolRegexFlags content (lits (lit "[/TOOL]")) 91%N);
          [reflexivity|].
        intros d' Hd'. apply Hneq.
        destruct (Nat.eq_dec (S p) (j + 1 + length inner)) as [Hend|Hmid].
        -- rewrite Hend in Hd'. destruct (skipn_cons _ _ _ _ Hs3) as [Hn3 _].
           rewrite Hn3 in Hd'. inversion Hd'. discriminate.
        -- destruct (skipn_inside inner ([125%N] ++ lit "[/TOOL]" ++ after) (S p - (j + 1)))
             as (d2 & rest2 & Hd2 & Hin2); [lia|].
           assert (Hp2 : skipn (S p) content = d2 :: rest2).
           { rewrite <- Hd2, <- Hs2, skipn_skipn. f_equal. lia. }
           destruct (skipn_cons _ _ _ _ Hp2) as [Hn2 _].
           rewrite Hn2 in Hd'. inversion Hd'; subst d2. apply Hi. exact Hin2.
      * cbv beta. cbn [m]. unfold step.
        destruct (skipn_cons _ _ _ _ Hs3) as [Hn3 _]. rewrite Hn3.
        rewrite (Hrefl [125%N] 125%N (or_introl eq_refl)).
        unfold K. replace (S (j + 1 + length inner)) with j' by lia.
        rewrite (m_lits_run toolRegexFlags content (lit "[/TOOL]") (lit "[/TOOL]") after);
          auto.
        apply sameLetters_refl. apply Hrefl.
    + unfold content. rewrite length_app. lia.
  - unfold group1, slice. rewrite Hs1.
    replace (j' - j) with (length body) by (unfold j'; lia).
    replace ([123%N] ++ inner ++ [125%N] ++ lit "[/TOOL]" ++ after)
      with (body ++ lit "[/TOOL]" ++ after)
      by (unfold body; rewrite <- !app_assoc; reflexivity).
    rewrite firstn_app, firstn_all, Nat.sub_diag. cbn [firstn]. apply app_nil_r.
Qed.

(** X23.  A reasoning span is removed with what it holds: of a
    completion that holds one span [<think>...</think>], over one line or
    many, and no other [<], the text before and the text after the span
    are kept, joined and trimmed. *)
Theorem cleanUp_removes_reasoning before thought after :
  (forall d, In d (before ++ thought ++ after) -> d <> 60%N) ->
  cleanUp (before ++ lit "<think>" ++ thought ++ lit "</think>" ++ after)
  = trim (before ++ after).
Proof.
  intros H.
  assert (Hb : forall d, In d before -> d <> 60%N).
  { intros d Hd. apply H. apply in_or_app. left. exact Hd. }
  assert (Ht : forall d, In d thought -> d <> 60%N).
  { intros d Hd. apply H. apply in_or_app. right. apply in_or_app. left. exact Hd. }
  assert (Ha : forall d, In d after -> d <> 60%N).
  { intros d Hd. apply H. apply in_or_app. right. apply in_or_app. right. exact Hd. }
  unfold cleanUp.
  replace (before ++ lit "<think>" ++ thought ++ lit "</think>" ++ after)
    with (before ++ (lit "<think>" ++ thought ++ lit "</think>") ++ after)
    by (rewrite <- !app_assoc; reflexivity).
  rewrite (cleanUp_span before thought after Hb Ht Ha).
  rewrite (replaceAll_firstChar plainFlags (before ++ after) thinkTag 60%N []);
    [reflexivity|reflexivity|].
  intros d Hd. unfold charEq. cbn [ignoreCase plainFlags]. apply N.eqb_neq.
  intros E. subst d. apply in_app_or in Hd. destruct Hd as [Hd|Hd].
  - apply (Hb 60%N Hd). reflexivity.
  - apply (Ha 60%N Hd). reflexivity.
Qed.

(** X24.  A request written as a structured tag is detected, and comes
    first.  When the first opening bracket of a text starts
    [[TOOL]{...}[/TOOL]] around an object that holds no bracket and that
    parses to a call with a truthy name and truthy parameters, that call
    heads the list [detectToolRequests] returns, whatever follows the
    tag. *)
Theorem tagged_request_detected_first api before inner after toolCall :
  (forall d, In d (before ++ inner) -> d <> 91%N) ->
  parseToolCall ([123%N] ++ inner ++ [125%N]) = Some toolCall ->
  exists rest,
    detectToolRequests api
      (before ++ lit "[TOOL]" ++ ([123%N] ++ inner ++ [125%N]) ++ lit "[/TOOL]" ++ after)
    = toolCall :: rest.
Proof.
  intros H Hparse.
  destruct (toolRegex_first before inner after) as (s & e & c & Hexec & Hgroup).
  - intros d Hd. apply H. apply in_or_app. left. exact Hd.
  - intros d Hd. apply H. apply in_or_app. right. exact Hd.
  - cbv zeta in Hexec, Hgroup.
    rewrite detectToolRequests_parts. unfold tagCalls. cbn [tagSpans].
    rewrite Hexec. cbn [flat_map snd]. rewrite Hgroup, Hparse.
    eexists. reflexivity.
Qed.


(** *** Requests of the input in the agentic loop *)

Lemma processToolChainFrom_length toolCalls :
  forall results s blocks s',
  processToolChainFrom toolCalls results s = (Returns blocks, s') ->
  length blocks = length results + length toolCalls.
Proof.
  induction toolCalls as [|toolCall rest IH]; intros results s blocks s' H.
  - simpl in H. inversion H; subst. simpl. lia.
  - simpl in H. unfold bind in H.
    destruct (processToolCall toolCall s) as [[block|e] s1]; [|discriminate].
    apply IH in H. rewrite H. unfold push. rewrite length_app. simpl. lia.
Qed.

Lemma detectToolRequests_tools api api' content :
  tools api' = tools api ->
  detectToolRequests api' content = detectToolRequests api content.
Proof. intros H. unfold detectToolRequests. rewrite H. reflexivity. Qed.

(** A turn whose context holds a request asks the backend with the
    results of the tools. *)
Lemma turn_with_requests context s response s1 :
  turn context s = (Returns response, s1) ->
  detectToolRequests (this s) context <> [] ->
  exists req results,
    posted s1 = posted s ++ [req] /\
    messages req
      = [ {| role := system; content := getAgenticSystemPrompt (this s) |};
          {| role := user; content := context |};
          toolResultsMessage results ] /\
    length results = length (detectToolRequests (this s) context).
Proof.
  unfold turn, bind, gets, newArray; simpl. intros H Hd.
  match type of H with chatCompletion ?ref ?mo ?t ?mt ?st = _ =>
    pose proof (chatCompletion_outline ref mo t mt st) as O end.
  rewrite H in O.
  inversion O as [Hnil Heq|elements lastMessage toolCall toolCalls e w Hl Hdet Hc Heq
                  |elements lastMessage extra prepared Hl Hcase Heq].
  simpl in Hl. rewrite nth_fresh in Hl.
  change [ {| role := system; content := getAgenticSystemPrompt (this s) |};
           {| role := user; content := context |} ]
    with ([ {| role := system; content := getAgenticSystemPrompt (this s) |} ]
          ++ [ {| role := user; content := context |} ]) in Hl.
  apply app_inj_tail in Hl. destruct Hl as [<- <-].
  simpl in Hcase.
  destruct Hcase as [(Hnone & _)|(results & w & _ & Hchain & -> & ->)];
    [contradiction|].
  try match goal with Hs : withPosted _ _ _ = s1 |- _ => rewrite <- Hs end.
  eexists. exists results. split; [reflexivity|]. split; [reflexivity|].
  unfold processToolChain in Hchain.
  apply processToolChainFrom_length in Hchain. exact Hchain.
Qed.

(** X25.  In the agentic loop, a request of the input is run again in
    every turn.  In a registry of plain names (letters, digits and
    underscores), when the input begins with a request for a registered
    tool, typed as [use <name> tool with] or [/<name>] and a query that a
    full stop ends, each turn of a run finds that request in its context,
    runs the tools and sends their results to the backend as a third
    message. *)
Theorem agentic_turns_rerun_request name typed gap q :
  sameLetters perToolFlags (lit "use " ++ name ++ lit " tool with") typed \/
  sameLetters perToolFlags ([47%N] ++ name) typed ->
  gap <> [] -> Forall (fun d => isWhiteSpace d = true) gap ->
  (exists d rest, q = d :: rest /\ isWhiteSpace d = false) ->
  (forall d, In d q -> isLineTerminator d = false /\ d <> 46%N) ->
  forall s context responses s' context',
  quietTurns s context responses s' context' ->
  plainRegistry (this s) = true ->
  In name (Map_keys (tools (this s))) ->
  (exists rest, context = typed ++ gap ++ q ++ 46%N :: rest) ->
  exists requests,
    posted s' = posted s ++ requests /\
    length requests = length responses /\
    Forall (fun req =>
              exists results,
                results <> [] /\
                nth_error (messages req) 2 = Some (toolResultsMessage results))
           requests.
Proof.
  intros Htyped Hgap Hws Hq Hin.
  induction 1 as [s context|s context response s1 responses s2 context2 Ht _ _ IH];
    intros Hplain Hname (rest & Hcontext).
  - exists []. rewrite app_nil_r. split; [reflexivity|]. split; [reflexivity|constructor].
  - destruct (turn_returns_posts _ _ _ _ Ht) as (Hthis & _).
    assert (Hfound : detectToolRequests (this s) context <> []).
    { intros Hnone. rewrite detectToolRequests_parts in Hnone.
      apply app_eq_nil in Hnone. destruct Hnone as [_ Hnone].
      pose proof (typed_request_matches name typed gap q (46%N :: rest)
                    Htyped Hgap Hws Hq Hin
                    (or_intror (ex_intro _ rest eq_refl))) as Hcall.
      rewrite <- Hcontext in Hcall.
      assert (Hflat : In {| callName := JString name;
                            callParameters :=
                              JObject [(lit "query", JString (trim q))] |}
                         (flat_map (toolMatches context) (Map_keys (tools (this s))))).
      { apply in_flat_map. exists name. split; [exact Hname|exact Hcall]. }
      rewrite Hnone in Hflat. destruct Hflat. }
    destruct (turn_with_requests _ _ _ _ Ht Hfound) as (req & results & Hp & Hm & Hlen).
    destruct IH as (requests & Hp2 & Hlen2 & Hall).
    + unfold plainRegistry in *. simpl. rewrite Hthis. exact Hplain.
    + simpl. rewrite Hthis. exact Hname.
    + exists (rest ++ previousBlock response).
      rewrite previousResponse_block, Hcontext, <- !app_assoc. reflexivity.
    + exists (req :: requests). simpl in Hp2. split; [|split].
      * rewrite Hp2, Hp, <- app_assoc. reflexivity.
      * simpl. rewrite Hlen2. reflexivity.
      * constructor; [|exact Hall].
        exists results. split.
        -- intros ->. simpl in Hlen. symmetry in Hlen.
           apply length_zero_iff_nil in Hlen. contradiction.
        -- rewrite Hm. reflexivity.
Qed.


(** *** The handlers of the default tools

    Three of the four handlers pass fields of the parameters to a private
    method of the class ([performTextAnalysis], [createSummary],
    [createTaskPlan]), and each of these methods starts by reading a
    property of one of its arguments: [type.toLowerCase],
    [content.split], [task.length] (the last after expressions that
    cannot throw).  On [undefined] or [null] that is a [TypeError], which
    rejects the promise of the handler.  What the methods compute on
    other values (word statistics in floating point, sorting) is left as
    a parameter. *)
Definition readsFirst (field property : str)
    (method : JsValue -> JsValue -> World -> Completion JsValue * World)
    (params : JsValue) (w : World) : Completion JsValue * World :=
  match getProperty params field with
  | None =>
      (Throws (mkError (lit "TypeError")
                 (lit "Cannot read properties of undefined (reading '" ++ property
                  ++ lit "')")), w)
  | Some JNull =>
      (Throws (mkError (lit "TypeError")
                 (lit "Cannot read properties of null (reading '" ++ property
                  ++ lit "')")), w)
  | Some value => method value params w
  end.

(** [new LMStudioAPI()] with the handlers of the class. *)
Definition classTools
    (searchWikipedia : JsValue -> World -> Completion JsValue * World)
    (performTextAnalysis createSummary createTaskPlan :
       JsValue -> JsValue -> World -> Completion JsValue * World) : LMStudioAPI :=
  newLMStudioAPI searchWikipedia
    (readsFirst (lit "type") (lit "toLowerCase") performTextAnalysis)
    (readsFirst (lit "content") (lit "split") createSummary)
    (readsFirst (lit "task") (lit "length") createTaskPlan).

Lemma readsFirst_query field property method q w :
  JsString.eqb (lit "query") field = false ->
  exists e,
    readsFirst field property method (JObject [(lit "query", JString q)]) w = (Throws e, w) /\
    errorName e = lit "TypeError".
Proof.
  intros H. unfold readsFirst, getProperty. cbn [lookupField]. rewrite H.
  eexists. split; reflexivity.
Qed.

(** X27.  Of the four default tools, only [search_wikipedia] can be
    reached by a typed request.  The natural-language and the slash form
    pass the text as the parameter [query]; the handlers of
    [analyze_text], [summarize_content] and [plan_task] read [type],
    [content] and [task].  So, on a text with no opening bracket, every
    request detected for one of these three tools ends in the error block
    of a [TypeError], whatever the text says, and the state is left
    as it was. *)
Theorem typed_requests_serve_search_only searchWikipedia performTextAnalysis
    createSummary createTaskPlan s content toolCall :
  tools (this s)
    = tools (classTools searchWikipedia performTextAnalysis createSummary createTaskPlan) ->
  (forall d, In d content -> d <> 91%N) ->
  In toolCall (detectToolRequests (this s) content) ->
  callName toolCall <> JString (lit "search_wikipedia") ->
  exists name e,
    callName toolCall = JString name /\
    errorName e = lit "TypeError" /\
    processToolCall toolCall s = (Returns (errorBlock name e), s).
Proof.
  intros Htools Hc Hin Hother.
  pose proof (queryCandidates_without_bracket (this s) content Hc) as Hcand.
  rewrite Forall_forall in Hcand.
  destruct (Hcand toolCall Hin) as (name & q & Hname & -> & _).
  simpl in Hother.
  assert (Hthrows : exists tool e,
            Map_get (tools (this s)) name = Some tool /\
            handler tool (JObject [(lit "query", JString q)]) (world s) = (Throws e, world s) /\
            errorName e = lit "TypeError").
  { rewrite Htools in Hname |- *. simpl in Hname.
    destruct Hname as [<-|[<-|[<-|[<-|[]]]]].
    - contradiction Hother. reflexivity.
    - destruct (readsFirst_query (lit "type") (lit "toLowerCase") performTextAnalysis q
                  (world s) eq_refl) as (e & He & Hn).
      eexists. exists e. split; [reflexivity|]. split; [exact He|exact Hn].
    - destruct (readsFirst_query (lit "content") (lit "split") createSummary q
                  (world s) eq_refl) as (e & He & Hn).
      eexists. exists e. split; [reflexivity|]. split; [exact He|exact Hn].
    - destruct (readsFirst_query (lit "task") (lit "length") createTaskPlan q
                  (world s) eq_refl) as (e & He & Hn).
      eexists. exists e. split; [reflexivity|]. split; [exact He|exact Hn]. }
  destruct Hthrows as (tool & e & Hget & Hh & Hn).
  exists name, e. split; [reflexivity|]. split; [exact Hn|].
  destruct (processToolCall_block
              {| callName := JString name;
                 callParameters := JObject [(lit "query", JString q)] |} s)
    as (block & w' & Hrun & Hblock); [exists name; reflexivity|].
  inversion Hblock as [? ? ? Hnone|? ? ? tool' payload ? Hget' Hh'|? ? ? tool' e' ? Hget' Hh'];
    subst.
  - congruence.
  - rewrite Hget in Hget'. inversion Hget'; subst tool'. rewrite Hh in Hh'. discriminate.
  - rewrite Hget in Hget'. inversion Hget'; subst tool'. rewrite Hh in Hh'.
    inversion Hh'; subst. rewrite withWorld_same in Hrun. exact Hrun.
Qed.


(** *** Unregistering and detection *)

Lemma Map_delete_keys (m : ToolMap) key :
  NoDup (Map_keys m) ->
  Map_keys (snd (Map_delete m key))
  = filter (fun k => negb (JsString.eqb k key)) (Map_keys m).
Proof.
  induction m as [|[k t] m IH]; simpl; intros H; [reflexivity|].
  inversion H as [|? ? Hk Hm]; subst.
  destruct (JsString.eqb k key) eqn:E; simpl.
  - apply eqb_eq in E. subst k. symmetry. apply forallb_filter_id. apply forallb_forall.
    intros k' Hk'. apply negb_true_iff.
    destruct (JsString.eqb k' key) eqn:E'; [|reflexivity].
    apply eqb_eq in E'. subst k'. contradiction.
  - specialize (IH Hm). destruct (Map_delete m key) as [found m']. simpl in *.
    rewrite IH. reflexivity.
Qed.

Lemma toolMatches_name content name toolCall :
  In toolCall (toolMatches content name) -> callName toolCall = JString name.
Proof.
  unfold toolMatches. intros H. apply in_app_or in H.
  assert (Hc : forall r, In toolCall (optList (firstMatch r name content)) ->
                         callName toolCall = JString name).
  { intros r Hr. destruct (firstMatch r name content) as [found|] eqn:E; [|destruct Hr].
    destruct Hr as [Heq|[]]. subst found.
    destruct (firstMatch_candidate r name content toolCall E) as (q & -> & _).
    reflexivity. }
  destruct H as [H|H]; eapply Hc; eauto.
Qed.

(** X28.  Unregistering a tool takes its typed requests out of
    detection and nothing else: in a registry of plain names (letters,
    digits and underscores), on a text with no opening bracket, the
    requests detected after [unregisterTool] are those detected before
    that do not name the tool. *)
Theorem unregisterTool_detection api name content toolCall :
  plainRegistry api = true ->
  NoDup (Map_keys (tools api)) ->
  (forall d, In d content -> d <> 91%N) ->
  (In toolCall (detectToolRequests (snd (unregisterTool api name)) content) <->
   In toolCall (detectToolRequests api content) /\ callName toolCall <> JString name).
Proof.
  intros _ Hnd Hc.
  assert (Hkeys : Map_keys (tools (snd (unregisterTool api name)))
                  = filter (fun k => negb (JsString.eqb k name)) (Map_keys (tools api))).
  { unfold unregisterTool. pose proof (Map_delete_keys (tools api) name Hnd) as H.
    destruct (Map_delete (tools api) name) as [found m']. exact H. }
  rewrite !detectToolRequests_parts, (tagCalls_without_bracket content Hc), Hkeys.
  simpl. rewrite !in_flat_map. split.
  - intros (k & Hk & Hin). apply filter_In in Hk. destruct Hk as [Hk Hneq].
    split; [exists k; auto|].
    rewrite (toolMatches_name content k toolCall Hin). intros E. inversion E; subst k.
    rewrite (proj2 (eqb_eq name name) eq_refl) in Hneq. discriminate.
  - intros [(k & Hk & Hin) Hneq]. exists k. split; [|exact Hin].
    apply filter_In. split; [exact Hk|].
    apply negb_true_iff. destruct (JsString.eqb k name) eqn:E; [|reflexivity].
    apply eqb_eq in E. subst k.
    rewrite (toolMatches_name content name toolCall Hin) in Hneq. contradiction.
Qed.

End Engine.

(** ** A concrete setting

    A registry with the four default tools, a backend that answers from a
    script, and the runs on which the general statements above are
    exercised. *)

Module Demo.

(** The world: the answers the backend has still to give. *)
Definition World : Type := list str.

Definition backend (req : ChatCompletionRequest) (w : World)
    : Completion ChatCompletionResponse * World :=
  match w with
  | text :: rest =>
      (Returns {| choices := [ {| messageRole := lit "assistant";
                                  messageContent := text;
                                  finish_reason := lit "stop" |} ] |}, rest)
  | [] => (Throws (mkError (lit "AxiosError") (lit "Network Error")), [])
  end.

(** [{"name": "plan_task", "parameters": {"task": "x"}}] *)
Definition planTaskJson : str :=
  lit "{" ++ quote ++ lit "name" ++ quote ++ lit ": " ++ quote ++ lit "plan_task" ++ quote
  ++ lit ", " ++ quote ++ lit "parameters" ++ quote ++ lit ": {" ++ quote ++ lit "task"
  ++ quote ++ lit ": " ++ quote ++ lit "x" ++ quote ++ lit "}}".

(** [JSON.parse] on the texts the examples hold: one object, and
    otherwise text that is no JSON. *)
Definition parse (text : str) : option JsValue :=
  if JsString.eqb text planTaskJson
  then Some (JObject [(lit "name", JString (lit "plan_task"));
                      (lit "parameters", JObject [(lit "task", JString (lit "x"))])])
  else None.

(** [Number::toString] on the integers below 2^53; the examples hold no
    other number. *)
Definition numberText (x : spec_float) : str :=
  match x with
  | S754_finite sign mantissa (Z0 as e) | S754_finite sign mantissa (Zpos _ as e) =>
      let value := Z.shiftl (Zpos mantissa) e in
      if Z.ltb value 9007199254740992
      then (if sign then lit "-" else [])
           ++ map N_of_ascii
                (String.list_ascii_of_string
                   (DecimalString.NilEmpty.string_of_uint (N.to_uint (Z.to_N value))))
      else lit "0"
  | _ => lit "0"
  end.

(** The handlers: planning, analysis and summaries answer with what they
    were given; the search finds nothing and throws. *)
Definition echo (params : JsValue) (w : World) : Completion JsValue * World :=
  (Returns params, w).

Definition noResults (params : JsValue) (w : World) : Completion JsValue * World :=
  (Throws (mkError (lit "Error") (lit "No results found")), w).

Definition api : LMStudioAPI World := newLMStudioAPI noResults echo echo echo.

(** A state with the given arrays alive and the given script ahead. *)
Definition state (alive : list (list ChatMessage)) (script : World) : State World :=
  {| this := api; arrays := alive; world := script; posted := [] |}.

Definition says (r : Role) (text : String.string) : ChatMessage :=
  {| role := r; content := lit text |}.

Arguments says r text%_string.

Definition query (toolName text : String.string) : ToolCall :=
  {| callName := JString (lit toolName);
     callParameters := JObject [(lit "query", JString (lit text))] |}.

Arguments query (toolName text)%_string.

End Demo.

(** *** Detection on concrete texts *)

(** The two examples of the specification. *)
Example detect_natural_language :
  detectToolRequests Demo.parse Demo.api (lit "use search_wikipedia tool with cats.")
  = [Demo.query "search_wikipedia" "cats"].
Proof. vm_compute. reflexivity. Qed.

Example detect_slash_command :
  detectToolRequests Demo.parse Demo.api (lit "/plan_task build a shed.")
  = [Demo.query "plan_task" "build a shed"].
Proof. vm_compute. reflexivity. Qed.

(** Two structured tags, the second one malformed, amid prose. *)
Example detect_structured_tag :
  detectToolRequests Demo.parse Demo.api
    (lit "First [TOOL]" ++ Demo.planTaskJson ++ lit "[/TOOL] then [TOOL]{oops}[/TOOL].")
  = [ {| callName := JString (lit "plan_task");
         callParameters := JObject [(lit "task", JString (lit "x"))] |} ].
Proof. vm_compute. reflexivity. Qed.

(** The names the constructor registers hold no pattern syntax, so the
    two per-tool patterns are the ones the model builds. *)
Lemma default_names_plain :
  forallb plainName (Map_keys (tools Demo.api)) = true.
Proof. reflexivity. Qed.

(** The clean-up of a completion removes the reasoning spans, with what
    they hold, and the white space at both ends. *)
Example cleanUp_strips_reasoning :
  cleanUp (lit " <think>task complete: not yet</think> Still working. </think> ")
  = lit "Still working.".
Proof. vm_compute. reflexivity. Qed.

Example isTaskComplete_mixed_case :
  isTaskComplete (lit "Task Complete: done") = true /\
  isTaskComplete (lit "Still working.") = false.
Proof. split; reflexivity. Qed.

(** C1 on the code.  The text holds two slash commands naming
    [plan_task]: the slash pattern matches at 0 and again at 25.  The
    detector keeps the first one only, and likewise for two
    natural-language requests. *)
Theorem detectToolRequests_keeps_first_match_only :
  let slashes := lit "/plan_task build a shed. /plan_task paint it." in
  let uses := lit "use plan_task tool with build a shed. Use plan_task tool with paint it." in
  exec perToolFlags slashes (slashPattern (lit "plan_task")) 0 = Some (0, 23, Some (11, 23)) /\
  exec perToolFlags slashes (slashPattern (lit "plan_task")) 23 = Some (25, 44, Some (36, 44)) /\
  detectToolRequests Demo.parse Demo.api slashes = [Demo.query "plan_task" "build a shed"] /\
  exec perToolFlags uses (usePattern (lit "plan_task")) 0 = Some (0, 36, Some (24, 36)) /\
  exec perToolFlags uses (usePattern (lit "plan_task")) 36 = Some (38, 70, Some (62, 70)) /\
  detectToolRequests Demo.parse Demo.api uses = [Demo.query "plan_task" "build a shed"].
Proof. cbv zeta. repeat split; vm_compute; reflexivity. Qed.

(** C2 as stated fails: a slash command for the tool registered first
    comes before a natural-language request for a tool registered
    later. *)
Lemma detectToolRequests_interleaves_forms :
  let text := lit "/search_wikipedia cats. use plan_task tool with build a shed." in
  detectToolRequests Demo.parse Demo.api text
    = [Demo.query "search_wikipedia" "cats"; Demo.query "plan_task" "build a shed"] /\
  specifiedOrder Demo.World Demo.parse Demo.api text
    = [Demo.query "plan_task" "build a shed"; Demo.query "search_wikipedia" "cats"] /\
  detectToolRequests Demo.parse Demo.api text
    <> specifiedOrder Demo.World Demo.parse Demo.api text.
Proof.
  cbv zeta. split; [vm_compute; reflexivity|]. split; [vm_compute; reflexivity|].
  vm_compute. discriminate.
Qed.

(** The mode [xyz] is none of the six. *)
Lemma getSystemPrompt_unrecognized_witness :
  recognized (lit "xyz") = false /\
  getSystemPrompt Demo.numberText Demo.api (lit "xyz")
    <> getSystemPrompt Demo.numberText Demo.api (lit "general").
Proof.
  split; [reflexivity|].
  exact (proj1 (getSystemPrompt_unrecognized Demo.World Demo.numberText Demo.api
                  (lit "xyz") eq_refl)).
Defined.

(** Three calls, the second of which fails. *)
Lemma processToolChain_one_block_per_call_witness :
  let calls := [Demo.query "plan_task" "a"; Demo.query "search_wikipedia" "b";
                Demo.query "plan_task" "c"] in
  exists blocks w',
    processToolChain Demo.numberText calls (Demo.state [] [])
      = (Returns blocks, withWorld Demo.World (Demo.state [] []) w') /\
    length blocks = length calls /\
    chainBlocks Demo.World Demo.numberText (tools Demo.api) [] calls blocks w'.
Proof.
  cbv zeta.
  apply (processToolChain_one_block_per_call Demo.World Demo.numberText).
  repeat constructor; eexists; reflexivity.
Defined.

Example processToolChain_second_of_three_fails :
  fst (processToolChain Demo.numberText
         [Demo.query "plan_task" "a"; Demo.query "search_wikipedia" "b";
          Demo.query "plan_task" "c"] (Demo.state [] []))
  = Returns
      [ lit "[TOOL_RESULT:plan_task]{" ++ quote ++ lit "query" ++ quote ++ lit ":"
          ++ quote ++ lit "a" ++ quote ++ lit "}[/TOOL_RESULT]";
        lit "[TOOL_ERROR:search_wikipedia]Error: No results found[/TOOL_ERROR]";
        lit "[TOOL_RESULT:plan_task]{" ++ quote ++ lit "query" ++ quote ++ lit ":"
          ++ quote ++ lit "c" ++ quote ++ lit "}[/TOOL_RESULT]" ].
Proof. vm_compute. reflexivity. Qed.

(** No tool is called [translate]. *)
Lemma processToolCall_unknown_tool_witness :
  processToolCall Demo.numberText (Demo.query "translate" "cats") (Demo.state [] [])
  = (Returns (lit "[TOOL_ERROR]Unknown tool: translate. Available tools: search_wikipedia, analyze_text, summarize_content, plan_task[/TOOL_ERROR]"),
     Demo.state [] []).
Proof.
  apply (processToolCall_unknown_tool Demo.World Demo.numberText (lit "translate")).
  reflexivity.
Defined.

(** *** The conversation driver on a concrete history *)

Module Chat.

(** The caller's array, at reference 0, and a backend that will say
    [ok]. *)
Definition history : list ChatMessage := [Demo.says user "/plan_task build a shed."].

Definition before : State Demo.World := Demo.state [history] [lit "ok"].

Definition run : Completion str * State Demo.World :=
  chatCompletion Demo.parse Demo.numberText Demo.backend 0 (lit "m")
    defaultTemperature defaultMaxTokens before.

Definition after : State Demo.World := Eval vm_compute in snd run.

Definition block : str :=
  lit "[TOOL_RESULT:plan_task]{" ++ quote ++ lit "query" ++ quote ++ lit ":" ++ quote
  ++ lit "build a shed" ++ quote ++ lit "}[/TOOL_RESULT]".

End Chat.

Lemma chat_run : Chat.run = (Returns (lit "ok"), Chat.after).
Proof. vm_compute. reflexivity. Qed.

(** C8 as stated fails: the content of the message added is not the
    joined blocks alone, the text [Tool results: ] stands before them. *)
Lemma tool_results_message_has_a_prefix :
  fst (processToolChain Demo.numberText
         (detectToolRequests Demo.parse Demo.api (lit "/plan_task build a shed."))
         Chat.before)
    = Returns [Chat.block] /\
  map messages (posted (snd Chat.run))
    = [Chat.history ++ [ {| role := system; content := lit "Tool results: " ++ Chat.block |} ]] /\
  lit "Tool results: " ++ Chat.block <> join [10%N] [Chat.block].
Proof.
  split; [vm_compute; reflexivity|]. split; [vm_compute; reflexivity|].
  vm_compute. discriminate.
Qed.

Lemma chatCompletion_appends_tool_results_witness :
  exists req,
    posted (snd Chat.run) = posted Chat.before ++ [req] /\
    messages req
      = ([] ++ [Demo.says user "/plan_task build a shed."])
        ++ [ {| role := system;
                content := lit "Tool results: " ++ join [10%N] [Chat.block] |} ].
Proof.
  unfold Chat.run.
  apply (chatCompletion_appends_tool_results Demo.World Demo.parse Demo.numberText
           Demo.backend 0 (lit "m") defaultTemperature defaultMaxTokens Chat.before
           [] (Demo.says user "/plan_task build a shed.") [Chat.block] Chat.before).
  - reflexivity.
  - vm_compute. discriminate.
  - vm_compute. reflexivity.
Defined.

(** The caller's array still holds its one message; the message with the
    tool results went into a second array. *)
Lemma chatCompletion_keeps_callers_list_witness :
  nth_error (arrays (snd Chat.run)) 0 = Some Chat.history /\
  length (arrays Chat.after) = 2.
Proof.
  split.
  - unfold Chat.run.
    apply (chatCompletion_keeps_callers_list Demo.World Demo.parse Demo.numberText
             Demo.backend 0 (lit "m") defaultTemperature defaultMaxTokens Chat.before
             0 Chat.history).
    reflexivity.
  - reflexivity.
Defined.

(** *** The agentic loop on concrete scripts *)

Module Run.

Definition turnOf := turn Demo.parse Demo.numberText Demo.backend.

(** Three quiet answers, with a budget of three turns. *)
Definition quietScript : State Demo.World := Demo.state [] [lit "a"; lit "b"; lit "c"].
Definition quiet0 : State Demo.World :=
  withAgentic Demo.World quietScript (Some (initialState (lit "hi") 3)).
Definition context1 : str := Eval vm_compute in previousResponse (lit "hi") (lit "a").
Definition asked1 : State Demo.World := Eval vm_compute in snd (turnOf (lit "hi") quiet0).
Definition context2 : str := Eval vm_compute in previousResponse context1 (lit "b").
Definition asked2 : State Demo.World :=
  Eval vm_compute in snd (turnOf context1 (nextTurn Demo.World asked1)).
Definition context3 : str := Eval vm_compute in previousResponse context2 (lit "c").
Definition asked3 : State Demo.World :=
  Eval vm_compute in snd (turnOf context2 (nextTurn Demo.World asked2)).

(** A quiet answer, then one that holds a completion phrase in mixed
    case, with the default budget of five turns. *)
Definition doneScript : State Demo.World :=
  Demo.state [] [lit "a"; lit "Task Complete: done"; lit "c"].
Definition done0 : State Demo.World :=
  withAgentic Demo.World doneScript (Some (initialState (lit "hi") 5)).
Definition done1 : State Demo.World := Eval vm_compute in snd (turnOf (lit "hi") done0).
Definition done2 : State Demo.World :=
  Eval vm_compute in snd (turnOf context1 (nextTurn Demo.World done1)).

End Run.

Lemma quiet_script_runs :
  quietTurns Demo.World Demo.parse Demo.numberText Demo.backend
    Run.quiet0 (lit "hi") [lit "a"; lit "b"; lit "c"]
    (nextTurn Demo.World Run.asked3) Run.context3.
Proof.
  apply quiet_turn with Run.asked1; [vm_compute; reflexivity| |].
  { intros H. apply isTaskComplete_spec in H. vm_compute in H. discriminate. }
  apply quiet_turn with Run.asked2; [vm_compute; reflexivity| |].
  { intros H. apply isTaskComplete_spec in H. vm_compute in H. discriminate. }
  apply quiet_turn with Run.asked3; [vm_compute; reflexivity| |].
  { intros H. apply isTaskComplete_spec in H. vm_compute in H. discriminate. }
  apply quiet_none.
Qed.

Lemma executeAgenticTask_budget_exhausted_witness :
  executeAgenticTask Demo.parse Demo.numberText Demo.backend (lit "hi") 3 Run.quietScript
    = (Returns (Some (lit "c")), withAgentic Demo.World (nextTurn Demo.World Run.asked3) None) /\
  length (posted (nextTurn Demo.World Run.asked3)) = 3.
Proof.
  destruct (executeAgenticTask_budget_exhausted Demo.World Demo.parse Demo.numberText
              Demo.backend (lit "hi") 3 Run.quietScript
              [lit "a"; lit "b"; lit "c"] (nextTurn Demo.World Run.asked3) Run.context3)
    as (_ & Hrun & Hposted).
  - lia.
  - reflexivity.
  - exact quiet_script_runs.
  - split; [exact Hrun|exact Hposted].
Defined.

Lemma done_script_runs :
  quietTurns Demo.World Demo.parse Demo.numberText Demo.backend
    Run.done0 (lit "hi") [lit "a"] (nextTurn Demo.World Run.done1) Run.context1.
Proof.
  apply quiet_turn with Run.done1; [vm_compute; reflexivity| |].
  { intros H. apply isTaskComplete_spec in H. vm_compute in H. discriminate. }
  apply quiet_none.
Qed.

Lemma executeAgenticTask_completed_witness :
  executeAgenticTask Demo.parse Demo.numberText Demo.backend (lit "hi") 5 Run.doneScript
    = (Returns (Some (lit "Task Complete: done")), withAgentic Demo.World Run.done2 None) /\
  length (posted Run.done2) = 2.
Proof.
  destruct (executeAgenticTask_completed Demo.World Demo.parse Demo.numberText
              Demo.backend (lit "hi") 5 Run.doneScript
              [lit "a"] (nextTurn Demo.World Run.done1) Run.context1
              (lit "Task Complete: done") Run.done2)
    as (_ & Hrun & Hposted).
  - exact done_script_runs.
  - simpl. lia.
  - vm_compute. reflexivity.
  - apply isTaskComplete_spec. vm_compute. reflexivity.
  - split; [exact Hrun|exact Hposted].
Defined.

(** A budget of zero turns: the answer the backend had ready is never
    asked for. *)
Lemma executeAgenticTask_no_budget_witness :
  executeAgenticTask Demo.parse Demo.numberText Demo.backend (lit "hi") 0
    (Demo.state [] [lit "a"])
  = (Returns (Some []), Demo.state [] [lit "a"]).
Proof.
  apply (executeAgenticTask_no_budget Demo.World Demo.parse Demo.numberText Demo.backend
           (lit "hi") 0 (Demo.state [] [lit "a"])).
  lia.
Defined.

(** ** More of the class, on concrete inputs *)

Lemma without_unit (c : N) (l : str) :
  forallb (fun d => negb (N.eqb d c)) l = true -> forall d, In d l -> d <> c.
Proof.
  intros H d Hd E. subst d.
  rewrite forallb_forall in H. specialize (H c Hd).
  rewrite N.eqb_refl in H. discriminate.
Qed.

Lemma one_line_query (q : str) :
  forallb (fun d => negb (isLineTerminator d) && negb (N.eqb d 46))%bool q = true ->
  forall d, In d q -> isLineTerminator d = false /\ d <> 46%N.
Proof.
  intros H d Hd. rewrite forallb_forall in H. specialize (H d Hd).
  apply andb_true_iff in H. destruct H as [H1 H2].
  apply negb_true_iff in H1. apply negb_true_iff in H2. apply N.eqb_neq in H2.
  split; assumption.
Qed.

Lemma default_names_distinct : NoDup (Map_keys (tools Demo.api)).
Proof.
  repeat constructor; simpl; intros H; decompose [or] H; try discriminate; assumption.
Qed.

Module More.

(** The tool the constructor registers last. *)
Definition planTool : Tool Demo.World :=
  {| toolName := lit "plan_task";
     toolDescription := lit "Break down complex tasks into manageable steps";
     toolParameters :=
       [parameter "task"%string "string"%string "The complex task to plan"%string true;
        parameter "context"%string "string"%string
          "Additional context or constraints"%string false];
     handler := Demo.echo;
     category := Some (lit "planning") |}.

(** A caller's array with no message. *)
Definition nothingToSay : State Demo.World := Demo.state [[]] [lit "ok"].

(** The request the run of [Chat] posted. *)
Definition asked : ChatCompletionRequest :=
  Eval vm_compute in
    requestFor Demo.World Chat.after
      (Chat.history ++ [toolResultsMessage [Chat.block]]) (lit "m")
      defaultTemperature defaultMaxTokens.

(** One quiet answer, then the backend is away; a budget of three. *)
Definition away0 : State Demo.World :=
  withAgentic Demo.World (Demo.state [] [lit "a"]) (Some (initialState (lit "hi") 3)).
Definition away1 : State Demo.World := Eval vm_compute in snd (Run.turnOf (lit "hi") away0).
Definition away2 : State Demo.World :=
  Eval vm_compute in snd (Run.turnOf Run.context1 (nextTurn Demo.World away1)).

(** An input that asks for a plan, and two quiet answers. *)
Definition request : str := lit "/plan_task build a shed.".
Definition again0 : State Demo.World :=
  withAgentic Demo.World (Demo.state [] [lit "a"; lit "b"])
    (Some (initialState request 2)).
Definition again1 : State Demo.World := Eval vm_compute in snd (Run.turnOf request again0).
Definition request1 : str := Eval vm_compute in previousResponse request (lit "a").
Definition again2 : State Demo.World :=
  Eval vm_compute in snd (Run.turnOf request1 (nextTurn Demo.World again1)).
Definition request2 : str := Eval vm_compute in previousResponse request1 (lit "b").

(** What stands between the braces of [Demo.planTaskJson]. *)
Definition planTaskInner : str := Eval vm_compute in removelast (tl Demo.planTaskJson).

End More.

Lemma registry_names_distinct_witness :
  NoDup (Map_keys (tools (registerTool Demo.api More.planTool))) /\
  NoDup (Map_keys (tools (snd (unregisterTool Demo.api (lit "analyze_text"))))).
Proof.
  apply (registry_names_distinct Demo.World Demo.api More.planTool (lit "analyze_text")).
  exact default_names_distinct.
Defined.

Lemma unregisterTool_lookup_witness :
  fst (unregisterTool Demo.api (lit "analyze_text"))
    = match Map_get (tools Demo.api) (lit "analyze_text") with
      | Some _ => true
      | None => false
      end /\
  Map_get (tools (snd (unregisterTool Demo.api (lit "analyze_text")))) (lit "plan_task")
    = if JsString.eqb (lit "analyze_text") (lit "plan_task") then None
      else Map_get (tools Demo.api) (lit "plan_task").
Proof.
  apply (unregisterTool_lookup Demo.World Demo.api (lit "analyze_text") (lit "plan_task")).
  exact default_names_distinct.
Defined.

Lemma detectToolRequests_without_bracket_witness :
  Forall (queryCandidate Demo.World Demo.api)
    (detectToolRequests Demo.parse Demo.api More.request) /\
  (tools Demo.api = [] -> detectToolRequests Demo.parse Demo.api More.request = []).
Proof.
  apply (detectToolRequests_without_bracket Demo.World Demo.parse Demo.api More.request).
  apply without_unit. reflexivity.
Defined.

Lemma isTaskComplete_phrase_anywhere_witness :
  isTaskComplete (lit "So: " ++ lit "Task Complete:" ++ lit " a shed.") = true.
Proof.
  apply (isTaskComplete_phrase_anywhere (lit "So: ") (lit "Task Complete:")
           (lit " a shed.") (lit "task complete:")).
  - left. reflexivity.
  - reflexivity.
Defined.

Lemma cleanUp_without_markers_witness :
  cleanUp (lit "  a > b  ") = trim (lit "  a > b  ").
Proof.
  apply (cleanUp_without_markers (lit "  a > b  ")).
  apply without_unit. reflexivity.
Defined.

Lemma chatCompletion_returns_trimmed_witness : noEdgeSpace (lit "ok").
Proof.
  apply (chatCompletion_returns_trimmed Demo.World Demo.parse Demo.numberText
           Demo.backend 0 (lit "m") defaultTemperature defaultMaxTokens
           Chat.before (lit "ok") Chat.after).
  exact chat_run.
Defined.

Lemma chatCompletion_nothing_posted_witness :
  (exists e, Throws (TypeError "Cannot read properties of undefined (reading 'content')")
             = @Throws str e) /\
  arrays More.nothingToSay = arrays More.nothingToSay /\
  this More.nothingToSay = this More.nothingToSay /\
  (nth 0 (arrays More.nothingToSay) [] = [] ->
   More.nothingToSay = More.nothingToSay /\
   exists e, Throws (TypeError "Cannot read properties of undefined (reading 'content')")
             = @Throws str e /\ errorName e = lit "TypeError").
Proof.
  apply (chatCompletion_nothing_posted Demo.World Demo.parse Demo.numberText
           Demo.backend 0 (lit "m") defaultTemperature defaultMaxTokens
           More.nothingToSay).
  - vm_compute. reflexivity.
  - reflexivity.
Defined.

Lemma chatCompletion_backend_outcome_witness :
  exists w,
    world Chat.after = snd (Demo.backend More.asked w) /\
    match fst (Demo.backend More.asked w) with
    | Returns reply =>
        match choices reply with
        | [] => exists e, Returns (lit "ok") = Throws e /\ errorName e = lit "TypeError"
        | first :: _ => Returns (lit "ok") = Returns (cleanUp (messageContent first))
        end
    | Throws e => Returns (lit "ok") = Throws e
    end.
Proof.
  apply (chatCompletion_backend_outcome Demo.World Demo.parse Demo.numberText
           Demo.backend 0 (lit "m") defaultTemperature defaultMaxTokens
           Chat.before (Returns (lit "ok")) Chat.after More.asked).
  - exact chat_run.
  - vm_compute. reflexivity.
Defined.

Lemma away_script_runs :
  quietTurns Demo.World Demo.parse Demo.numberText Demo.backend
    More.away0 (lit "hi") [lit "a"] (nextTurn Demo.World More.away1) Run.context1.
Proof.
  apply quiet_turn with More.away1; [vm_compute; reflexivity| |].
  { intros H. apply isTaskComplete_spec in H. vm_compute in H. discriminate. }
  apply quiet_none.
Qed.

Lemma executeAgenticTask_turn_fails_witness :
  executeAgenticTask Demo.parse Demo.numberText Demo.backend (lit "hi") 3
    (Demo.state [] [lit "a"])
    = (Throws (mkError (lit "AxiosError") (lit "Network Error")), More.away2) /\
  agenticState (this More.away2) = Some (afterTurns (initialState (lit "hi") 3) 1).
Proof.
  apply (executeAgenticTask_turn_fails Demo.World Demo.parse Demo.numberText
           Demo.backend (lit "hi") 3 (Demo.state [] [lit "a"]) [lit "a"]
           (nextTurn Demo.World More.away1) Run.context1).
  - exact away_script_runs.
  - simpl. lia.
  - vm_compute. reflexivity.
Defined.

Lemma agentic_turns_ask_witness :
  Run.context3 = lit "hi" ++ flat_map previousBlock [lit "a"; lit "b"; lit "c"] /\
  exists requests,
    posted (nextTurn Demo.World Run.asked3) = posted Run.quiet0 ++ requests /\
    length requests = 3.
Proof.
  destruct (agentic_turns_ask Demo.World Demo.parse Demo.numberText Demo.backend
              Run.quiet0 (lit "hi") [lit "a"; lit "b"; lit "c"]
              (nextTurn Demo.World Run.asked3) Run.context3 quiet_script_runs)
    as (Hcontext & requests & Hposted & Hlength & _).
  split; [exact Hcontext|]. exists requests. split; [exact Hposted|exact Hlength].
Defined.

Lemma typed_requests_detected_witness :
  In {| callName := JString (lit "plan_task");
        callParameters := JObject [(lit "query", JString (trim (lit "build a shed")))] |}
     (detectToolRequests Demo.parse Demo.api
        (lit "/Plan_Task" ++ lit " " ++ lit "build a shed" ++ lit ". Thanks")).
Proof.
  apply (typed_requests_detected Demo.World Demo.parse Demo.api (lit "plan_task")
           (lit "/Plan_Task") (lit " ") (lit "build a shed") (lit ". Thanks")).
  - reflexivity.
  - simpl. auto.
  - right. repeat constructor.
  - discriminate.
  - repeat constructor.
  - eexists. eexists. split; reflexivity.
  - apply one_line_query. reflexivity.
  - right. eexists. reflexivity.
Defined.

Lemma typed_requests_reach_their_tools_witness :
  exists blocks w',
    processToolChain Demo.numberText
      (detectToolRequests Demo.parse (this (Demo.state [] [])) More.request)
      (Demo.state [] [])
    = (Returns blocks, withWorld Demo.World (Demo.state [] []) w') /\
    length blocks
    = length (detectToolRequests Demo.parse (this (Demo.state [] [])) More.request) /\
    Forall (ranBlock Demo.World Demo.numberText (tools (this (Demo.state [] [])))) blocks.
Proof.
  apply (typed_requests_reach_their_tools Demo.World Demo.parse Demo.numberText
           (Demo.state [] []) More.request).
  - reflexivity.
  - apply without_unit. reflexivity.
Defined.


Lemma prompts_advertise_tools_witness :
  includes (getAgenticSystemPrompt Demo.api) (usageEntry [] More.planTool) = true /\
  (forall mode, recognized mode = true ->
     exists text,
       getSystemPrompt Demo.numberText Demo.api mode = Own text /\
       includes text (usageEntry (lit "    ") More.planTool) = true).
Proof.
  apply (prompts_advertise_tools Demo.World Demo.numberText Demo.api More.planTool).
  simpl. auto.
Defined.

Lemma setBaseUrl_normalizes_witness :
  setBaseUrl Demo.World Demo.api (lit "http://localhost:1234" ++ lit "/v1/")
  = {| baseUrl := lit "http://localhost:1234"; defaultModel := defaultModel Demo.api;
       tools := tools Demo.api; agenticState := agenticState Demo.api |}.
Proof.
  apply (setBaseUrl_normalizes Demo.World Demo.api (lit "http://localhost:1234")).
  - intros front. apply (other_last_unit (lit "http://localhost:123") front 52 47).
    discriminate.
  - intros front H. change (lit "/v1") with (lit "/v" ++ [49%N]) in H.
    rewrite app_assoc in H. revert H.
    apply (other_last_unit (lit "http://localhost:123") (front ++ lit "/v") 52 49).
    discriminate.
  - simpl. auto.
Defined.

Lemma cleanUp_removes_reasoning_witness :
  cleanUp (lit "Sure. " ++ lit "<think>" ++ lit "a shed?" ++ lit "</think>" ++ lit " Done. ")
  = trim (lit "Sure. " ++ lit " Done. ").
Proof.
  apply (cleanUp_removes_reasoning (lit "Sure. ") (lit "a shed?") (lit " Done. ")).
  apply without_unit. reflexivity.
Defined.

Lemma tagged_request_detected_first_witness :
  exists rest,
    detectToolRequests Demo.parse Demo.api
      (lit "First " ++ lit "[TOOL]" ++ ([123%N] ++ More.planTaskInner ++ [125%N])
       ++ lit "[/TOOL]" ++ lit " then /plan_task paint it.")
    = {| callName := JString (lit "plan_task");
         callParameters := JObject [(lit "task", JString (lit "x"))] |} :: rest.
Proof.
  apply (tagged_request_detected_first Demo.World Demo.parse Demo.api (lit "First ")
           More.planTaskInner (lit " then /plan_task paint it.")).
  - apply without_unit. reflexivity.
  - vm_compute. reflexivity.
Defined.

Lemma again_script_runs :
  quietTurns Demo.World Demo.parse Demo.numberText Demo.backend
    More.again0 More.request [lit "a"; lit "b"]
    (nextTurn Demo.World More.again2) More.request2.
Proof.
  apply quiet_turn with More.again1; [vm_compute; reflexivity| |].
  { intros H. apply isTaskComplete_spec in H. vm_compute in H. discriminate. }
  apply quiet_turn with More.again2; [vm_compute; reflexivity| |].
  { intros H. apply isTaskComplete_spec in H. vm_compute in H. discriminate. }
  apply quiet_none.
Qed.

Lemma agentic_turns_rerun_request_witness :
  exists requests,
    posted (nextTurn Demo.World More.again2) = posted More.again0 ++ requests /\
    length requests = length [lit "a"; lit "b"] /\
    Forall (fun req =>
              exists results,
                results <> [] /\
                nth_error (messages req) 2
                = Some (toolResultsMessage results))
           requests.
Proof.
  apply (agentic_turns_rerun_request Demo.World Demo.parse Demo.numberText Demo.backend
           (lit "plan_task") (lit "/plan_task") (lit " ") (lit "build a shed"))
    with (context := More.request) (context' := More.request2).
  - right. repeat constructor.
  - discriminate.
  - repeat constructor.
  - eexists. eexists. split; reflexivity.
  - apply one_line_query. reflexivity.
  - exact again_script_runs.
  - reflexivity.
  - simpl. auto.
  - exists []. reflexivity.
Defined.

(** *** The handlers of the class on a typed request *)

Module Defaults.

(** The private methods answer with the parameters they were given, when
    they get as far as that. *)
Definition method (value params : JsValue) (w : Demo.World)
    : Completion JsValue * Demo.World :=
  (Returns params, w).

Definition api : LMStudioAPI Demo.World :=
  classTools Demo.World Demo.noResults method method method.

Definition state : State Demo.World :=
  {| this := api; arrays := []; world := []; posted := [] |}.

End Defaults.

Lemma typed_requests_serve_search_only_witness :
  exists name e,
    callName (Demo.query "plan_task" "build a shed") = JString name /\
    errorName e = lit "TypeError" /\
    processToolCall Demo.numberText (Demo.query "plan_task" "build a shed") Defaults.state
    = (Returns (errorBlock name e), Defaults.state).
Proof.
  apply (typed_requests_serve_search_only Demo.World Demo.parse Demo.numberText
           Demo.noResults Defaults.method Defaults.method Defaults.method
           Defaults.state More.request).
  - reflexivity.
  - apply without_unit. reflexivity.
  - vm_compute. left. reflexivity.
  - discriminate.
Defined.

Lemma unregisterTool_detection_witness :
  In (Demo.query "plan_task" "build a shed")
     (detectToolRequests Demo.parse (snd (unregisterTool Demo.api (lit "analyze_text")))
        More.request) <->
  In (Demo.query "plan_task" "build a shed")
     (detectToolRequests Demo.parse Demo.api More.request) /\
  callName (Demo.query "plan_task" "build a shed") <> JString (lit "analyze_text").
Proof.
  apply (unregisterTool_detection Demo.World Demo.parse Demo.api (lit "analyze_text")
           More.request (Demo.query "plan_task" "build a shed")).
  - reflexivity.
  - exact default_names_distinct.
  - apply without_unit. reflexivity.
Defined.

(** *** A name that does not print, from the tag to the chain *)

Module Odd.

(** [{"name":{"toString":1},"parameters":"p"}] *)
Definition json : str :=
  lit "{" ++ quote ++ lit "name" ++ quote ++ lit ":{" ++ quote ++ lit "toString" ++ quote
  ++ lit ":1}," ++ quote ++ lit "parameters" ++ quote ++ lit ":" ++ quote ++ lit "p"
  ++ quote ++ lit "}".

Definition name : list (str * JsValue) :=
  [(lit "toString", JNumber (S754_finite false 1 0))].

(** [JSON.parse] on the one text above. *)
Definition parse (text : str) : option JsValue :=
  if JsString.eqb text json
  then Some (JObject [(lit "name", JObject name); (lit "parameters", JString (lit "p"))])
  else None.

Definition call : ToolCall :=
  {| callName := JObject name; callParameters := JString (lit "p") |}.

Definition message : str := lit "[TOOL]" ++ json ++ lit "[/TOOL]".

End Odd.

(** The detector hands the call over, and the completion call that holds
    the tag throws before anything is posted. *)
Example object_name_reaches_the_chain :
  detectToolRequests Odd.parse Demo.api Odd.message = [Odd.call] /\
  chatCompletion Odd.parse Demo.numberText Demo.backend 0 (lit "m")
    defaultTemperature defaultMaxTokens
    (Demo.state [[ {| role := user; content := Odd.message |} ]] [lit "ok"])
  = (Throws (TypeError "Cannot convert object to primitive value"),
     Demo.state [[ {| role := user; content := Odd.message |} ]] [lit "ok"]).
Proof. split; vm_compute; reflexivity. Qed.

Lemma processToolChain_aborts_on_object_name_witness :
  exists e blocks w',
    processToolChain Demo.numberText
      ([Demo.query "plan_task" "a"] ++ Odd.call :: [Demo.query "plan_task" "c"])
      (Demo.state [] [])
    = (Throws e, withWorld Demo.World (Demo.state [] []) w') /\
    errorName e = lit "TypeError" /\
    chainBlocks Demo.World Demo.numberText (tools Demo.api) []
      [Demo.query "plan_task" "a"] blocks w' /\
    length blocks = 1.
Proof.
  apply (processToolChain_aborts_on_object_name Demo.World Demo.numberText
           [Demo.query "plan_task" "a"] Odd.name (JString (lit "p"))
           [Demo.query "plan_task" "c"] (Demo.state [] [])).
  - repeat constructor; eexists; reflexivity.
  - discriminate.
Defined.

Lemma processToolCall_unknown_name_can_throw_witness :
  exists e,
    processToolCall Demo.numberText Odd.call (Demo.state [] []) = (Throws e, Demo.state [] [])
    /\ errorName e = lit "TypeError".
Proof.
  apply (proj2 (processToolCall_unknown_name_can_throw Demo.World Demo.numberText
                  Odd.call (Demo.state [] []) eq_refl) Odd.name eq_refl).
  discriminate.
Defined.
